(** * instagram-place-to-maps: ingestion and extraction pipeline

    A shallow embedding of the deduplication registry, the link classifier,
    the thread-node search and aggregation, the tolerant response parser and
    the search fan-in of the bot, with the properties stated for them. *)

From Stdlib Require Import ZArith NArith Lia Ascii String.
From Stdlib Require Import Floats.SpecFloat.
From stdpp Require Import base option list sorting gmap strings pretty.

Local Open Scope Z_scope.

(** ** Dedup registry (app/bot/handlers.py, PlaceBotHandlers.message_handler) *)

Module Dedup.

(** The two class-level sets of message ids. *)
Record registry := Registry {
  _processed_message_ids : gset Z;
  _processing_messages : gset Z
}.

Definition empty_registry : registry := Registry ∅ ∅.

(** The three ways the check at the top of [message_handler] can go: the
    handler carries on, or it returns at the first check (id already in
    [_processed_message_ids]) or at the second (id in
    [_processing_messages]). *)
Inductive AdmissionDecision :=
| Proceed
| AlreadyProcessing
| AlreadyProcessed.

Definition _MAX_PROCESSED_IDS : nat := 1000.

(** [sorted(ids)]. *)
Definition sorted (s : gset Z) : list Z := merge_sort Z.le (elements s).

(** The memory-management step:
    [if len(ids) > MAX: ids = set(sorted(ids)[MAX // 2:])]. *)
Definition evict_with (cap : nat) (s : gset Z) : gset Z :=
  if (cap <? size s)%nat
  then list_to_set (drop (cap / 2)%nat (sorted s))
  else s.

Definition evict : gset Z -> gset Z := evict_with _MAX_PROCESSED_IDS.

(** The check-and-mark block, for a capacity [cap]. *)
Definition admission_with (cap : nat) (message_id : Z) (r : registry)
  : AdmissionDecision * registry :=
  if decide (message_id ∈ _processed_message_ids r) then (AlreadyProcessed, r)
  else if decide (message_id ∈ _processing_messages r) then (AlreadyProcessing, r)
  else
    (Proceed,
     Registry (evict_with cap (_processed_message_ids r ∪ {[message_id]}))
              (_processing_messages r ∪ {[message_id]})).

Definition admission : Z -> registry -> AdmissionDecision * registry :=
  admission_with _MAX_PROCESSED_IDS.

(** [self._processing_messages.discard(message_id)] of the early returns
    and of the [finally] block. *)
Definition release (message_id : Z) (r : registry) : registry :=
  Registry (_processed_message_ids r) (_processing_messages r ∖ {[message_id]}).

(** What can happen to the registry: a message is handled up to its
    admission check, or a handler that passed the check finishes. *)
Inductive event :=
| Admission (message_id : Z)
| Released (message_id : Z).

Definition step_with (cap : nat) (r : registry) (e : event) : registry :=
  match e with
  | Admission i => snd (admission_with cap i r)
  | Released i => release i r
  end.

Definition run_with (cap : nat) (tr : list event) : registry :=
  foldl (step_with cap) empty_registry tr.

Definition run : list event -> registry := run_with _MAX_PROCESSED_IDS.

(** Sample states: the ids 1..n, and a registry whose completed set is full
    with the ids 2..1001. *)
Definition ids_1_to (n : nat) : gset Z :=
  list_to_set (map Z.of_nat (seq 1 n)).

Definition full_registry : registry :=
  Registry (list_to_set (map Z.of_nat (seq 2 1000))) ∅.

End Dedup.

(** ** Text and regular expressions (Python [str] and the [re] module) *)

Module Regex.

(** A Python [str] is a sequence of Unicode code points. *)
Definition text := list N.

(** The code points of an ASCII literal. *)
Definition str (s : string) : text := map N_of_ascii (list_ascii_of_string s).

Definition in_range (lo hi c : N) : bool := ((lo <=? c) && (c <=? hi))%N.

(** [\s] on [str] patterns: the code points for which [str.isspace()]
    holds. *)
Definition is_space (c : N) : bool :=
  in_range 9 13 c || in_range 28 32 c || (c =? 133)%N || (c =? 160)%N
  || (c =? 5760)%N || in_range 8192 8202 c || (c =? 8232)%N || (c =? 8233)%N
  || (c =? 8239)%N || (c =? 8287)%N || (c =? 12288)%N.

(** [.] without DOTALL: anything but a newline. *)
Definition not_newline (c : N) : bool := negb (c =? 10)%N.

(** [[\s\S]]. *)
Definition any_char (c : N) : bool := true.

(** The fragment of [re] syntax the program uses. Repetition only occurs
    over one-character classes. *)
Inductive regex :=
| Empty
| Char (c : N)
| Class (p : N -> bool)
| Seq (r1 r2 : regex)
| Alt (r1 r2 : regex)
| Star (p : N -> bool)
| LazyStar (p : N -> bool)
| Eos
| Ahead (r : regex).

Definition Opt (r : regex) : regex := Alt r Empty.
Definition Plus (p : N -> bool) : regex := Seq (Class p) (Star p).

Fixpoint Lit (l : text) : regex :=
  match l with
  | [] => Empty
  | c :: l' => Seq (Char c) (Lit l')
  end.

Definition orelse {A} (x y : option A) : option A :=
  match x with Some _ => x | None => y end.

(** Greedy [p*]: take as many as possible, give back one at a time. *)
Fixpoint star_greedy (p : N -> bool) (k : text -> option text) (s : text)
  : option text :=
  match s with
  | c :: s' => if p c then orelse (star_greedy p k s') (k s) else k s
  | [] => k s
  end.

(** Lazy [p*?]: take as few as possible. *)
Fixpoint star_lazy (p : N -> bool) (k : text -> option text) (s : text)
  : option text :=
  orelse (k s)
    match s with
    | c :: s' => if p c then star_lazy p k s' else None
    | [] => None
    end.

(** The backtracking matcher, anchored at the start of [s]; [k] is what is
    left of the pattern, and the answer is the text left after the match. *)
Fixpoint exec (r : regex) (s : text) (k : text -> option text) : option text :=
  match r with
  | Empty => k s
  | Char c =>
      match s with
      | x :: s' => if (x =? c)%N then k s' else None
      | [] => None
      end
  | Class p =>
      match s with
      | x :: s' => if p x then k s' else None
      | [] => None
      end
  | Seq r1 r2 => exec r1 s (fun s1 => exec r2 s1 k)
  | Alt r1 r2 => orelse (exec r1 s k) (exec r2 s k)
  | Star p => star_greedy p k s
  | LazyStar p => star_lazy p k s
  | Eos =>
      match s with
      | [] => k s
      | [c] => if (c =? 10)%N then k s else None
      | _ => None
      end
  | Ahead r' =>
      match exec r' s (fun _ => Some []) with
      | Some _ => k s
      | None => None
      end
  end.

(** [pattern.match(s)]: the text after the match, if there is one. *)
Definition re_match (r : regex) (s : text) : option text := exec r s Some.

Definition matched (s rest : text) : text := take (length s - length rest) s.

(** [re.search(pattern, s)]: the leftmost match, as what precedes it,
    the match ([group()]) and what follows. *)
Fixpoint re_search (r : regex) (s : text) : option (text * text * text) :=
  match re_match r s with
  | Some rest => Some ([], matched s rest, rest)
  | None =>
      match s with
      | [] => None
      | c :: s' =>
          match re_search r s' with
          | Some (b, m, a) => Some (c :: b, m, a)
          | None => None
          end
      end
  end.

(** [re.sub(pattern, repl, s)] for a pattern that matches no empty string
    (every pattern substituted in this program): [skip] counts the
    characters of the match in progress that are still to be passed over. *)
Fixpoint sub_from (r : regex) (repl : text -> text) (skip : nat) (s : text)
  : text :=
  match s with
  | [] => []
  | c :: s' =>
      match skip with
      | S n => sub_from r repl n s'
      | O =>
          match re_match r s with
          | Some rest =>
              match length (matched s rest) with
              | S n => repl (matched s rest) ++ sub_from r repl n s'
              | O => c :: sub_from r repl 0 s'
              end
          | None => c :: sub_from r repl 0 s'
          end
      end
  end.

Definition re_sub (r : regex) (repl : text -> text) (s : text) : text :=
  sub_from r repl 0 s.

(** What a pattern can match, declaratively: [lang r m rest] says that
    [r] can match [m] when [rest] is what follows [m] in the subject. *)
Fixpoint lang (r : regex) (m rest : text) : Prop :=
  match r with
  | Empty => m = []
  | Char c => m = [c]
  | Class p => exists c, m = [c] /\ p c = true
  | Seq r1 r2 =>
      exists m1 m2, m = m1 ++ m2 /\ lang r1 m1 (m2 ++ rest) /\ lang r2 m2 rest
  | Alt r1 r2 => lang r1 m rest \/ lang r2 m rest
  | Star p | LazyStar p => Forall (fun c => p c = true) m
  | Eos => m = [] /\ (rest = [] \/ rest = [10%N])
  | Ahead r' => m = [] /\ exists m' rest', rest = m' ++ rest' /\ lang r' m' rest'
  end.

(** Drop the leading characters of a class. *)
Fixpoint skip_while (p : N -> bool) (s : text) : text :=
  match s with
  | c :: s' => if p c then skip_while p s' else s
  | [] => []
  end.

(** Whether the text starts with the character [c]. *)
Definition head_is (c : N) (s : text) : bool :=
  match s with
  | x :: _ => (x =? c)%N
  | [] => false
  end.

(** [needle in s]. *)
Definition contains (needle s : text) : bool :=
  match re_search (Lit needle) s with Some _ => true | None => false end.

(** [s.count(c)] for a one-character [c]. *)
Definition count_char (c : N) (s : text) : nat :=
  length (filter (fun x => x = c) s).

End Regex.

(** ** Link classification (app/bot/handlers.py, PlaceBotHandlers) *)

Module UrlType.
Import Regex.

(** [[A-Za-z0-9_-]]. *)
Definition is_id_char (c : N) : bool :=
  in_range 65 90 c || in_range 97 122 c || in_range 48 57 c
  || (c =? 95)%N || (c =? 45)%N.

(** [https?://(?:www\.)?instagram\.com/], the head of every pattern. *)
Definition instagram_head : regex :=
  Seq (Lit (str "http")) (Seq (Opt (Char 115)) (Seq (Lit (str "://"))
    (Seq (Opt (Lit (str "www."))) (Lit (str "instagram.com/"))))).

Definition id_tail : regex := Seq (Char 47) (Plus is_id_char).

(** [https?://(?:www\.)?instagram\.com/(?:reel|reels|p|tv)/([A-Za-z0-9_-]+)] *)
Definition INSTAGRAM_URL_PATTERN : regex :=
  Seq instagram_head
    (Seq (Alt (Lit (str "reel")) (Alt (Lit (str "reels"))
            (Alt (Lit (str "p")) (Lit (str "tv")))))
         id_tail).

(** [https?://(?:www\.)?instagram\.com/(?:reel|reels|tv)/([A-Za-z0-9_-]+)] *)
Definition INSTAGRAM_REEL_PATTERN : regex :=
  Seq instagram_head
    (Seq (Alt (Lit (str "reel")) (Alt (Lit (str "reels")) (Lit (str "tv"))))
         id_tail).

(** [https?://(?:www\.)?instagram\.com/p/([A-Za-z0-9_-]+)] *)
Definition INSTAGRAM_POST_PATTERN : regex :=
  Seq instagram_head (Seq (Lit (str "p")) id_tail).

(** [https?://(?:www\.)?instagram\.com/share/([A-Za-z0-9_-]+)] *)
Definition INSTAGRAM_SHARE_PATTERN : regex :=
  Seq instagram_head (Seq (Lit (str "share")) id_tail).

Definition matches (r : regex) (url : text) : bool :=
  match re_match r url with Some _ => true | None => false end.

Definition _get_url_type (url : text) : string :=
  if matches INSTAGRAM_REEL_PATTERN url then "reel"
  else if matches INSTAGRAM_POST_PATTERN url then "post"
  else if matches INSTAGRAM_SHARE_PATTERN url then "share"
  else "unknown".

End UrlType.

(** ** Python values as [json.loads] builds them, and exceptions *)

Module Py.
Import Regex.

Unset Elimination Schemes.
Inductive value :=
| VNone
| VBool (b : bool)
| VInt (z : Z)
| VFloat (f : spec_float)
| VStr (s : text)
| VList (l : list value)
| VDict (d : list (text * value)).
Set Elimination Schemes.

Inductive exn :=
| AttributeError
| TypeError
| KeyError
| IndexError
| JSONDecodeError (detail : text)
| OtherError (detail : text).

(** A call either returns or raises. *)
Inductive outcome (A : Type) :=
| Return (a : A)
| Raise (e : exn).
Arguments Return {A} a.
Arguments Raise {A} e.

Definition bind {A B} (m : outcome A) (f : A -> outcome B) : outcome B :=
  match m with
  | Return a => f a
  | Raise e => Raise e
  end.

#[global] Instance outcome_ret : MRet outcome := @Return.
#[global] Instance outcome_bind : MBind outcome := fun A B f m => bind m f.

Fixpoint mapM {A B} (f : A -> outcome B) (l : list A) : outcome (list B) :=
  match l with
  | [] => Return []
  | a :: l' => b ← f a; bs ← mapM f l'; Return (b :: bs)
  end.

(** A loop that threads a state through its iterations. *)
Fixpoint foldM {A S} (f : S -> A -> outcome S) (l : list A) (st : S)
  : outcome S :=
  match l with
  | [] => Return st
  | a :: l' => bind (f st a) (foldM f l')
  end.

Definition text_eqb (a b : text) : bool := bool_decide (a = b).

(** [bool(v)]. *)
Definition truthy (v : value) : bool :=
  match v with
  | VNone => false
  | VBool b => b
  | VInt z => negb (z =? 0)
  | VFloat (S754_zero _) => false
  | VFloat _ => true
  | VStr s => negb (bool_decide (s = []))
  | VList l => negb (bool_decide (length l = 0%nat))
  | VDict d => negb (bool_decide (length d = 0%nat))
  end.

Definition is_dict (v : value) : bool :=
  match v with VDict _ => true | _ => false end.
Definition is_list (v : value) : bool :=
  match v with VList _ => true | _ => false end.
Definition is_str (v : value) : bool :=
  match v with VStr _ => true | _ => false end.

Fixpoint lookup (key : text) (d : list (text * value)) : option value :=
  match d with
  | [] => None
  | (k, v) :: d' => if text_eqb k key then Some v else lookup key d'
  end.

(** [v.get(key, dflt)]: only a dict has the method. *)
Definition get (v : value) (key : text) (dflt : value) : outcome value :=
  match v with
  | VDict d => Return (default dflt (lookup key d))
  | _ => Raise AttributeError
  end.

(** [key in v] for a str [key]. *)
Definition has_key (v : value) (key : text) : outcome bool :=
  match v with
  | VDict d => Return (bool_decide (is_Some (lookup key d)))
  | VList l => Return (existsb (fun e => match e with
                                         | VStr s => text_eqb s key
                                         | _ => false
                                         end) l)
  | VStr s => Return (contains key s)
  | _ => Raise TypeError
  end.

(** [v[key]] for a str [key]. *)
Definition getitem (v : value) (key : text) : outcome value :=
  match v with
  | VDict d =>
      match lookup key d with
      | Some x => Return x
      | None => Raise KeyError
      end
  | _ => Raise TypeError
  end.

(** [v[0]]. The keys of a parsed document are strings, so a dict has no
    entry 0. *)
Definition first (v : value) : outcome value :=
  match v with
  | VList (x :: _) => Return x
  | VList [] => Raise IndexError
  | VStr (c :: _) => Return (VStr [c])
  | VStr [] => Raise IndexError
  | VDict _ => Raise KeyError
  | _ => Raise TypeError
  end.

(** [for x in v]: the elements of a list, the characters of a str, the
    keys of a dict. *)
Definition iter (v : value) : outcome (list value) :=
  match v with
  | VList l => Return l
  | VStr s => Return (map (fun c => VStr [c]) s)
  | VDict d => Return (map (fun kv => VStr (fst kv)) d)
  | _ => Raise TypeError
  end.

(** [f == z] for a float and an int: the exact values are compared. *)
Definition float_eq_int (f : spec_float) (z : Z) : bool :=
  match f with
  | S754_zero _ => z =? 0
  | S754_finite sgn m e =>
      let signed v := if sgn then - v else v in
      if 0 <=? e then z =? signed (Z.pos m * 2 ^ e)
      else (Z.pos m mod 2 ^ (- e) =? 0) && (z =? signed (Z.pos m / 2 ^ (- e)))
  | _ => false
  end.

Definition is_nan (v : value) : bool :=
  match v with VFloat S754_nan => true | _ => false end.

Definition bool_int (b : bool) : Z := if b then 1 else 0.

(** [x == y]. Inside a list or a dict the elements are compared by
    identity first, which only matters for NaN: the decoder hands out one
    NaN object, equal to itself inside a container and not outside. *)
Fixpoint eq (x y : value) {struct x} : bool :=
  match x, y with
  | VNone, VNone => true
  | VBool a, VBool b => bool_int a =? bool_int b
  | VBool a, VInt b => bool_int a =? b
  | VInt a, VBool b => a =? bool_int b
  | VInt a, VInt b => a =? b
  | VBool a, VFloat f => float_eq_int f (bool_int a)
  | VFloat f, VBool b => float_eq_int f (bool_int b)
  | VInt a, VFloat f => float_eq_int f a
  | VFloat f, VInt b => float_eq_int f b
  | VFloat f, VFloat g => SFeqb f g
  | VStr a, VStr b => text_eqb a b
  | VList l1, VList l2 =>
      (fix all2 (l1 l2 : list value) : bool :=
         match l1, l2 with
         | [], [] => true
         | a :: l1', b :: l2' =>
             ((is_nan a && is_nan b) || eq a b) && all2 l1' l2'
         | _, _ => false
         end) l1 l2
  | VDict d1, VDict d2 =>
      bool_decide (length d1 = length d2)
      && (fix all1 (d : list (text * value)) : bool :=
            match d with
            | [] => true
            | (k, a) :: d' =>
                match lookup k d2 with
                | Some b => ((is_nan a && is_nan b) || eq a b) && all1 d'
                | None => false
                end
            end) d1
  | _, _ => false
  end.

(** [x in l] for a list [l]. *)
Definition member (x : value) (l : list value) : bool :=
  existsb (fun e => (is_nan x && is_nan e) || eq e x) l.

(** A decimal number, and one padded to two digits ([{n:02d}]). *)
Definition dec (n : nat) : text := str (pretty n).
Definition dec2 (n : nat) : text :=
  if (n <? 10)%nat then 48%N :: dec n else dec n.

(** [sep.join(parts)]. *)
Fixpoint join (sep : text) (parts : list text) : text :=
  match parts with
  | [] => []
  | [p] => p
  | p :: ps => p ++ sep ++ join sep ps
  end.

End Py.

(** ** Place extractor (app/services/place_extractor.py) *)

Module Extractor.
Import Regex Py.

Record PlaceInfo := {
  confidence : value;
  name : value;
  name_en : value;
  city : value;
  country : value;
  address : value;
  place_type : value;
  highlights : value;
  price_range : value;
  recommendation : value;
  tags : value;
  search_keywords : value
}.

Record ExtractionResult := {
  found : bool;
  places : list PlaceInfo;
  notes : value
}.

Definition place_count (r : ExtractionResult) : nat := length (places r).

Definition backticks : text := [96; 96; 96]%N.

(** [```json\s*], [```\s*$] and [```\s*]. *)
Definition FENCE_JSON : regex :=
  Seq (Lit (backticks ++ str "json")) (Star is_space).
Definition FENCE_END : regex := Seq (Lit backticks) (Seq (Star is_space) Eos).
Definition FENCE : regex := Seq (Lit backticks) (Star is_space).

(** [\{[\s\S]*\}]. *)
Definition BRACES : regex := Seq (Char 123) (Seq (Star any_char) (Char 125)).

Definition is_closer (c : N) : bool := ((c =? 125) || (c =? 93))%N.

(** [,\s*([}\]])], replaced by its group 1, the closing character that
    ends the match. *)
Definition TRAILING_COMMA : regex :=
  Seq (Char 44) (Seq (Star is_space) (Class is_closer)).
Definition group1 (m : text) : text := drop (length m - 1) m.

(** [//.*?(?=\n|$)]. *)
Definition LINE_COMMENT : regex :=
  Seq (Lit (str "//")) (Seq (LazyStar not_newline) (Ahead (Alt (Char 10) Eos))).

(** [\{\s*"found"[\s\S]*]. *)
Definition FOUND_ANCHOR : regex :=
  Seq (Char 123) (Seq (Star is_space)
    (Seq (Lit (34%N :: str "found" ++ [34%N])) (Star any_char))).

Definition nothing (m : text) : text := [].

(** The removal of the code-fence markers. *)
Definition strip_fences (response_text : text) : text :=
  if contains (backticks ++ str "json") response_text then
    re_sub FENCE_END nothing (re_sub FENCE_JSON nothing response_text)
  else if contains backticks response_text then
    re_sub FENCE nothing response_text
  else response_text.

(** The two repairs applied to the brace span before it is parsed:
    trailing commas, then comments. *)
Definition repair (json_str : text) : text :=
  re_sub LINE_COMMENT nothing (re_sub TRAILING_COMMA group1 json_str).





(** [json_str += '}' * (open_braces - close_braces)] when more braces open
    than close. *)
Definition close_braces (json_str : text) : text :=
  let open_braces := count_char 123 json_str in
  let close_braces := count_char 125 json_str in
  if (close_braces <? open_braces)%nat
  then json_str ++ replicate (open_braces - close_braces) 125%N
  else json_str.

Definition msg_no_json : text := [28961; 27861; 35299; 26512; 22238; 25033]%N.
Definition msg_parse_failed : text :=
  str "JSON " ++ [35299; 26512; 22833; 25943]%N ++ str ": ".

Definition not_found (note : value) : ExtractionResult :=
  {| found := false; places := []; notes := note |}.

Definition make_place (place_data : value) : outcome PlaceInfo :=
  confidence ← get place_data (str "confidence") (VStr (str "low"));
  name ← get place_data (str "name") VNone;
  name_en ← get place_data (str "name_en") VNone;
  city ← get place_data (str "city") VNone;
  country ← get place_data (str "country") VNone;
  address ← get place_data (str "address") VNone;
  place_type ← get place_data (str "place_type") (VList []);
  highlights ← get place_data (str "highlights") (VList []);
  price_range ← get place_data (str "price_range") VNone;
  recommendation ← get place_data (str "recommendation") VNone;
  tags ← get place_data (str "tags") (VList []);
  search_keywords ← get place_data (str "search_keywords") (VList []);
  Return {| confidence := confidence; name := name; name_en := name_en;
            city := city; country := country; address := address;
            place_type := place_type; highlights := highlights;
            price_range := price_range; recommendation := recommendation;
            tags := tags; search_keywords := search_keywords |}.

(** What [_parse_response] does with the parsed document. *)
Definition read_places (data : value) : outcome ExtractionResult :=
  found_flag ← get data (str "found") (VBool false);
  if negb (truthy found_flag) then
    note ← get data (str "notes") VNone;
    Return (not_found note)
  else
    places_data ← get data (str "places") (VList []);
    legacy ← (if truthy places_data then Return false
              else has_key data (str "place"));
    places_data ← (if legacy : bool
                   then place ← getitem data (str "place"); Return (VList [place])
                   else Return places_data);
    items ← iter places_data;
    places ← mapM make_place items;
    note ← get data (str "notes") VNone;
    Return {| found := (0 <? length places)%nat; places := places;
              notes := note |}.

Section Parser.
(** [json.loads] and [str(e)] are the runtime's. *)
Variable json_loads : text -> outcome value.
Variable str_exn : exn -> text.

(** A run of the parser: the texts handed to [json.loads], in order,
    and how the run ends. *)
Definition run (A : Type) : Type := list text * outcome A.

Definition note_of (e : exn) : value := VStr (msg_parse_failed ++ str_exn e).

(** The second attempt, after [first_error]. *)
Definition second_attempt (json_str : text) (first_error : exn)
  : run ExtractionResult :=
  match re_search FOUND_ANCHOR json_str with
  | Some (_, found_match, _) =>
      let json_str := close_braces found_match in
      ([json_str],
       match json_loads json_str with
       | Return data => read_places data
       | Raise (JSONDecodeError d) =>
           Return (not_found (note_of (JSONDecodeError d)))
       | Raise e => Raise e
       end)
  | None => ([], Return (not_found (note_of first_error)))
  end.

(** [_parse_response]. Its outermost [except json.JSONDecodeError] has
    nothing to catch: both calls of [json.loads] have handlers of their own
    and nothing else raises that error. Any other exception leaves the
    function. *)
Definition _parse_response (response_text : text) : run ExtractionResult :=
  let cleaned_text := strip_fences response_text in
  match re_search BRACES cleaned_text with
  | None => ([], Return (not_found (VStr msg_no_json)))
  | Some (_, json_str, _) =>
      let json_str := repair json_str in
      match json_loads json_str with
      | Return data => ([json_str], read_places data)
      | Raise (JSONDecodeError d) =>
          let '(calls, res) := second_attempt json_str (JSONDecodeError d) in
          (json_str :: calls, res)
      | Raise e => ([json_str], Raise e)
      end
  end.

(** [extract], from the model's reply on: the reply is the message text
    or the exception of the call; whatever is raised on the way becomes
    a not-found result. *)
Definition extract (reply : outcome text) : ExtractionResult :=
  match reply with
  | Raise e => not_found (VStr (str_exn e))
  | Return result_text =>
      match snd (_parse_response result_text) with
      | Return r => r
      | Raise e => not_found (VStr (str_exn e))
      end
  end.
End Parser.

(** Sample replies. *)
Definition quoted (s : string) : text := 34%N :: str s ++ [34%N].

Definition reply_no_anchor : text :=
  str "{" ++ quoted "notes" ++ str ": 1, " ++ quoted "found" ++ str ": tru}".

Definition reply_truncated : text :=
  str "Sure! {" ++ quoted "found" ++ str ": true, " ++ quoted "places"
  ++ str ": [{" ++ quoted "name" ++ str ": " ++ quoted "A" ++ str "}".

Definition reply_truncated_span : text :=
  str "{" ++ quoted "found" ++ str ": true, " ++ quoted "places"
  ++ str ": [{" ++ quoted "name" ++ str ": " ++ quoted "A" ++ str "}".

Definition reply_no_places : text :=
  str "{" ++ quoted "found" ++ str ": true, " ++ quoted "places" ++ str ": []}".

Definition doc_no_places : value :=
  VDict [(str "found", VBool true); (str "places", VList [])].

Definition reply_one_place : text :=
  backticks ++ str "json" ++ 10%N :: str "{" ++ quoted "found" ++ str ": true, "
  ++ quoted "places" ++ str ": [{" ++ quoted "name" ++ str ": " ++ quoted "A"
  ++ str ",}],}" ++ 10%N :: backticks.

Definition reply_one_place_span : text :=
  str "{" ++ quoted "found" ++ str ": true, "
  ++ quoted "places" ++ str ": [{" ++ quoted "name" ++ str ": " ++ quoted "A"
  ++ str ",}],}".

Definition reply_one_place_repaired : text :=
  str "{" ++ quoted "found" ++ str ": true, "
  ++ quoted "places" ++ str ": [{" ++ quoted "name" ++ str ": " ++ quoted "A"
  ++ str "}]}".

Definition doc_one_place : value :=
  VDict [(str "found", VBool true);
         (str "places", VList [VDict [(str "name", VStr (str "A"))]])].

(** Stand-ins for [json.loads] and [str(e)] in the examples: a parser that
    knows the documents of a table and rejects everything else. *)
Definition loads_table (table : list (text * value)) (s : text)
  : outcome value :=
  match list_find (fun kv => fst kv = s) table with
  | Some (_, (_, v)) => Return v
  | None => Raise (JSONDecodeError (str "Expecting value"))
  end.

Definition str_detail (e : exn) : text :=
  match e with
  | JSONDecodeError d | OtherError d => d
  | AttributeError => str "AttributeError"
  | TypeError => str "TypeError"
  | KeyError => str "KeyError"
  | IndexError => str "IndexError"
  end.

End Extractor.

(** ** Thread documents (app/services/downloader.py, InstagramDownloader) *)

(** [_find_thread_node] walks whatever object graph it is handed. Objects
    live in a store and refer to each other by location, so that a dict or a
    list may contain itself. *)
Module Graph.
Import Regex Py.

Abbreviation loc := nat.

Inductive obj :=
| ONone
| OBool (b : bool)
| OInt (z : Z)
| OFloat (f : spec_float)
| OStr (s : text)
| OList (items : list loc)
| ODict (entries : list (text * loc)).

Abbreviation store := (gmap loc obj).

(** The object at a location; a location the store does not hold stands
    for [None]. *)
Definition deref (h : store) (l : loc) : obj := default ONone (h !! l).

Fixpoint entry (key : text) (entries : list (text * loc)) : option loc :=
  match entries with
  | [] => None
  | (k, l) :: rest => if text_eqb k key then Some l else entry key rest
  end.

(** The test on a dict: it has a non-empty list under "thread_items" whose
    first element has a dict with a "media_type" under "post".
    [items[0].get] raises when the first element is not a dict. *)
Definition is_thread_node (h : store) (entries : list (text * loc))
  : outcome bool :=
  match entry (str "thread_items") entries with
  | None => Return false
  | Some items =>
      match deref h items with
      | OList (item0 :: _) =>
          match deref h item0 with
          | ODict fields =>
              Return
                match entry (str "post") fields with
                | Some post =>
                    match deref h post with
                    | ODict post_fields =>
                        bool_decide (is_Some (entry (str "media_type") post_fields))
                    | _ => false
                    end
                | None => false
                end
          | _ => Raise AttributeError
          end
      | _ => Return false
      end
  end.

(** [for val in vals: result = search(val); if result: return result],
    ending in [None]; [search] may run out of fuel (the outer [None]). A
    returned node has a "thread_items" key, so it is never an empty dict and
    [if result] holds for it. *)
Fixpoint first_hit (search : loc -> option (outcome (option loc)))
  (vals : list loc) : option (outcome (option loc)) :=
  match vals with
  | [] => Some (Return None)
  | v :: vals' =>
      match search v with
      | Some (Return None) => first_hit search vals'
      | r => r
      end
  end.

(** [_find_thread_node(obj, depth)], with [fuel] bounding how deep the calls
    may nest: [None] means the fuel ran out before the call returned. *)
Fixpoint find (fuel : nat) (h : store) (obj : loc) (depth : Z)
  : option (outcome (option loc)) :=
  match fuel with
  | O => None
  | S fuel' =>
      if 20 <? depth then Some (Return None)
      else
        match deref h obj with
        | ODict entries =>
            match is_thread_node h entries with
            | Raise e => Some (Raise e)
            | Return true => Some (Return (Some obj))
            | Return false =>
                first_hit (fun val => find fuel' h val (depth + 1))
                          (map snd entries)
            end
        | OList items =>
            first_hit (fun item => find fuel' h item (depth + 1))
                      (take 10 items)
        | _ => Some (Return None)
        end
  end.

(** Every list cut down to its first ten elements. *)
Definition truncate (o : obj) : obj :=
  match o with
  | OList items => OList (take 10 items)
  | _ => o
  end.

(** Sample stores: a dict and a list that contain each other, and the same
    with a thread node hanging off the list. *)
Definition cyclic_store : store :=
  {[ 0%nat := ODict [(str "next", 1%nat)]; 1%nat := OList [0%nat; 1%nat] ]}.

Definition thread_store : store :=
  {[ 0%nat := ODict [(str "next", 1%nat)];
     1%nat := OList [0%nat; 2%nat];
     2%nat := ODict [(str "thread_items", 3%nat)];
     3%nat := OList [4%nat];
     4%nat := ODict [(str "post", 5%nat)];
     5%nat := ODict [(str "media_type", 6%nat)];
     6%nat := OInt 1 ]}.

End Graph.

(** [_extract_from_thread_node] reads the node found in the parsed
    document. *)
Module Threads.
Import Regex Py.

(** One entry of ["carousel_items"]. *)
Record media_item := {
  item_type : text;
  item_url : value;
  item_video_url : value
}.

(** The dict the extraction returns. *)
Record thread_data := {
  media_type : value;
  caption : value;
  description : value;
  author : value;
  image_urls : list value;
  video_urls : list value;
  carousel_items : list media_item;
  thread_items_count : nat
}.

Definition no_thread_data : thread_data :=
  {| media_type := VNone; caption := VNone; description := VNone;
     author := VNone; image_urls := []; video_urls := [];
     carousel_items := []; thread_items_count := 0 |}.

(** The three lists the media helpers append to. *)
Record media := {
  images : list value;
  videos : list value;
  carousel : list media_item
}.

Definition add_image (url : value) (m : media) : media :=
  {| images := images m ++ [url]; videos := videos m; carousel := carousel m |}.
Definition add_video (url : value) (m : media) : media :=
  {| images := images m; videos := videos m ++ [url]; carousel := carousel m |}.
Definition add_carousel (i : media_item) (m : media) : media :=
  {| images := images m; videos := videos m; carousel := carousel m ++ [i] |}.

(** [x or None]. *)
Definition or_none (x : value) : value := if truthy x then x else VNone.

(** The username of the author of a thread item:
    [item.get("post", {}).get("user", {})], then its "username" when the
    user is a dict and the empty str otherwise. *)
Definition username_of (item : value) : outcome value :=
  post ← get item (str "post") (VDict []);
  user ← get post (str "user") (VDict []);
  if is_dict user then get user (str "username") (VStr []) else Return (VStr []).

(** The first loop: the items whose username equals the author's. *)
Fixpoint same_author (author_username : value) (thread_items : list value)
  : outcome (list value) :=
  match thread_items with
  | [] => Return []
  | item :: rest =>
      username ← username_of item;
      kept ← same_author author_username rest;
      Return (if eq username author_username then item :: kept else kept)
  end.

Definition _extract_item_caption (post : value) : outcome value :=
  caption ← get post (str "caption") VNone;
  if is_dict caption then
    text ← get caption (str "text") (VStr []);
    Return (or_none text)
  else if is_str caption && truthy caption then Return caption
  else Return VNone.

Definition fragment_text (f : value) : outcome value :=
  text ← get f (str "text") (VStr []);
  get f (str "plaintext") text.

Definition as_str (v : value) : outcome text :=
  match v with
  | VStr s => Return s
  | _ => Raise TypeError
  end.

Definition _extract_item_description (post : value) : outcome value :=
  text_info ← get post (str "text_post_app_info") (VDict []);
  if negb (is_dict text_info) then Return VNone
  else
    frags ← get text_info (str "text_fragments") (VDict []);
    if negb (is_dict frags) then Return VNone
    else
      fragments ← get frags (str "fragments") (VList []);
      fs ← iter fragments;
      texts ← mapM fragment_text (List.filter is_dict fs);
      parts ← mapM as_str (List.filter truthy texts);
      Return (or_none (VStr (join (str " ") parts))).

(** [x.get("image_versions2", {})], then its "candidates" when that is a
    dict and the empty list otherwise. *)
Definition candidates_of (x : value) : outcome value :=
  img_versions ← get x (str "image_versions2") (VDict []);
  if is_dict img_versions then get img_versions (str "candidates") (VList [])
  else Return (VList []).

(** [versions[0].get("url")]. *)
Definition first_url (versions : value) : outcome value :=
  v0 ← first versions;
  get v0 (str "url") VNone.

Definition carousel_step (m : media) (item : value) : outcome media :=
  candidates ← candidates_of item;
  url ← (if truthy candidates then first_url candidates else Return VNone);
  video_versions ← get item (str "video_versions") (VList []);
  video_url ← (if truthy video_versions then first_url video_versions
               else Return VNone);
  let media_item :=
    {| item_type := if truthy video_versions then str "video" else str "image";
       item_url := url; item_video_url := video_url |} in
  let m := add_carousel media_item m in
  let m := if truthy url then add_image url m else m in
  Return (if truthy video_url then add_video video_url m else m).

Definition _extract_carousel_media (post : value) (m : media) : outcome media :=
  carousel ← get post (str "carousel_media") (VList []);
  items ← iter carousel;
  foldM carousel_step items m.

Definition _extract_image_media (post : value) (m : media) : outcome media :=
  candidates ← candidates_of post;
  if truthy candidates then
    url ← first_url candidates;
    Return (if truthy url && negb (member url (images m))
            then add_image url m else m)
  else Return m.

Definition _extract_video_media (post : value) (m : media) : outcome media :=
  video_versions ← get post (str "video_versions") (VList []);
  m ← (if truthy video_versions then
         url ← first_url video_versions;
         Return (if truthy url && negb (member url (videos m))
                 then add_video url m else m)
       else Return m);
  _extract_image_media post m.

Definition _extract_text_post_media (post text_info : value) (m : media)
  : outcome media :=
  if negb (is_dict text_info) then Return m
  else
    linked ← get text_info (str "linked_inline_media") (VDict []);
    if negb (is_dict linked) || negb (truthy linked) then Return m
    else
      video_versions ← get linked (str "video_versions") (VList []);
      m ← (if truthy video_versions then
             url ← first_url video_versions;
             Return (if truthy url then add_video url m else m)
           else Return m);
      candidates ← candidates_of linked;
      if truthy candidates then
        url ← first_url candidates;
        Return (if truthy url then add_image url m else m)
      else Return m.

(** What the second loop carries from item to item. *)
Record gathered := {
  caption_parts : list value;
  description_parts : list value;
  collected : media
}.

Definition gather_item (g : gathered) (item : value) : outcome gathered :=
  post ← get item (str "post") (VDict []);
  item_caption ← _extract_item_caption post;
  item_description ← _extract_item_description post;
  let caption_parts :=
    if truthy item_caption then caption_parts g ++ [item_caption]
    else caption_parts g in
  let description_parts :=
    if truthy item_description then description_parts g ++ [item_description]
    else description_parts g in
  media_type ← get post (str "media_type") VNone;
  text_info ← get post (str "text_post_app_info") (VDict []);
  m ← (if eq media_type (VInt 8) then _extract_carousel_media post (collected g)
       else if eq media_type (VInt 2) then _extract_video_media post (collected g)
       else if eq media_type (VInt 1) then _extract_image_media post (collected g)
       else if eq media_type (VInt 19)
            then _extract_text_post_media post text_info (collected g)
       else m ← _extract_image_media post (collected g);
            _extract_video_media post m);
  Return {| caption_parts := caption_parts;
            description_parts := description_parts;
            collected := m |}.

Section Formatting.
(** How an f-string renders a value; the runtime's. *)
Variable format_value : value -> text.

(** [f"[{i + 1}/{total}] {text}"] for each part, from [i] on. *)
Fixpoint numbered (i total : nat) (parts : list value) : list text :=
  match parts with
  | [] => []
  | text :: rest =>
      (str "[" ++ dec (i + 1) ++ str "/" ++ dec total ++ str "] "
       ++ format_value text)
      :: numbered (S i) total rest
  end.

Definition separator : text := 10%N :: str "---" ++ [10%N].

(** The merge of the parts of the kept items. *)
Definition merged (total : nat) (parts : list value) : value :=
  if (1 <? total)%nat && (1 <? length parts)%nat
  then VStr (join separator (numbered 0 total parts))
  else match parts with
       | p :: _ => p
       | [] => VNone
       end.

(** The second half of [_extract_from_thread_node]: everything that is
    computed from the kept items. *)
Definition aggregate (first_post author_username : value)
  (author_items : list value) : outcome thread_data :=
  let total := length author_items in
  media_type ← get first_post (str "media_type") VNone;
  g ← foldM gather_item author_items
        {| caption_parts := []; description_parts := [];
           collected := {| images := []; videos := []; carousel := [] |} |};
  let caption := merged total (caption_parts g) in
  let description := merged total (description_parts g) in
  let description :=
    if negb (truthy description) && truthy caption then caption
    else description in
  Return {| media_type := media_type; caption := caption;
            description := description; author := author_username;
            image_urls := images (collected g);
            video_urls := videos (collected g);
            carousel_items := carousel (collected g);
            thread_items_count := total |}.

Definition _extract_from_thread_node (node : value) : outcome thread_data :=
  thread_items ← get node (str "thread_items") (VList []);
  if negb (truthy thread_items) then Return no_thread_data
  else
    item0 ← first thread_items;
    first_post ← get item0 (str "post") (VDict []);
    first_user ← get first_post (str "user") (VDict []);
    author_username ← (if is_dict first_user
                       then get first_user (str "username") (VStr [])
                       else Return (VStr []));
    items ← iter thread_items;
    author_items ← same_author author_username items;
    aggregate first_post author_username author_items.
End Formatting.

(** Sample thread: a text item with the given username, caption and image
    address, and a node made of four of them. *)
Definition thread_item (username caption image : string) : value :=
  VDict [(str "post",
          VDict [(str "user", VDict [(str "username", VStr (str username))]);
                 (str "media_type", VInt 1);
                 (str "caption", VDict [(str "text", VStr (str caption))]);
                 (str "image_versions2",
                  VDict [(str "candidates",
                          VList [VDict [(str "url", VStr (str image))]])])])].

Definition thread_of (items : list value) : value :=
  VDict [(str "thread_items", VList items)].

Definition format_str (v : value) : text :=
  match v with
  | VStr s => s
  | _ => []
  end.

End Threads.

(** ** Image download (app/services/downloader.py) and the hand-over to the
    image analysis (app/bot/handlers.py) *)

Module Downloader.
Import Regex Py.

Record PostDownloadResult := {
  success : bool;
  content_type : text;
  image_paths : list text;
  video_path : option text;
  audio_path : option text;
  caption : option text;
  title : option text;
  error_message : option text
}.

Definition failure (content_type error_message : text) : PostDownloadResult :=
  {| success := false; content_type := content_type; image_paths := [];
     video_path := None; audio_path := None; caption := None; title := None;
     error_message := Some error_message |}.

(** [post_dir / name]. *)
Definition in_dir (post_dir name : text) : text := post_dir ++ 47%N :: name.

(** *** Threads images *)

Section ThreadImages.
(** The [n]-th request of the client, with [raise_for_status] and the write
    of the file: the content-type header of the response, or what was
    raised. *)
Variable client_get : nat -> value -> outcome text.
Variable post_dir : text.

Definition extension (content_type_header : text) : text :=
  if contains (str "png") content_type_header then str "png"
  else if contains (str "webp") content_type_header then str "webp"
  else str "jpg".

(** The loop over [enumerate(urls, idx)]; an image that fails is skipped. *)
Fixpoint download_each (idx : nat) (urls : list value) : list text :=
  match urls with
  | [] => []
  | img_url :: rest =>
      match client_get idx img_url with
      | Return header =>
          in_dir post_dir (str "image_" ++ dec2 idx ++ str "." ++ extension header)
          :: download_each (S idx) rest
      | Raise _ => download_each (S idx) rest
      end
  end.

Definition _download_thread_images (image_urls : list value) : list text :=
  download_each 1 (take 10 image_urls).
End ThreadImages.

(** *** Instagram posts *)

(** What instaloader raises. *)
Inductive insta_exn :=
| ProfileNotExistsException
| PrivateProfileNotFollowedException
| LoginRequiredException
| PostChangedException (detail : text)
| OtherException (detail : text).

Inductive fetched (A : Type) :=
| Fetched (a : A)
| Failed (e : insta_exn).
Arguments Fetched {A} a.
Arguments Failed {A} e.

Record sidecar_node := {
  is_video : bool;
  display_url : text
}.

Record Post := {
  typename : text;
  post_caption : option text;
  post_title : option text;
  owner_username : text;
  url : text;
  sidecar_nodes : list sidecar_node
}.


Definition msg_no_account : text := [25214; 19981; 21040; 27492; 24115; 34399]%N.
Definition msg_private : text :=
  [27492; 24115; 34399; 28858; 31169; 20154; 24115; 34399; 65292; 28961;
   27861; 23384; 21462]%N.
Definition msg_login : text :=
  [38656; 35201; 30331; 20837; 25165; 33021; 23384; 21462; 27492; 20839;
   23481; 65292; 35531; 30906; 35469; 32]%N
  ++ str "cookies.txt" ++ [32; 26159; 21542; 26377; 25928]%N.
Definition msg_changed : text :=
  [36028; 25991; 24050; 34987; 20462; 25913; 25110; 21034; 38500; 58; 32]%N.
Definition msg_failed : text := [19979; 36617; 22833; 25943; 58; 32]%N.
Definition msg_is_video : text :=
  [27492; 36028; 25991; 28858; 24433; 29255; 65292; 35531; 20351; 29992;
   24433; 29255; 34389; 29702; 27969; 31243]%N.
Definition msg_unsupported : text :=
  [19981; 25903; 25588; 30340; 36028; 25991; 39006; 22411; 58; 32]%N.
Definition msg_no_image : text :=
  [28961; 27861; 19979; 36617; 20219; 20309; 22294; 29255]%N.
Definition title_prefix : text :=
  str "Instagram " ++ [36028; 25991]%N ++ str " by ".

(** The [except] clauses of [_download_post_sync]. *)
Definition on_exception (e : insta_exn) : PostDownloadResult :=
  match e with
  | ProfileNotExistsException => failure (str "post") msg_no_account
  | PrivateProfileNotFollowedException => failure (str "post") msg_private
  | LoginRequiredException => failure (str "post") msg_login
  | PostChangedException d => failure (str "post") (msg_changed ++ d)
  | OtherException d => failure (str "post") (msg_failed ++ d)
  end.

Section PostDownload.
(** [Post.from_shortcode] with the reads of the post's attributes, and
    [L.context.get_and_write_raw(url, path)]. *)
Variable from_shortcode : text -> fetched Post.
Variable get_and_write_raw : text -> text -> fetched unit.
Variable post_dir : text.

(** The loop over [enumerate(post.get_sidecar_nodes(), idx)]: videos are
    skipped, a download that raises ends the loop. *)
Fixpoint download_sidecar (idx : nat) (nodes : list sidecar_node)
  : fetched (list text) :=
  match nodes with
  | [] => Fetched []
  | node :: rest =>
      if is_video node then download_sidecar (S idx) rest
      else
        let image_path :=
          in_dir post_dir (str "image_" ++ dec2 idx ++ str ".jpg") in
        match get_and_write_raw (display_url node) image_path with
        | Failed e => Failed e
        | Fetched _ =>
            match download_sidecar (S idx) rest with
            | Failed e => Failed e
            | Fetched paths => Fetched (image_path :: paths)
            end
        end
  end.

Definition downloaded (post : Post) (content_type : text)
  (image_paths : list text) : PostDownloadResult :=
  match image_paths with
  | [] => failure (str "post") msg_no_image
  | _ =>
      {| success := true; content_type := content_type;
         image_paths := image_paths; video_path := None; audio_path := None;
         caption := Some (default [] (post_caption post));
         title := Some (match post_title post with
                        | Some (c :: t) => c :: t
                        | _ => title_prefix ++ owner_username post
                        end);
         error_message := None |}
  end.

Definition _download_post_sync (shortcode : text) : PostDownloadResult :=
  match from_shortcode shortcode with
  | Failed e => on_exception e
  | Fetched post =>
      if text_eqb (typename post) (str "GraphSidecar") then
        match download_sidecar 1 (sidecar_nodes post) with
        | Failed e => on_exception e
        | Fetched image_paths => downloaded post (str "post_carousel") image_paths
        end
      else if text_eqb (typename post) (str "GraphImage") then
        let image_path := in_dir post_dir (str "image_01.jpg") in
        match get_and_write_raw (url post) image_path with
        | Failed e => on_exception e
        | Fetched _ => downloaded post (str "post_image") [image_path]
        end
      else if text_eqb (typename post) (str "GraphVideo") then
        failure (str "reel") msg_is_video
      else failure (str "post") (msg_unsupported ++ typename post)
  end.
End PostDownload.




Definition always_written (image_url image_path : text) : fetched unit :=
  Fetched tt.

End Downloader.

(** ** Place search (app/services/google_places.py) and its fan-out in
    [message_handler] *)

Module Places.
Import Py.

Record PlaceSearchResult := {
  found : bool;
  place_id : value;
  name : value;
  address : value;
  latitude : value;
  longitude : value;
  rating : value;
  user_ratings_total : value;
  price_level : value;
  google_maps_url : value;
  types : value;
  error_message : value
}.

End Places.

Module Search.
Import Regex Py.

Abbreviation PlaceInfo := Extractor.PlaceInfo.
Abbreviation PlaceSearchResult := Places.PlaceSearchResult.

Section FanOut.
(** [places_service.search_place(query)] as answered at time [t], and the
    f-string rendering of a value; both are the runtime's. *)
Variable search_place : nat -> value -> outcome PlaceSearchResult.
Variable format_value : value -> text.

(** The coroutine [search_place_with_info], whose search is answered at
    time [t]. *)
Definition search_place_with_info (t : nat) (place_info : PlaceInfo)
  : outcome (PlaceInfo * PlaceSearchResult) :=
  search_query ← (if truthy (Extractor.search_keywords place_info)
                  then first (Extractor.search_keywords place_info)
                  else Return (Extractor.name place_info));
  let search_query :=
    if truthy (Extractor.city place_info) && truthy (Extractor.name place_info)
    then VStr (format_value (Extractor.name place_info) ++ str " "
               ++ format_value (Extractor.city place_info))
    else search_query in
  place_result ← search_place t search_query;
  Return (place_info, place_result).

(** The event loop running the tasks of [asyncio.gather] over [search_tasks].
    Each task owns the slot of its position; [order] lists the tasks in the
    order in which they complete. A task that raises ends the wait with its
    exception. *)
Abbreviation slots := (list (option (PlaceInfo * PlaceSearchResult))).

Definition complete (candidates : list PlaceInfo) (t i : nat) (s : slots)
  : outcome slots :=
  match candidates !! i with
  | Some place_info =>
      r ← search_place_with_info t place_info;
      Return (<[i := Some r]> s)
  | None => Return s
  end.

Fixpoint run_tasks (candidates : list PlaceInfo) (t : nat) (order : list nat)
  (s : slots) : outcome slots :=
  match order with
  | [] => Return s
  | i :: rest =>
      s' ← complete candidates t i s;
      run_tasks candidates (S t) rest s'
  end.

(** The results in the order of the tasks, once every task is done. *)
Fixpoint collect (s : slots) : option (list (PlaceInfo * PlaceSearchResult)) :=
  match s with
  | [] => Some []
  | Some r :: s' =>
      match collect s' with
      | Some rs => Some (r :: rs)
      | None => None
      end
  | None :: _ => None
  end.

(** [search_results = await asyncio.gather(...)]: the joined
    results, the exception of a task, or [None] while a task is pending. *)
Definition gather (candidates : list PlaceInfo) (order : list nat)
  : option (outcome (list (PlaceInfo * PlaceSearchResult))) :=
  match run_tasks candidates 0 order (replicate (length candidates) None) with
  | Raise e => Some (Raise e)
  | Return s =>
      match collect s with
      | Some rs => Some (Return rs)
      | None => None
      end
  end.
End FanOut.

(** Samples: three candidates told apart by their names, and a service
    whose answer records the time of the answer. *)
Definition candidate (n : string) : PlaceInfo :=
  {| Extractor.confidence := VStr (str "low"); Extractor.name := VStr (str n);
     Extractor.name_en := VNone; Extractor.city := VNone;
     Extractor.country := VNone; Extractor.address := VNone;
     Extractor.place_type := VList []; Extractor.highlights := VList [];
     Extractor.price_range := VNone; Extractor.recommendation := VNone;
     Extractor.tags := VList []; Extractor.search_keywords := VList [] |}.

Definition answer (t : nat) (query : value) : outcome PlaceSearchResult :=
  Return {| Places.found := true; Places.place_id := VInt (Z.of_nat t);
            Places.name := query; Places.address := VNone;
            Places.latitude := VNone; Places.longitude := VNone;
            Places.rating := VNone; Places.user_ratings_total := VNone;
            Places.price_level := VNone; Places.google_maps_url := VNone;
            Places.types := VList []; Places.error_message := VNone |}.

End Search.

(** ** Paths of the thread-node search *)

Module GraphPaths.
Import Regex Py Graph.

(** The objects the search steps into from an object: the values of a
    dict, the first ten elements of a list. *)
Definition children (h : store) (obj : loc) : list loc :=
  match deref h obj with
  | ODict entries => map snd entries
  | OList items => take 10 items
  | _ => []
  end.

(** [n] such steps lead from [a] to [b]. *)
Fixpoint reaches (h : store) (n : nat) (a b : loc) : Prop :=
  match n with
  | O => a = b
  | S n' => exists c, c ∈ children h a /\ reaches h n' c b
  end.

End GraphPaths.

(** What the lists of an extraction hold: values that are neither None
    nor empty. *)

Module ThreadsResult.
Import Regex Py Threads.

Definition all_truthy (l : list value) : Prop :=
  Forall (fun u => truthy u = true) l.

(** The address lists the media helpers append to. *)
Definition media_ok (m : media) : Prop :=
  all_truthy (images m) /\ all_truthy (videos m).

(** What the second loop of the extraction carries. *)
Definition gathered_ok (g : gathered) : Prop :=
  all_truthy (caption_parts g) /\ all_truthy (description_parts g) /\
  media_ok (collected g).

End ThreadsResult.

(** ** Link extraction (app/bot/handlers.py, PlaceBotHandlers) *)

Module UrlExtract.
Import Regex UrlType.

(** Patterns whose matches do not depend on what follows them: no [$] and
    no lookahead. *)
Fixpoint local (r : regex) : bool :=
  match r with
  | Empty | Char _ | Class _ | Star _ | LazyStar _ => true
  | Seq r1 r2 | Alt r1 r2 => local r1 && local r2
  | Eos | Ahead _ => false
  end.

(** [pattern.search(text)] followed by [match.group(0)]. *)
Definition group0 (r : regex) (s : text) : option text :=
  match re_search r s with
  | Some (_, m, _) => Some m
  | None => None
  end.

Definition _extract_ig_url (message : text) : option text :=
  match group0 INSTAGRAM_URL_PATTERN message with
  | Some url => Some url
  | None => group0 INSTAGRAM_SHARE_PATTERN message
  end.

End UrlExtract.

(** ** Link validation and the download entry points
    (app/services/downloader.py, InstagramDownloader) *)

(** The result of a video download. *)
Module Video.
Import Regex.

Record DownloadResult := {
  success : bool;
  video_path : option text;
  audio_path : option text;
  title : option text;
  caption : option text;
  error_message : option text
}.

Definition failure (error_message : text) : DownloadResult :=
  {| success := false; video_path := None; audio_path := None; title := None;
     caption := None; error_message := Some error_message |}.

End Video.

Module Links.
Import Regex UrlType Py Downloader.

(** The group every pattern ends with: [([A-Za-z0-9_-]+)]. *)
Definition ID : regex := Plus is_id_char.

(** The patterns are kept as what precedes the group.
    [https?://(?:www\.)?instagram\.com/<kind>/]. *)
Definition instagram_link (kind : string) : regex :=
  Seq instagram_head (Seq (Lit (str kind)) (Char 47)).

Definition INSTAGRAM_URL_PATTERNS : list regex :=
  [instagram_link "reel"; instagram_link "p"; instagram_link "reels"].

Definition REEL_PATTERNS : list regex :=
  [instagram_link "reel"; instagram_link "reels"].

(** [re.match(pattern, url)] and its [group(1)]. *)
Definition link_matches (before : regex) (url : text) : bool :=
  matches (Seq before ID) url.

Definition link_group (before : regex) (url : text) : option text :=
  exec before url (fun s1 => exec ID s1 (fun s2 => Some (matched s1 s2))).

Definition msg_invalid_link : text :=
  [28961; 27861; 35299; 26512; 27492; 36899; 32080; 65292; 35531; 30906;
   35469; 26159; 21542; 28858; 26377; 25928; 30340]%N
  ++ str " Instagram " ++ [25110]%N ++ str " Threads " ++ [36899; 32080]%N.
Definition msg_invalid_post_link : text :=
  [28961; 27861; 35299; 26512; 27492; 36899; 32080; 65292; 35531; 30906;
   35469; 26159; 21542; 28858; 26377; 25928; 30340]%N
  ++ str " Instagram " ++ [36899; 32080]%N.
Definition msg_no_post_id : text :=
  [28961; 27861; 24478; 36899; 32080; 25552; 21462; 36028; 25991]%N
  ++ str " ID".

Section Word.
(** [\w] on [str] patterns: the runtime's word characters. *)
Variable is_word : N -> bool.

(** [[\w.]]. *)
Definition is_handle_char (c : N) : bool := is_word c || (c =? 46)%N.

(** [https?://(?:www\.)?threads\.(?:net|com)/]. *)
Definition threads_head : regex :=
  Seq (Lit (str "http")) (Seq (Opt (Char 115)) (Seq (Lit (str "://"))
    (Seq (Opt (Lit (str "www."))) (Seq (Lit (str "threads."))
      (Seq (Alt (Lit (str "net")) (Lit (str "com"))) (Char 47)))))).

(** [.../@[\w.]+/post/] and [.../t/]. *)
Definition THREADS_URL_PATTERNS : list regex :=
  [Seq threads_head
     (Seq (Char 64) (Seq (Plus is_handle_char) (Lit (str "/post/"))));
   Seq threads_head (Lit (str "t/"))].

Definition is_reel_url (url : text) : bool :=
  existsb (fun pattern => link_matches pattern url) REEL_PATTERNS.

Definition is_threads_url (url : text) : bool :=
  existsb (fun pattern => link_matches pattern url) THREADS_URL_PATTERNS.

Definition validate_url (url : text) : bool :=
  existsb (fun pattern => link_matches pattern url) INSTAGRAM_URL_PATTERNS
  || existsb (fun pattern => link_matches pattern url) THREADS_URL_PATTERNS.

(** The loop of [extract_post_id]. *)
Fixpoint first_group (patterns : list regex) (url : text) : option text :=
  match patterns with
  | [] => None
  | pattern :: rest =>
      if link_matches pattern url then link_group pattern url
      else first_group rest url
  end.

Definition extract_post_id (url : text) : option text :=
  first_group (INSTAGRAM_URL_PATTERNS ++ THREADS_URL_PATTERNS) url.

(** [str(e)], and the two runs in the executor: [_download_sync] with the
    options built for the link, and [_download_post_sync]; each gives a
    result or raises. *)
Variable str_exn : exn -> text.
Variable _download_sync : text -> outcome Video.DownloadResult.
Variable _download_post_sync : text -> outcome PostDownloadResult.

Definition download (url : text) : Video.DownloadResult :=
  if negb (validate_url url) then Video.failure msg_invalid_link
  else
    match _download_sync url with
    | Return result => result
    | Raise e => Video.failure (msg_failed ++ str_exn e)
    end.

Definition download_post (url : text) : PostDownloadResult :=
  if negb (validate_url url) then failure (str "post") msg_invalid_post_link
  else
    match extract_post_id url with
    | None | Some [] => failure (str "post") msg_no_post_id
    | Some shortcode =>
        match _download_post_sync shortcode with
        | Return result => result
        | Raise e => failure (str "post") (msg_failed ++ str_exn e)
        end
    end.
End Word.

(** Sample word class: the ASCII part of [\w]. *)
Definition ascii_word (c : N) : bool :=
  in_range 65 90 c || in_range 97 122 c || in_range 48 57 c || (c =? 95)%N.

End Links.

(** ** Which download the handler runs (app/bot/handlers.py,
    [message_handler]) *)

Module Acquire.
Import Regex UrlType Py Downloader.

(** How the download stage of the handler ends: with a reply that ends the
    handling, with the pictures of a post, or with a video. *)
Inductive acquired :=
| Abort (reply : text)
| AsImages (post_result : PostDownloadResult)
| AsVideo (download_result : Video.DownloadResult).

Definition msg_download_failed : text :=
  [10060]%N ++ str " " ++ [19979; 36617; 22833; 25943; 65306]%N.

(** An optional str in an f-string. *)
Definition render (x : option text) : text := default (str "None") x.

Section Handler.
Variable download : text -> Video.DownloadResult.
Variable download_post : text -> PostDownloadResult.

Definition acquire (url_type : string) (ig_url : text) : acquired :=
  if String.eqb url_type "post" then
    let post_result := download_post ig_url in
    if success post_result then AsImages post_result
    else if text_eqb (content_type post_result) (str "reel") then
      let download_result := download ig_url in
      if negb (Video.success download_result)
      then Abort (msg_download_failed
                  ++ render (Video.error_message download_result))
      else AsVideo download_result
    else Abort (msg_download_failed ++ render (error_message post_result))
  else
    let download_result := download ig_url in
    if negb (Video.success download_result) then
      let post_result := download_post ig_url in
      if success post_result then AsImages post_result
      else Abort (msg_download_failed
                  ++ render (Video.error_message download_result))
    else AsVideo download_result.
End Handler.

End Acquire.

(** What holds of every result of a post download. *)

Module PostResult.
Import Regex Py Downloader.

Definition well_formed (r : PostDownloadResult) : Prop :=
  (success r = true <-> image_paths r <> []) /\
  (success r = true <-> error_message r = None) /\
  (success r = true ->
   (content_type r = str "post_carousel" \/ content_type r = str "post_image")
   /\ is_Some (caption r) /\ (exists c t, title r = Some (c :: t))) /\
  (success r = false ->
   caption r = None /\ title r = None /\
   (content_type r = str "post" \/ content_type r = str "reel")) /\
  video_path r = None /\ audio_path r = None.

End PostResult.

(** ** Markdown escaping (app/bot/handlers.py) *)

Module Markdown.
Import Regex.

(** [text.replace(old, new)] for a one-character [old]. *)
Fixpoint replace_char (old : N) (new : text) (s : text) : text :=
  match s with
  | [] => []
  | x :: s' =>
      if (x =? old)%N then new ++ replace_char old new s'
      else x :: replace_char old new s'
  end.

Definition special_chars : text := str "_*[]()~`>#+-=|{}.!".

(** The loop [for char in special_chars: text = text.replace(char,
    f'\\{char}')]. *)
Definition escape_all (chars : text) (s : text) : text :=
  foldl (fun s char => replace_char char [92%N; char] s) s chars.

(** The module-level function. *)
Definition escape_markdown (s : text) : text :=
  match s with
  | [] => []
  | _ => escape_all special_chars s
  end.

(** The method of the handlers. *)
Definition _escape_markdown (s : text) : text := escape_all special_chars s.

(** One character in one pass. *)
Definition escaped (chars : text) (x : N) : text :=
  if bool_decide (x ∈ chars) then [92%N; x] else [x].

End Markdown.

(** ** Threads posts: content type and download
    (app/services/downloader.py, InstagramDownloader) *)

(** The metadata dict of [detect_threads_content_type]. The count of thread
    items is only set once the post data has been read. *)
Module Metadata.
Import Regex Py.

Record metadata := {
  description : value;
  image_urls : list value;
  video_urls : list value;
  author : value;
  carousel_items : list Threads.media_item;
  media_type : value;
  thread_items_count : option nat
}.

End Metadata.

Module ThreadsDownload.
Import Regex Py.

Inductive ThreadsContentType :=
| VIDEO
| IMAGE
| CAROUSEL
| MIXED
| TEXT_ONLY
| UNKNOWN.

(** [PostDownloadResult] as the Threads functions fill it: the caption and
    the title are whatever the post data holds. *)
Record PostDownloadResult := {
  success : bool;
  content_type : text;
  image_paths : list text;
  video_path : option text;
  audio_path : option text;
  caption : value;
  title : value;
  error_message : option text
}.

Definition failure (content_type error_message : text) : PostDownloadResult :=
  {| success := false; content_type := content_type; image_paths := [];
     video_path := None; audio_path := None; caption := VNone; title := VNone;
     error_message := Some error_message |}.

Definition msg_not_threads : text :=
  [28961; 27861; 35299; 26512; 27492; 36899; 32080; 65292; 35531; 30906;
   35469; 26159; 21542; 28858; 26377; 25928; 30340]%N ++ str " Threads "
  ++ [36899; 32080]%N.
Definition msg_no_text : text :=
  [27492]%N ++ str " Threads "
  ++ [36028; 25991; 28961; 25991; 23383; 20839; 23481]%N.
Definition msg_unrecognised : text :=
  [28961; 27861; 36776; 35672; 27492]%N ++ str " Threads "
  ++ [36028; 25991; 30340; 20839; 23481; 39006; 22411; 65292; 21487; 33021;
      38656; 35201; 30331; 20837; 25110; 36028; 25991; 24050; 34987; 21034;
      38500]%N.
Definition msg_no_video_url : text :=
  [20597; 28204; 21040; 24433; 29255; 36028; 25991; 20294; 28961; 27861;
   21462; 24471; 24433; 29255]%N ++ str " URL".
Definition msg_video_failed : text :=
  [24433; 29255; 19979; 36617; 22833; 25943]%N ++ str ": ".
Definition msg_no_image_url : text :=
  [20597; 28204; 21040; 22294; 29255; 36028; 25991; 20294; 28961; 27861;
   21462; 24471; 22294; 29255]%N ++ str " URL".
Definition msg_images_failed : text :=
  [22294; 29255; 19979; 36617; 22833; 25943]%N.
Definition msg_mixed_failed : text :=
  [20018; 25991; 28151; 21512; 23186; 39636; 19979; 36617; 22833; 25943;
   65306; 22294; 29255; 21644; 24433; 29255; 30342; 28961; 27861; 19979;
   36617]%N.

(** [bool(l)] for a list. *)
Definition nonempty {A} (l : list A) : bool :=
  match l with
  | [] => false
  | _ => true
  end.

Definition empty_metadata : Metadata.metadata :=
  {| Metadata.description := VStr []; Metadata.image_urls := [];
     Metadata.video_urls := []; Metadata.author := VNone;
     Metadata.carousel_items := []; Metadata.media_type := VNone;
     Metadata.thread_items_count := None |}.

(** The post data is the dict of [_extract_from_thread_node], which has
    every key, so no default of the reads applies. *)
Definition metadata_of (post_data : Threads.thread_data) : Metadata.metadata :=
  {| Metadata.description := Threads.description post_data;
     Metadata.image_urls := Threads.image_urls post_data;
     Metadata.video_urls := Threads.video_urls post_data;
     Metadata.author := Threads.author post_data;
     Metadata.carousel_items := Threads.carousel_items post_data;
     Metadata.media_type := Threads.media_type post_data;
     Metadata.thread_items_count :=
       Some (Threads.thread_items_count post_data) |}.

(** The chain of tests of [detect_threads_content_type]. *)
Definition classify (post_data : Threads.thread_data) : ThreadsContentType :=
  let media_type := Threads.media_type post_data in
  let thread_count := Threads.thread_items_count post_data in
  let has_images := nonempty (Threads.image_urls post_data) in
  let has_videos := nonempty (Threads.video_urls post_data) in
  if (1 <? thread_count)%nat && has_images && has_videos then MIXED
  else if eq media_type (VInt 2) || (negb has_images && has_videos) then VIDEO
  else if eq media_type (VInt 8) then CAROUSEL
  else if eq media_type (VInt 1) || (has_images && negb has_videos) then IMAGE
  else if eq media_type (VInt 19) then
    if has_videos then VIDEO
    else if has_images then IMAGE
    else TEXT_ONLY
  else
    if has_videos then VIDEO
    else if has_images then IMAGE
    else if truthy (Threads.description post_data) then TEXT_ONLY
    else UNKNOWN.

Section Download.
(** The runtime's [\w] and [str(e)]; the fetch and parse of the page, which
    gives the post data, None, or raises; the requests of the image client
    (see [_download_thread_images]); the request and write of the video;
    and the two directories. *)
Variable is_word : N -> bool.
Variable str_exn : exn -> text.
Variable _extract_threads_post_data : text -> outcome (option Threads.thread_data).
Variable client_get : nat -> value -> outcome text.
Variable fetch_video : value -> outcome unit.
Variable image_dir video_dir : text.

Definition detect_threads_content_type (url : text)
  : ThreadsContentType * Metadata.metadata :=
  match _extract_threads_post_data url with
  | Return (Some post_data) => (classify post_data, metadata_of post_data)
  | Return None => (UNKNOWN, empty_metadata)
  | Raise _ => (UNKNOWN, empty_metadata)
  end.

Definition video_file : text := Downloader.in_dir video_dir (str "video.mp4").

Definition _download_threads_video (metadata : Metadata.metadata)
  (description author : value) : PostDownloadResult :=
  match Metadata.video_urls metadata with
  | [] => failure (str "reel") msg_no_video_url
  | url0 :: _ =>
      match fetch_video url0 with
      | Raise e => failure (str "reel") (msg_video_failed ++ str_exn e)
      | Return _ =>
          {| success := true; content_type := str "reel"; image_paths := [];
             video_path := Some video_file; audio_path := Some video_file;
             caption := description; title := author; error_message := None |}
      end
  end.

Definition _download_threads_images (metadata : Metadata.metadata)
  (content_type : ThreadsContentType) (description author : value)
  : PostDownloadResult :=
  match Metadata.image_urls metadata with
  | [] => failure (str "post") msg_no_image_url
  | image_urls =>
      let image_paths :=
        Downloader._download_thread_images client_get image_dir image_urls in
      match image_paths with
      | [] => failure (str "post") msg_images_failed
      | _ =>
          {| success := true;
             content_type := if (1 <? length image_paths)%nat
                             then str "post_carousel" else str "post_image";
             image_paths := image_paths; video_path := None;
             audio_path := None; caption := description; title := author;
             error_message := None |}
      end
  end.

Definition _download_threads_mixed (metadata : Metadata.metadata)
  (description author : value) : PostDownloadResult :=
  let image_urls := Metadata.image_urls metadata in
  let image_paths :=
    if nonempty image_urls
    then Downloader._download_thread_images client_get image_dir image_urls
    else [] in
  let video_path :=
    match Metadata.video_urls metadata with
    | [] => None
    | url0 :: _ =>
        match fetch_video url0 with
        | Return _ => Some video_file
        | Raise _ => None
        end
    end in
  if negb (nonempty image_paths) && negb (bool_decide (is_Some video_path))
  then failure (str "post") msg_mixed_failed
  else
    {| success := true; content_type := str "thread_mixed";
       image_paths := image_paths; video_path := video_path;
       audio_path := video_path; caption := description; title := author;
       error_message := None |}.

Definition download_threads_post (url : text) : PostDownloadResult :=
  if negb (Links.is_threads_url is_word url)
  then failure (str "post") msg_not_threads
  else
    let '(content_type, metadata) := detect_threads_content_type url in
    let description := Metadata.description metadata in
    let author := Metadata.author metadata in
    match content_type with
    | VIDEO => _download_threads_video metadata description author
    | IMAGE | CAROUSEL =>
        _download_threads_images metadata content_type description author
    | MIXED => _download_threads_mixed metadata description author
    | TEXT_ONLY =>
        if negb (truthy description) then failure (str "post") msg_no_text
        else
          {| success := true; content_type := str "text_only";
             image_paths := []; video_path := None; audio_path := None;
             caption := description; title := author; error_message := None |}
    | UNKNOWN => failure (str "post") msg_unrecognised
    end.
End Download.

(** What holds of every result of a Threads download. *)
Definition well_formed (r : PostDownloadResult) : Prop :=
  (success r = true <-> error_message r = None) /\
  audio_path r = video_path r /\
  (length (image_paths r) <= 10)%nat /\
  (success r = false ->
   image_paths r = [] /\ video_path r = None /\ caption r = VNone /\
   title r = VNone /\
   (content_type r = str "post" \/ content_type r = str "reel")) /\
  (success r = true ->
   (content_type r = str "reel" /\ image_paths r = [] /\
    is_Some (video_path r)) \/
   (content_type r = str "post_image" /\ length (image_paths r) = 1%nat /\
    video_path r = None) \/
   (content_type r = str "post_carousel" /\
    (2 <= length (image_paths r))%nat /\ video_path r = None) \/
   (content_type r = str "thread_mixed" /\
    (image_paths r <> [] \/ is_Some (video_path r))) \/
   (content_type r = str "text_only" /\ image_paths r = [] /\
    video_path r = None /\ truthy (caption r) = true)).

End ThreadsDownload.

(** ** Authorisation (app/config.py, Settings.allowed_chat_ids, and
    app/bot/handlers.py, PlaceBotHandlers._is_authorized) *)

Module Auth.
Import Regex.

(** [s.split(sep)] for a one-character separator. *)
Fixpoint split_on (sep : N) (s : text) : list text :=
  match s with
  | [] => [[]]
  | c :: s' =>
      if (c =? sep)%N then [] :: split_on sep s'
      else
        match split_on sep s' with
        | item :: items => (c :: item) :: items
        | [] => [[c]]
        end
  end.

(** [s.strip()]. *)
Definition strip (s : text) : text :=
  reverse (skip_while is_space (reverse (skip_while is_space s))).

(** [bool(s)] for a str. *)
Definition nonblank (s : text) : bool :=
  match s with
  | [] => false
  | _ => true
  end.

Definition allowed_chat_ids (telegram_allowed_chat_ids : text) : list text :=
  match telegram_allowed_chat_ids with
  | [] => []
  | _ =>
      List.filter nonblank (map strip (split_on 44 telegram_allowed_chat_ids))
  end.

(** [str(chat_id)]. *)
Definition str_int (z : Z) : text := str (pretty z).

Definition _is_authorized (telegram_allowed_chat_ids : text) (chat_id : Z)
  : bool :=
  match allowed_chat_ids telegram_allowed_chat_ids with
  | [] => true
  | allowed_ids => bool_decide (str_int chat_id ∈ allowed_ids)
  end.

(** A setting written as chat ids with blanks around them. *)
Definition padded (item : text) (chat_id : Z) : Prop :=
  exists l r, item = l ++ str_int chat_id ++ r /\
    Forall (fun c => is_space c = true) l /\
    Forall (fun c => is_space c = true) r.

End Auth.

(** ** Editing a message with retries (app/bot/handlers.py,
    safe_edit_message) *)

Module Edit.

(** How one call of [message.edit_text] ends: it returns, it raises
    [TimedOut] or [NetworkError], or it raises something else. *)
Inductive edit_outcome :=
| Edited
| Transient
| Failed.

(** What the function does besides returning. *)
Inductive action :=
| EditText (attempt : nat)
| Sleep.

Section Retry.
(** The outcome of the call made at each attempt. *)
Variable edit_text : nat -> edit_outcome.
Variable max_retries : Z.

(** The loop [for attempt in range(max_retries + 1)], from [attempt] on
    with [remaining] iterations left; running out of iterations is the
    [return False] after the loop. *)
Fixpoint attempts (remaining attempt : nat) : bool * list action :=
  match remaining with
  | O => (false, [])
  | S remaining' =>
      match edit_text attempt with
      | Edited => (true, [EditText attempt])
      | Transient =>
          if Z.of_nat attempt <? max_retries then
            let '(ok, actions) := attempts remaining' (S attempt) in
            (ok, EditText attempt :: Sleep :: actions)
          else (false, [EditText attempt])
      | Failed => (false, [EditText attempt])
      end
  end.

Definition safe_edit_message : bool * list action :=
  attempts (Z.to_nat (max_retries + 1)) 0.
End Retry.

Definition is_edit (a : action) : bool :=
  match a with
  | EditText _ => true
  | Sleep => false
  end.

(** The calls of [edit_text] among the actions, by attempt number. *)
Definition edits (actions : list action) : list nat :=
  omap (fun a => match a with
                 | EditText attempt => Some attempt
                 | Sleep => None
                 end) actions.

Definition sleeps (actions : list action) : nat :=
  length (List.filter (fun a => negb (is_edit a)) actions).

End Edit.

(** ** Names of saved lists (app/services/google_maps_saver.py,
    get_saved_lists) and the list setting (app/config.py, RuntimeSettings) *)

Module ListNames.
Import Regex Py Auth.

(** The test under [''.join(c for c in name if ...)]: not in the private
    use area, not in U+F000..U+FFFF, and no control character. *)
Definition kept (c : N) : bool :=
  negb (in_range 57344 63743 c) && negb (in_range 61440 65535 c)
  && (32 <=? c)%N.

Definition clean_list_name (name : text) : text := strip (List.filter kept name).

Definition skip_words : list text :=
  [[26032; 22686; 28165; 21934]%N; [26032; 28165; 21934]%N; str "New list";
   [24314; 31435; 26032; 28165; 21934]%N;
   [20786; 23384; 33267; 28165; 21934; 20013]%N; str "Save to list"].

Section Lower.
(** [str.lower], the runtime's. *)
Variable lower : text -> text.

Definition is_valid_list_name (name : text) : bool :=
  if negb (nonblank name) || (50 <? length name)%nat then false
  else
    let filtered_name := strip (List.filter kept name) in
    if negb (nonblank filtered_name) || (length filtered_name <? 1)%nat
    then false
    else if existsb (fun sw => text_eqb (lower sw) (lower filtered_name))
                    skip_words
    then false
    else true.

(** [name in lists]. *)
Definition listed (name : text) (lists : list text) : bool :=
  existsb (text_eqb name) lists.

(** The loop over the lines of one menu item, left at the first name that
    is valid and new. *)
Fixpoint first_new (lists : list text) (lines : list text) : option text :=
  match lines with
  | [] => None
  | line :: rest =>
      let name := clean_list_name line in
      if is_valid_list_name name && negb (listed name lists) then Some name
      else first_new lists rest
  end.

(** The loop over the menu items; the text of an item may fail to be read,
    and the item is then passed over. *)
Definition read_item (lists : list text) (item : outcome text) : list text :=
  match item with
  | Return item_text =>
      match first_new lists (split_on 10 (strip item_text)) with
      | Some name => lists ++ [name]
      | None => lists
      end
  | Raise _ => lists
  end.

Definition read_items (menu_items : list (outcome text)) : list text :=
  foldl read_item [] menu_items.

End Lower.

End ListNames.

Module Runtime.
Import Regex Py Auth.

(** The list part of [RuntimeSettings]. *)
Record RuntimeSettings := {
  _google_maps_list : option text
}.

Section Default.
(** [settings.google_maps_default_list]. *)
Variable google_maps_default_list : text.

Definition google_maps_list (self : RuntimeSettings) : text :=
  match _google_maps_list self with
  | Some list_name => list_name
  | None => google_maps_default_list
  end.
End Default.

Definition set_google_maps_list (list_name : text) (self : RuntimeSettings)
  : bool * RuntimeSettings :=
  if negb (nonblank list_name) || negb (nonblank (strip list_name))
  then (false, self)
  else (true, {| _google_maps_list := Some (strip list_name) |}).

Definition reset_google_maps_list (self : RuntimeSettings) : RuntimeSettings :=
  {| _google_maps_list := None |}.

(** What a run of the bot does to the setting. *)
Inductive command :=
| SetList (list_name : text)
| ResetList.

Definition run_command (self : RuntimeSettings) (c : command)
  : RuntimeSettings :=
  match c with
  | SetList list_name => snd (set_google_maps_list list_name self)
  | ResetList => reset_google_maps_list self
  end.

End Runtime.

(** ** The place search (app/services/google_places.py,
    GooglePlacesService) *)

Module PlaceSearch.
Import Regex Py Places.

(** What the request gives: the status, and the reads of the body as text
    and as JSON, each of which may raise. *)
Record response := {
  status : Z;
  text_body : outcome text;
  json_body : outcome value
}.

Definition maps_search : text :=
  str "https://www.google.com/maps/search/?api=1".

Definition msg_api_error : text := str "API " ++ [37679; 35492]%N ++ str ": ".
Definition msg_no_place : text :=
  [25214; 19981; 21040; 31526; 21512; 30340; 22320; 40670]%N.

(** [__post_init__]. *)
Definition post_init (types : value) : value :=
  match types with
  | VNone => VList []
  | _ => types
  end.

Definition not_found (error_message : value) (google_maps_url : text)
  : PlaceSearchResult :=
  {| found := false; place_id := VNone; name := VNone; address := VNone;
     latitude := VNone; longitude := VNone; rating := VNone;
     user_ratings_total := VNone; price_level := VNone;
     google_maps_url := VStr google_maps_url; types := post_init VNone;
     error_message := error_message |}.

(** A str method called on a value. *)
Definition as_str (v : value) : outcome text :=
  match v with
  | VStr s => Return s
  | _ => Raise AttributeError
  end.

(** An item of [" ".join(...)]. *)
Definition join_item (v : value) : outcome text :=
  match v with
  | VStr s => Return s
  | _ => Raise TypeError
  end.

Section Service.
(** [urllib.parse.quote], which raises on a str that cannot be encoded (a
    lone surrogate); the f-string rendering of a value and [str(e)]; the
    key of the service; and the request for a query. *)
Variable quote : text -> outcome text.
Variable format_value : value -> text.
Variable str_exn : exn -> text.
Variable api_key : text.
Variable post : value -> outcome response.

Definition generate_search_url (keywords : list value) : outcome text :=
  parts ← mapM join_item keywords;
  encoded_query ← quote (join (str " ") parts);
  Return (maps_search ++ str "&query=" ++ encoded_query).

Definition _generate_maps_url (place_id query lat lng : value) : outcome text :=
  if truthy place_id && truthy lat && truthy lng then
    Return (maps_search ++ str "&query=" ++ format_value lat ++ str ","
            ++ format_value lng ++ str "&query_place_id="
            ++ format_value place_id)
  else if truthy place_id then
    Return (maps_search ++ str "&query_place_id=" ++ format_value place_id)
  else if truthy query then
    match query with
    | VStr q =>
        encoded_query ← quote q;
        Return (maps_search ++ str "&query=" ++ encoded_query)
    | _ => Raise TypeError
    end
  else if truthy lat && truthy lng then
    Return (maps_search ++ str "&query=" ++ format_value lat ++ str ","
            ++ format_value lng)
  else Return [].

(** The body of the [try] of [search_place]. *)
Definition request (query : value) : outcome PlaceSearchResult :=
  response ← post query;
  if negb (status response =? 200) then
    _ ← text_body response;
    url ← generate_search_url [query];
    Return (not_found (VStr (msg_api_error ++ str (pretty (status response))))
              url)
  else
    data ← json_body response;
    places ← get data (str "places") (VList []);
    if negb (truthy places) then
      url ← generate_search_url [query];
      Return (not_found (VStr msg_no_place) url)
    else
      place ← first places;
      id ← get place (str "id") (VStr []);
      id ← as_str id;
      let place_id := VStr (re_sub (Lit (str "places/")) (fun _ => []) id) in
      location ← get place (str "location") (VDict []);
      lat ← get location (str "latitude") VNone;
      lng ← get location (str "longitude") VNone;
      display_name ← get place (str "displayName") (VDict []);
      name ← get display_name (str "text") VNone;
      address ← get place (str "formattedAddress") VNone;
      rating ← get place (str "rating") VNone;
      user_ratings_total ← get place (str "userRatingCount") VNone;
      price_level ← get place (str "priceLevel") VNone;
      types ← get place (str "types") (VList []);
      url ← _generate_maps_url place_id VNone lat lng;
      Return {| found := true; place_id := place_id; name := name;
                address := address; latitude := lat; longitude := lng;
                rating := rating; user_ratings_total := user_ratings_total;
                price_level := price_level; google_maps_url := VStr url;
                types := post_init types; error_message := VNone |}.

Definition search_place (query : value) : outcome PlaceSearchResult :=
  match api_key with
  | [] =>
      url ← generate_search_url [query];
      Return {| found := true; place_id := VNone; name := query;
                address := VNone; latitude := VNone; longitude := VNone;
                rating := VNone; user_ratings_total := VNone;
                price_level := VNone; google_maps_url := VStr url;
                types := post_init VNone; error_message := VNone |}
  | _ =>
      match request query with
      | Return result => Return result
      | Raise e =>
          url ← generate_search_url [query];
          Return (not_found (VStr (str_exn e)) url)
      end
  end.

Definition search_with_keywords (keywords : list value)
  : outcome PlaceSearchResult :=
  parts ← mapM join_item keywords;
  search_place (VStr (join (str " ") parts)).
End Service.

(** A stand-in for [quote] in the examples: it refuses a str that holds a
    surrogate and leaves every other str as it is. *)
Definition sample_quote (s : text) : outcome text :=
  if existsb (in_range 55296 57343) s
  then Raise (OtherError (str "UnicodeEncodeError"))
  else Return s.

End PlaceSearch.

(** ** The cookie file (app/services/downloader.py,
    InstagramDownloader._load_cookies_from_netscape) *)

Module Cookies.
Import Regex Auth.

(** What one line of the file contributes: the name and the value of a
    cookie of an Instagram domain, if the line holds one. *)
Definition cookie_of_line (line : text) : option (text * text) :=
  let line := strip line in
  if head_is 35 line || negb (nonblank line) then None
  else
    let parts := split_on 9 line in
    if (7 <=? length parts)%nat then
      let domain := nth 0 parts [] in
      let cookie_name := nth 5 parts [] in
      let cookie_value := nth 6 parts [] in
      if contains (str "instagram.com") domain
      then Some (cookie_name, cookie_value)
      else None
    else None.

(** The loop over the lines that could be read: a failure to open or to
    read the file ends the loop and keeps what has been collected. *)
Definition _load_cookies_from_netscape (lines : list text)
  : gmap (list N) text :=
  foldl (fun cookies line =>
           match cookie_of_line line with
           | Some (cookie_name, cookie_value) =>
               <[cookie_name := cookie_value]> cookies
           | None => cookies
           end) ∅ lines.

(** The value a line gives to the cookie [name]. *)
Definition value_for (name : text) (line : text) : option text :=
  match cookie_of_line line with
  | Some (cookie_name, cookie_value) =>
      if bool_decide (cookie_name = name) then Some cookie_value else None
  | None => None
  end.

End Cookies.

(** * Properties *)

(** ** Dedup registry *)

Module DedupFacts.
Import Dedup.

Lemma sorted_Permutation (s : gset Z) : sorted s ≡ₚ elements s.
Proof. apply merge_sort_Permutation. Qed.

Lemma sorted_NoDup (s : gset Z) : NoDup (sorted s).
Proof. rewrite sorted_Permutation. apply NoDup_elements. Qed.

Lemma sorted_length (s : gset Z) : length (sorted s) = size s.
Proof. unfold sorted. by rewrite merge_sort_Permutation. Qed.

Lemma elem_of_sorted (s : gset Z) x : x ∈ sorted s ↔ x ∈ s.
Proof. rewrite sorted_Permutation. apply elem_of_elements. Qed.

Lemma sorted_StronglySorted (s : gset Z) : StronglySorted Z.le (sorted s).
Proof. apply (StronglySorted_merge_sort Z.le). Qed.

(** In a strongly sorted list without duplicates every element of a prefix
    is strictly below every element of the rest. *)
Lemma take_lt_drop (l : list Z) k x y :
  StronglySorted Z.le l -> NoDup l ->
  x ∈ take k l -> y ∈ drop k l -> x < y.
Proof.
  intros Hs. revert k. induction Hs as [|a l Hs IH Hall]; intros k Hnd Hx Hy.
  - rewrite take_nil in Hx. by apply elem_of_nil in Hx.
  - apply NoDup_cons in Hnd as [Ha Hnd].
    destruct k as [|k]; simpl in *; [by apply elem_of_nil in Hx|].
    apply elem_of_cons in Hx as [->|Hx].
    + assert (Hyl : y ∈ l) by (eapply subseteq_drop; eauto).
      rewrite Forall_forall in Hall. specialize (Hall _ Hyl).
      assert (a <> y) by (intros ->; contradiction). lia.
    + eauto.
Qed.

Section Eviction.
Variable cap : nat.
Variable s : gset Z.
Hypothesis Hover : (cap < size s)%nat.

Lemma evict_over :
  evict_with cap s = list_to_set (drop (cap / 2)%nat (sorted s)).
Proof. unfold evict_with. by rewrite (proj2 (Nat.ltb_lt _ _) Hover). Qed.

Lemma evict_subseteq : evict_with cap s ⊆ s.
Proof.
  rewrite evict_over. intros x Hx. apply elem_of_list_to_set in Hx.
  apply elem_of_sorted. eapply subseteq_drop; eauto.
Qed.

Lemma evict_size : size (evict_with cap s) = (size s - cap / 2)%nat.
Proof.
  rewrite evict_over, size_list_to_set.
  - by rewrite length_drop, sorted_length.
  - eapply sublist_NoDup; [apply sorted_NoDup | apply sublist_drop].
Qed.

Lemma evicted_lowest :
  s ∖ evict_with cap s = list_to_set (take (cap / 2)%nat (sorted s)).
Proof.
  rewrite evict_over. apply set_eq. intros x.
  rewrite elem_of_difference, !elem_of_list_to_set, <- elem_of_sorted.
  pose proof (sorted_NoDup s) as Hnd.
  rewrite <- (take_drop (cap / 2)%nat (sorted s)) in Hnd at 1.
  apply NoDup_app in Hnd as (_ & Hdis & _).
  rewrite <- (take_drop (cap / 2)%nat (sorted s)) at 1.
  rewrite elem_of_app. split.
  - intros [[?|?] ?]; [done | contradiction].
  - intros Hx. split; [by left | by apply Hdis].
Qed.

Lemma evicted_size : size (s ∖ evict_with cap s) = (cap / 2)%nat.
Proof.
  rewrite evicted_lowest, size_list_to_set.
  - rewrite length_take, sorted_length.
    pose proof (Nat.Div0.div_le_upper_bound cap 2 cap). lia.
  - eapply sublist_NoDup; [apply sorted_NoDup | apply sublist_take].
Qed.

Lemma evicted_below_kept x y :
  x ∈ s ∖ evict_with cap s -> y ∈ evict_with cap s -> x < y.
Proof.
  rewrite evicted_lowest, evict_over, !elem_of_list_to_set.
  apply take_lt_drop; [apply sorted_StronglySorted | apply sorted_NoDup].
Qed.
End Eviction.

Lemma evict_within (cap : nat) (s : gset Z) :
  (size s <= cap)%nat -> evict_with cap s = s.
Proof.
  intros H. unfold evict_with.
  destruct (Nat.ltb_spec cap (size s)); [lia | done].
Qed.

Lemma size_add (s : gset Z) (i : Z) : (size (s ∪ {[i]}) <= S (size s))%nat.
Proof.
  rewrite size_union_alt.
  assert (Hsub : ({[i]} ∖ s : gset Z) ⊆ {[i]})
    by (intros x Hx; by apply elem_of_difference in Hx as [? _]).
  apply subseteq_size in Hsub. rewrite size_singleton in Hsub. lia.
Qed.

(** Capacity invariant of the registry, for every capacity of at least 2. *)
Lemma step_bounded (cap : nat) (r : registry) (e : event) :
  (2 <= cap)%nat ->
  (size (_processed_message_ids r) <= cap)%nat ->
  (size (_processed_message_ids (step_with cap r e)) <= cap)%nat.
Proof.
  intros Hcap Hr. destruct e as [i|i]; simpl; [|done].
  unfold admission_with. repeat case_decide; simpl; try done.
  pose proof (size_add (_processed_message_ids r) i) as Hadd.
  destruct (Nat.ltb_spec cap (size (_processed_message_ids r ∪ {[i]}))) as [Hlt|Hle].
  - rewrite evict_size by done.
    assert (1 <= cap / 2)%nat by (apply Nat.div_le_lower_bound; lia). lia.
  - by rewrite evict_within.
Qed.

Lemma run_bounded (cap : nat) (tr : list event) :
  (2 <= cap)%nat ->
  (size (_processed_message_ids (run_with cap tr)) <= cap)%nat.
Proof.
  intros Hcap. unfold run_with.
  induction tr as [|e tr IH] using rev_ind.
  - cbn [foldl empty_registry _processed_message_ids]. rewrite size_empty. lia.
  - rewrite foldl_app. simpl. by apply step_bounded.
Qed.

Lemma admission_fresh (cap : nat) (r : registry) (i : Z) :
  i ∉ _processed_message_ids r -> i ∉ _processing_messages r ->
  admission_with cap i r =
    (Proceed,
     Registry (evict_with cap (_processed_message_ids r ∪ {[i]}))
              (_processing_messages r ∪ {[i]})).
Proof. intros H1 H2. unfold admission_with. by rewrite !decide_False. Qed.

Lemma admission_processed (cap : nat) (r : registry) (i : Z) :
  i ∈ _processed_message_ids r -> admission_with cap i r = (AlreadyProcessed, r).
Proof. intros H. unfold admission_with. by rewrite decide_True. Qed.

Lemma admission_processing (cap : nat) (r : registry) (i : Z) :
  i ∉ _processed_message_ids r -> i ∈ _processing_messages r ->
  admission_with cap i r = (AlreadyProcessing, r).
Proof.
  intros H1 H2. unfold admission_with. by rewrite decide_False, decide_True.
Qed.

(** C1, as the code has it. For an id recorded in neither set the first
    admission proceeds and marks the id in both sets. An immediate second
    admission is turned away and leaves the registry as it is: at the first
    check (AlreadyProcessed) when the id is still in the completed set,
    which is the case whenever the completed set was below its capacity,
    and at the second check (AlreadyProcessing) only when the eviction
    step has dropped the id. After the release, an id still in the
    completed set is turned away as AlreadyProcessed. *)
Theorem admission_twice_then_release (r : registry) (i : Z) :
  i ∉ _processed_message_ids r -> i ∉ _processing_messages r ->
  let r1 := snd (admission i r) in
  fst (admission i r) = Proceed /\
  i ∈ _processing_messages r1 /\
  fst (admission i r1) <> Proceed /\
  snd (admission i r1) = r1 /\
  (i ∈ _processed_message_ids r1 ->
     fst (admission i r1) = AlreadyProcessed /\
     fst (admission i (release i r1)) = AlreadyProcessed) /\
  (i ∉ _processed_message_ids r1 -> fst (admission i r1) = AlreadyProcessing) /\
  ((size (_processed_message_ids r) < _MAX_PROCESSED_IDS)%nat ->
     i ∈ _processed_message_ids r1).
Proof.
  intros H1 H2 r1. unfold admission in *. subst r1.
  rewrite (admission_fresh _ _ _ H1 H2). cbn [fst snd].
  set (r1 := Registry _ _).
  assert (Hin : i ∈ _processing_messages r1) by (apply elem_of_union_r, elem_of_singleton; done).
  split; [done|]. split; [done|].
  destruct (decide (i ∈ _processed_message_ids r1)) as [Hp|Hp].
  - rewrite (admission_processed _ _ _ Hp). cbn [fst snd].
    split; [done|]. split; [done|]. split; [|split; [done|done]].
    intros _. split; [done|]. by rewrite admission_processed.
  - rewrite (admission_processing _ _ _ Hp Hin). cbn [fst snd].
    split; [done|]. split; [done|]. split; [done|]. split; [done|].
    intros Hlt. exfalso. apply Hp. subst r1. cbn [_processed_message_ids].
    rewrite evict_within.
    + apply elem_of_union_r, elem_of_singleton; done.
    + pose proof (size_add (_processed_message_ids r) i). lia.
Qed.

Lemma admission_twice_then_release_witness :
  fst (admission 7 empty_registry) = Proceed /\
  fst (admission 7 (snd (admission 7 empty_registry))) = AlreadyProcessed /\
  fst (admission 7 (release 7 (snd (admission 7 empty_registry)))) = AlreadyProcessed.
Proof.
  pose proof (admission_twice_then_release empty_registry 7
                (not_elem_of_empty 7) (not_elem_of_empty 7)) as H.
  cbv zeta in H. destruct H as (Ha & _ & _ & _ & Hb & _ & Hc).
  assert (Hlt : (size (_processed_message_ids empty_registry) < _MAX_PROCESSED_IDS)%nat)
    by (vm_compute; lia).
  destruct (Hb (Hc Hlt)) as [Hd He]. auto.
Defined.

(** C1 as stated fails: the id is marked as processed by the admission
    itself, so the second admission stops at the first check. *)
Lemma admission_twice_counterexample :
  fst (admission 7 empty_registry) = Proceed /\
  fst (admission 7 (snd (admission 7 empty_registry))) = AlreadyProcessed /\
  fst (admission 7 (snd (admission 7 empty_registry))) <> AlreadyProcessing.
Proof. vm_compute. repeat split; discriminate. Qed.

(** Where the eviction reaches the id that has just come in: with the
    completed set full of higher ids, id 1 is dropped from it while in
    flight, so a duplicate stops at the second check, and once released the
    id is new again. *)
Example evicted_while_in_flight :
  fst (admission 1 full_registry) = Proceed /\
  fst (admission 1 (snd (admission 1 full_registry))) = AlreadyProcessing /\
  fst (admission 1 (release 1 (snd (admission 1 full_registry)))) = Proceed.
Proof. vm_compute. auto. Qed.

(** C2. Whatever the completed set holds, a set above the capacity loses
    exactly its [_MAX_PROCESSED_IDS / 2] lowest ids and nothing else, and a
    set within the capacity is left alone; and in every state the registry
    reaches from the empty one, the set is within the capacity once the
    eviction step of an admission has run. *)
Theorem eviction_bounds :
  (forall s : gset Z,
     ((_MAX_PROCESSED_IDS < size s)%nat ->
        evict s ⊆ s /\
        size (s ∖ evict s) = (_MAX_PROCESSED_IDS / 2)%nat /\
        (forall x y, x ∈ s ∖ evict s -> y ∈ evict s -> x < y) /\
        size (evict s) = (size s - _MAX_PROCESSED_IDS / 2)%nat) /\
     ((size s <= _MAX_PROCESSED_IDS)%nat -> evict s = s)) /\
  (forall (tr : list event) (i : Z),
     (size (evict (_processed_message_ids (run tr) ∪ {[i]}))
      <= _MAX_PROCESSED_IDS)%nat).
Proof.
  split.
  - intros s. split.
    + intros Hover. unfold evict.
      split; [by apply evict_subseteq|].
      split; [by apply evicted_size|].
      split; [intros x y; by apply evicted_below_kept|].
      by apply evict_size.
    + apply evict_within.
  - intros tr i.
    assert (Hcap : (2 <= _MAX_PROCESSED_IDS)%nat) by (unfold _MAX_PROCESSED_IDS; lia).
    pose proof (run_bounded _MAX_PROCESSED_IDS (tr ++ [Admission i]) Hcap) as Hb.
    pose proof (run_bounded _MAX_PROCESSED_IDS tr Hcap) as Hb0.
    fold (run tr) in Hb0.
    pose proof (size_add (_processed_message_ids (run tr)) i) as Hadd.
    unfold evict.
    destruct (Nat.ltb_spec _MAX_PROCESSED_IDS
                (size (_processed_message_ids (run tr) ∪ {[i]}))) as [Hlt|Hle].
    + rewrite evict_size by done.
      assert (1 <= _MAX_PROCESSED_IDS / 2)%nat
        by (apply Nat.div_le_lower_bound; unfold _MAX_PROCESSED_IDS; lia).
      lia.
    + by rewrite evict_within.
Qed.

(** The eviction at work at the real capacity: after ids 1..1001 have been
    come in, the 500 lowest are gone and 501 remain. *)
Lemma eviction_bounds_witness :
  size (ids_1_to 1001 ∖ evict (ids_1_to 1001)) = 500%nat /\
  size (evict (ids_1_to 1001)) = 501%nat /\
  evict (ids_1_to 1000) = ids_1_to 1000.
Proof.
  destruct eviction_bounds as [H _].
  assert (H1 : (_MAX_PROCESSED_IDS < size (ids_1_to 1001))%nat)
    by (vm_compute; lia).
  assert (H2 : (size (ids_1_to 1000) <= _MAX_PROCESSED_IDS)%nat)
    by (vm_compute; lia).
  destruct (proj1 (H _) H1) as (_ & Ha & _ & Hb).
  split; [exact Ha|]. split; [|exact (proj2 (H _) H2)].
  rewrite Hb. vm_compute. reflexivity.
Defined.

End DedupFacts.

(** ** Regular expressions *)

Module RegexFacts.
Import Regex.

Lemma orelse_Some {A} (x y : option A) (a : A) :
  orelse x y = Some a -> x = Some a \/ (x = None /\ y = Some a).
Proof. destruct x; simpl; auto. Qed.

Lemma star_greedy_sound p k s x :
  star_greedy p k s = Some x ->
  exists m rest, s = m ++ rest /\ Forall (fun c => p c = true) m /\ k rest = Some x.
Proof.
  revert x. induction s as [|c s IH]; intros x H; simpl in H.
  - exists [], []. auto.
  - destruct (p c) eqn:Hc.
    + apply orelse_Some in H as [H|[_ H]].
      * destruct (IH _ H) as (m & rest & -> & Hm & Hk).
        exists (c :: m), rest. auto.
      * exists [], (c :: s). auto.
    + exists [], (c :: s). auto.
Qed.

Lemma star_lazy_sound p k s x :
  star_lazy p k s = Some x ->
  exists m rest, s = m ++ rest /\ Forall (fun c => p c = true) m /\ k rest = Some x.
Proof.
  revert x. induction s as [|c s IH]; intros x H; simpl in H.
  - apply orelse_Some in H as [H|[_ H]]; [|done]. exists [], []. auto.
  - apply orelse_Some in H as [H|[_ H]].
    + exists [], (c :: s). auto.
    + destruct (p c) eqn:Hc; [|done].
      destruct (IH _ H) as (m & rest & -> & Hm & Hk).
      exists (c :: m), rest. auto.
Qed.

(** The matcher only reports matches of the pattern's language. *)
Lemma exec_sound r : forall s k x,
  exec r s k = Some x ->
  exists m rest, s = m ++ rest /\ lang r m rest /\ k rest = Some x.
Proof.
  induction r as [|c|p|r1 IH1 r2 IH2|r1 IH1 r2 IH2|p|p| |r IH];
    intros s k x H; simpl in H.
  - exists [], s. simpl. auto.
  - destruct s as [|a s]; [done|]. destruct (N.eqb_spec a c); [subst|done].
    exists [c], s. simpl. auto.
  - destruct s as [|a s]; [done|]. destruct (p a) eqn:Ha; [|done].
    exists [a], s. simpl. eauto.
  - destruct (IH1 _ _ _ H) as (m1 & rest1 & -> & L1 & H2).
    destruct (IH2 _ _ _ H2) as (m2 & rest & -> & L2 & Hk).
    exists (m1 ++ m2), rest. rewrite <- app_assoc. simpl. eauto 8.
  - apply orelse_Some in H as [H|[_ H]].
    + destruct (IH1 _ _ _ H) as (m & rest & ? & ? & ?). exists m, rest. simpl. auto.
    + destruct (IH2 _ _ _ H) as (m & rest & ? & ? & ?). exists m, rest. simpl. auto.
  - by apply star_greedy_sound.
  - by apply star_lazy_sound.
  - destruct s as [|c [|c' s]]; [exists [], []; simpl; auto | | done].
    destruct (N.eqb_spec c 10); [subst|done]. exists [], [10%N]. simpl. auto.
  - destruct (exec r s (fun _ => Some [])) eqn:Hr; [|done].
    destruct (IH _ _ _ Hr) as (m' & rest' & -> & L & _).
    exists [], (m' ++ rest'). simpl. eauto 8.
Qed.

Lemma re_match_sound r s rest :
  re_match r s = Some rest -> exists m, s = m ++ rest /\ lang r m rest.
Proof.
  intros H. destruct (exec_sound _ _ _ _ H) as (m & rest' & -> & L & [= ->]).
  eauto.
Qed.




Lemma skip_while_split p s :
  exists ws, s = ws ++ skip_while p s /\ Forall (fun c => p c = true) ws.
Proof.
  induction s as [|c s (ws & E & Hws)]; simpl; [by exists []|].
  destruct (p c) eqn:Hc.
  - exists (c :: ws). split; [simpl; congruence | by constructor].
  - by exists [].
Qed.



(** One step of [re.sub] at a position where it does not. *)
Lemma re_sub_miss r repl c s :
  re_match r (c :: s) = None ->
  re_sub r repl (c :: s) = c :: re_sub r repl s.
Proof. intros H. unfold re_sub. simpl. by rewrite H. Qed.

Lemma re_match_matched r s rest :
  re_match r s = Some rest -> s = matched s rest ++ rest.
Proof.
  intros H. apply re_match_sound in H as (m & -> & _).
  unfold matched. rewrite length_app.
  replace (length m + length rest - length rest)%nat with (length m) by lia.
  by rewrite take_app_length.
Qed.

(** A search result splits the subject. *)
Lemma re_search_split r s b m a :
  re_search r s = Some (b, m, a) -> s = b ++ m ++ a.
Proof.
  revert b. induction s as [|c s IH]; intros b; simpl.
  - destruct (re_match r []) as [rest|] eqn:H; [|done].
    intros [= <- <- <-]. by apply (re_match_matched r).
  - destruct (re_match r (c :: s)) as [rest|] eqn:H.
    + intros [= <- <- <-]. by apply (re_match_matched r).
    + destruct (re_search r s) as [[[b' m'] a']|]; [|done].
      intros [= <- <- <-]. simpl. f_equal. by apply IH.
Qed.

Lemma star_greedy_any s : star_greedy any_char Some s = Some [].
Proof. induction s as [|c s IH]; simpl; [done|]. by rewrite IH. Qed.

(** What holds of the rest after every anchored match holds of the rest
    after a search. *)
Lemma re_search_rest (P : text -> Prop) r s b m a :
  (forall t rest, re_match r t = Some rest -> P rest) ->
  re_search r s = Some (b, m, a) -> P a.
Proof.
  intros HP. revert b. induction s as [|c s IH]; intros b; simpl.
  - destruct (re_match r []) as [rest|] eqn:H; [|done].
    intros [= <- <- <-]. eauto.
  - destruct (re_match r (c :: s)) as [rest|] eqn:H.
    + intros [= <- <- <-]. eauto.
    + destruct (re_search r s) as [[[b' m'] a']|] eqn:Hs; [|done].
      intros [= <- <- <-]. eauto.
Qed.

Lemma lang_Lit l m rest : lang (Lit l) m rest -> m = l.
Proof.
  revert m. induction l as [|c l IH]; intros m; simpl; [done|].
  intros (m1 & m2 & -> & -> & H). simpl. f_equal. by apply IH.
Qed.

Example search_braces :
  re_search (Seq (Char 123) (Seq (Star any_char) (Char 125))) (str "ab{c}d}e")
  = Some (str "ab", str "{c}d}", str "e").
Proof. reflexivity. Qed.

End RegexFacts.

Module UrlTypeFacts.
Import Regex UrlType RegexFacts.

Lemma lang_head m rest :
  lang instagram_head m rest ->
  m = str "http://instagram.com/" \/ m = str "https://instagram.com/" \/
  m = str "http://www.instagram.com/" \/ m = str "https://www.instagram.com/".
Proof.
  unfold instagram_head.
  intros (m1 & m2 & -> & H1 & m3 & m4 & -> & H3 & m5 & m6 & -> & H5 &
          m7 & m8 & -> & H7 & H8).
  apply lang_Lit in H1, H5, H8. subst m1 m5 m8.
  destruct H3 as [H3|H3], H7 as [H7|H7]; simpl in H3;
    try apply lang_Lit in H7; simpl in H7; subst; auto.
Qed.

Lemma reel_shape url :
  matches INSTAGRAM_REEL_PATTERN url = true ->
  exists h w t,
    url = h ++ w ++ 47%N :: t /\ lang instagram_head h (w ++ 47%N :: t) /\
    (w = str "reel" \/ w = str "reels" \/ w = str "tv").
Proof.
  unfold matches. destruct (re_match _ url) as [rest|] eqn:H; [intros _|done].
  apply re_match_sound in H as (m & -> & h & m2 & -> & Hh & w & m3 & -> & Hw & Ht).
  destruct Ht as (sl & ids & -> & Hsl & _). simpl in Hsl. subst sl.
  exists h, w, (ids ++ rest). split; [|split].
  - by rewrite <- !app_assoc.
  - revert Hh. by rewrite <- !app_assoc.
  - destruct Hw as [Hw|[Hw|Hw]]; apply lang_Lit in Hw; auto.
Qed.

Lemma post_shape url :
  matches INSTAGRAM_POST_PATTERN url = true ->
  exists h t,
    url = h ++ str "p/" ++ t /\ lang instagram_head h (str "p/" ++ t).
Proof.
  unfold matches. destruct (re_match _ url) as [rest|] eqn:H; [intros _|done].
  apply re_match_sound in H as (m & -> & h & m2 & -> & Hh & w & m3 & -> & Hw & Ht).
  destruct Ht as (sl & ids & -> & Hsl & _). simpl in Hsl. subst sl.
  apply lang_Lit in Hw. subst w.
  exists h, (ids ++ rest). split.
  - by rewrite <- !app_assoc.
  - revert Hh. by rewrite <- !app_assoc.
Qed.

(** No URL is matched by both the reel pattern and the post pattern. *)
Lemma reel_post_disjoint url :
  matches INSTAGRAM_REEL_PATTERN url = true ->
  matches INSTAGRAM_POST_PATTERN url = true -> False.
Proof.
  intros Hr Hp.
  destruct (reel_shape _ Hr) as (h1 & w & t1 & -> & Hh1 & Hw).
  destruct (post_shape _ Hp) as (h2 & t2 & E & Hh2).
  apply lang_head in Hh1, Hh2.
  destruct Hh1 as [-> | [-> | [-> | ->]]], Hh2 as [-> | [-> | [-> | ->]]],
    Hw as [-> | [-> | ->]]; vm_compute in E; discriminate E.
Qed.

(** C9. The classifier reads nothing but the URL and the constant patterns,
    so equal URLs get equal kinds; no URL is matched by both the reel
    pattern and the post pattern; the kind is "reel" exactly when the reel
    pattern matches and "post" exactly when the post pattern matches; and a
    URL that none of the three patterns matches is "unknown". *)
Theorem url_type_classification :
  (forall u1 u2 : text, u1 = u2 -> _get_url_type u1 = _get_url_type u2) /\
  (forall url, ~ (matches INSTAGRAM_REEL_PATTERN url = true /\
                  matches INSTAGRAM_POST_PATTERN url = true)) /\
  (forall url, _get_url_type url = "reel"%string <->
               matches INSTAGRAM_REEL_PATTERN url = true) /\
  (forall url, _get_url_type url = "post"%string <->
               matches INSTAGRAM_POST_PATTERN url = true) /\
  (forall url, matches INSTAGRAM_REEL_PATTERN url = false ->
               matches INSTAGRAM_POST_PATTERN url = false ->
               matches INSTAGRAM_SHARE_PATTERN url = false ->
               _get_url_type url = "unknown"%string).
Proof.
  split; [by intros ? ? ->|].
  split; [intros url [Hr Hp]; exact (reel_post_disjoint url Hr Hp)|].
  split; [|split].
  - intros url. unfold _get_url_type.
    destruct (matches INSTAGRAM_REEL_PATTERN url); [done|].
    destruct (matches INSTAGRAM_POST_PATTERN url); [done|].
    destruct (matches INSTAGRAM_SHARE_PATTERN url); done.
  - intros url. pose proof (reel_post_disjoint url) as Hd.
    unfold _get_url_type.
    destruct (matches INSTAGRAM_REEL_PATTERN url).
    + split; [done|]. intros Hp. destruct (Hd eq_refl Hp).
    + destruct (matches INSTAGRAM_POST_PATTERN url); [done|].
      destruct (matches INSTAGRAM_SHARE_PATTERN url); done.
  - intros url Hr Hp Hs. unfold _get_url_type. by rewrite Hr, Hp, Hs.
Qed.

Example reel_url : _get_url_type (str "https://www.instagram.com/reels/Cx_9-a/?x=1") = "reel"%string.
Proof. reflexivity. Qed.
Example post_url : _get_url_type (str "http://instagram.com/p/Cx9") = "post"%string.
Proof. reflexivity. Qed.
Example share_url : _get_url_type (str "https://instagram.com/share/abc") = "share"%string.
Proof. reflexivity. Qed.
Example other_url : _get_url_type (str "https://instagram.com/stories/abc") = "unknown"%string.
Proof. reflexivity. Qed.
Example inner_url : _get_url_type (str " https://instagram.com/p/abc") = "unknown"%string.
Proof. reflexivity. Qed.

End UrlTypeFacts.

(** ** Python values *)

Module PyFacts.
Import Regex Py.

Lemma bind_Return {A B} (m : outcome A) (k : A -> outcome B) (b : B) :
  (x ← m; k x) = Return b -> exists a, m = Return a /\ k a = Return b.
Proof. destruct m as [a|e]; [|done]. intros H. by exists a. Qed.

Lemma get_dict d key dflt :
  get (VDict d) key dflt = Return (default dflt (lookup key d)).
Proof. done. Qed.

Lemma get_Return v key dflt x :
  get v key dflt = Return x -> exists d, v = VDict d.
Proof. destruct v; try done. eauto. Qed.

End PyFacts.

(** ** Place extractor *)

Module ExtractorFacts.
Import Regex Py Extractor RegexFacts PyFacts.

Abbreviation strip_commas := (re_sub TRAILING_COMMA group1).
Abbreviation strip_comments := (re_sub LINE_COMMENT nothing).




























(** ** The parsed document *)

Lemma read_places_found data r :
  read_places data = Return r -> (found r = true <-> places r <> []).
Proof.
  unfold read_places. intros H.
  apply bind_Return in H as (flag & _ & H).
  destruct (truthy flag).
  - simpl in H.
    apply bind_Return in H as (pd & _ & H).
    apply bind_Return in H as (legacy & _ & H).
    apply bind_Return in H as (pd' & _ & H).
    apply bind_Return in H as (items & _ & H).
    apply bind_Return in H as (ps & _ & H).
    apply bind_Return in H as (note & _ & [= <-]). simpl.
    destruct ps; simpl; split; done.
  - simpl in H. apply bind_Return in H as (note & _ & [= <-]). simpl.
    split; done.
Qed.

(** With no place object and no legacy key the flag of the document does
    not matter. *)
Lemma read_places_empty d :
  (lookup (str "places") d = None \/ lookup (str "places") d = Some (VList [])) ->
  lookup (str "place") d = None ->
  read_places (VDict d) = Return (not_found (default VNone (lookup (str "notes") d))).
Proof.
  intros Hp Hl. unfold read_places. rewrite !get_dict. simpl.
  destruct (truthy _); simpl; [|done].
  assert (E : default (VList []) (lookup (str "places") d) = VList [])
    by (destruct Hp as [-> | ->]; done).
  rewrite E. simpl. rewrite Hl. simpl. done.
Qed.

Lemma make_place_dict d : exists p, make_place (VDict d) = Return p.
Proof. unfold make_place. rewrite !get_dict. simpl. eauto. Qed.

Lemma mapM_make_place items :
  Forall (fun v => is_dict v = true) items ->
  exists ps, mapM make_place items = Return ps /\ length ps = length items.
Proof.
  induction 1 as [|v items Hv _ (ps & IH & Hl)]; simpl; [by exists []|].
  destruct v; try done. destruct (make_place_dict d) as (p & ->). simpl.
  rewrite IH. simpl. exists (p :: ps). simpl. auto.
Qed.

(** A document with a true flag and a list of place objects is mapped
    object by object. *)
Lemma read_places_list d items :
  truthy (default (VBool false) (lookup (str "found") d)) = true ->
  lookup (str "places") d = Some (VList items) -> items <> [] ->
  Forall (fun v => is_dict v = true) items ->
  exists r, read_places (VDict d) = Return r /\ found r = true /\
            length (places r) = length items.
Proof.
  intros Hf Hp Hne Hd. unfold read_places. rewrite !get_dict. simpl.
  rewrite Hf. simpl. rewrite Hp. simpl.
  destruct items as [|v items]; [done|]. simpl.
  destruct (mapM_make_place _ Hd) as (ps & E & Hl). simpl in E. rewrite E.
  simpl. eexists. split; [done|]. simpl. rewrite Hl. simpl. done.
Qed.

(** ** The parser *)

Lemma found_anchor_to_end s b m a :
  re_search FOUND_ANCHOR s = Some (b, m, a) -> s = b ++ m /\ a = [].
Proof.
  intros H.
  assert (Ha : a = []).
  { apply (re_search_rest (fun x => x = []) FOUND_ANCHOR s b m a); [|exact H].
    intros t rest Ht.
    unfold re_match, FOUND_ANCHOR in Ht.
    change (exec (Seq (Char 123) (Seq (Star is_space)
                   (Lit (34%N :: str "found" ++ [34%N])))) t
              (fun s3 => star_greedy any_char Some s3) = Some rest) in Ht.
    apply exec_sound in Ht as (? & rest' & _ & _ & Ht).
    rewrite star_greedy_any in Ht. congruence. }
  apply re_search_split in H. subst a. by rewrite app_nil_r in H.
Qed.

Section ParserFacts.
Variable json_loads : text -> outcome value.
Variable str_exn : exn -> text.

Abbreviation parse := (_parse_response json_loads str_exn).

Lemma second_attempt_found json_str e r :
  snd (second_attempt json_loads str_exn json_str e) = Return r ->
  (found r = true <-> places r <> []).
Proof.
  unfold second_attempt.
  destruct (re_search FOUND_ANCHOR json_str) as [[[b m] a]|]; simpl.
  - destruct (json_loads (close_braces m)) as [data|[]]; try done.
    + apply read_places_found.
    + by intros [= <-].
  - by intros [= <-].
Qed.

Lemma parse_found response_text r :
  snd (parse response_text) = Return r ->
  (found r = true <-> places r <> []).
Proof.
  unfold _parse_response.
  destruct (re_search BRACES _) as [[[b m] a]|]; simpl; [|by intros [= <-]].
  destruct (json_loads (repair m)) as [data|e] eqn:Hl; simpl.
  - apply read_places_found.
  - destruct e; try done.
    pose proof (second_attempt_found (repair m) (JSONDecodeError detail) r) as H.
    destruct (second_attempt _ _ _ _) as [calls res]. exact H.
Qed.

(** What the parser does once the first parse has succeeded. *)
Lemma parse_first_ok response_text b span a data :
  re_search BRACES (strip_fences response_text) = Some (b, span, a) ->
  json_loads (repair span) = Return data ->
  parse response_text = ([repair span], read_places data).
Proof. intros Hs Hl. unfold _parse_response. by rewrite Hs, Hl. Qed.

(** C10. Whatever the parser returns has [found] set exactly when it holds
    a place, and so has every result of [extract]; a parsed document with no
    place object and no legacy key gives a not-found result whatever its
    flag says; a parsed document with a true flag and a non-empty list of
    place objects gives a found result with one place per object. *)
Theorem found_iff_places :
  (forall response_text r,
     snd (parse response_text) = Return r ->
     (found r = true <-> places r <> [])) /\
  (forall reply,
     found (extract json_loads str_exn reply) = true <->
     places (extract json_loads str_exn reply) <> []) /\
  (forall response_text b span a d,
     re_search BRACES (strip_fences response_text) = Some (b, span, a) ->
     json_loads (repair span) = Return (VDict d) ->
     (lookup (str "places") d = None \/
      lookup (str "places") d = Some (VList [])) ->
     lookup (str "place") d = None ->
     exists r, snd (parse response_text) = Return r /\
               found r = false /\ places r = []) /\
  (forall response_text b span a d items,
     re_search BRACES (strip_fences response_text) = Some (b, span, a) ->
     json_loads (repair span) = Return (VDict d) ->
     truthy (default (VBool false) (lookup (str "found") d)) = true ->
     lookup (str "places") d = Some (VList items) -> items <> [] ->
     Forall (fun v => is_dict v = true) items ->
     exists r, snd (parse response_text) = Return r /\
               found r = true /\ length (places r) = length items).
Proof.
  split; [exact parse_found|]. split; [|split].
  - intros [result_text|e]; simpl; [|done].
    destruct (snd (parse result_text)) as [r|e] eqn:H; [|done].
    by apply (parse_found result_text).
  - intros response_text b span a d Hs Hl Hp Hn.
    rewrite (parse_first_ok _ _ _ _ _ Hs Hl). simpl.
    rewrite (read_places_empty d Hp Hn). eauto.
  - intros response_text b span a d items Hs Hl Hf Hp Hne Hd.
    rewrite (parse_first_ok _ _ _ _ _ Hs Hl). simpl.
    by apply read_places_list.
Qed.

(** C7, as the code has it. When the first parse of the repaired span fails
    with a decode error, what happens next depends on whether the span holds
    an opening brace followed, after optional whitespace, by the "found" key.
    If it does, the text from the first such brace to the end, closed with
    the missing braces, is parsed, and that is the only other parse: its
    decode error ends the run with a not-found result whose note carries the
    error, its document is read like any other. If it does not, nothing is
    parsed again and the result is not-found with the first error in its
    note. In both failing cases [extract] returns that result. *)
Theorem parse_failure_fallback response_text b span a d1 :
  re_search BRACES (strip_fences response_text) = Some (b, span, a) ->
  json_loads (repair span) = Raise (JSONDecodeError d1) ->
  match re_search FOUND_ANCHOR (repair span) with
  | Some (before, anchored, _) =>
      repair span = before ++ anchored /\
      fst (parse response_text) = [repair span; close_braces anchored] /\
      (forall d2,
         json_loads (close_braces anchored) = Raise (JSONDecodeError d2) ->
         snd (parse response_text)
           = Return (not_found (VStr (msg_parse_failed
                                        ++ str_exn (JSONDecodeError d2)))) /\
         extract json_loads str_exn (Return response_text)
           = not_found (VStr (msg_parse_failed ++ str_exn (JSONDecodeError d2)))) /\
      (forall data,
         json_loads (close_braces anchored) = Return data ->
         snd (parse response_text) = read_places data)
  | None =>
      fst (parse response_text) = [repair span] /\
      snd (parse response_text)
        = Return (not_found (VStr (msg_parse_failed
                                     ++ str_exn (JSONDecodeError d1)))) /\
      extract json_loads str_exn (Return response_text)
        = not_found (VStr (msg_parse_failed ++ str_exn (JSONDecodeError d1)))
  end.
Proof.
  intros Hs Hl.
  assert (E : parse response_text =
              (repair span
                 :: fst (second_attempt json_loads str_exn (repair span)
                           (JSONDecodeError d1)),
               snd (second_attempt json_loads str_exn (repair span)
                      (JSONDecodeError d1)))).
  { unfold _parse_response. rewrite Hs, Hl.
    by destruct (second_attempt _ _ _ _). }
  unfold extract. rewrite E. unfold second_attempt.
  destruct (re_search FOUND_ANCHOR (repair span)) as [[[before anchored] after]|] eqn:Ha.
  - apply found_anchor_to_end in Ha as [Hsplit _].
    split; [done|]. split; [done|]. cbn [fst snd]. split.
    + intros d2 ->. done.
    + intros data ->. done.
  - done.
Qed.

End ParserFacts.

Lemma found_iff_places_witness :
  (exists r, snd (_parse_response (loads_table [(reply_no_places, doc_no_places)])
                    str_detail reply_no_places) = Return r /\
             found r = false /\ places r = []) /\
  (exists r, snd (_parse_response
                    (loads_table [(reply_one_place_repaired, doc_one_place)])
                    str_detail reply_one_place) = Return r /\
             found r = true /\ length (places r) = 1%nat).
Proof.
  split.
  - destruct (found_iff_places (loads_table [(reply_no_places, doc_no_places)])
                str_detail) as (_ & _ & H & _).
    eapply (H reply_no_places [] reply_no_places []); try reflexivity.
    by right.
  - destruct (found_iff_places
                (loads_table [(reply_one_place_repaired, doc_one_place)])
                str_detail) as (_ & _ & _ & H).
    apply (H reply_one_place [] reply_one_place_span [10%N]
             [(str "found", VBool true);
              (str "places", VList [VDict [(str "name", VStr (str "A"))]])]
             [VDict [(str "name", VStr (str "A"))]]);
      try reflexivity; [done | by repeat constructor].
Defined.

Lemma parse_failure_fallback_witness :
  fst (_parse_response (loads_table []) str_detail reply_truncated)
    = [str "{" ++ quoted "found" ++ str ": true, " ++ quoted "places"
       ++ str ": [{" ++ quoted "name" ++ str ": " ++ quoted "A" ++ str "}";
       str "{" ++ quoted "found" ++ str ": true, " ++ quoted "places"
       ++ str ": [{" ++ quoted "name" ++ str ": " ++ quoted "A" ++ str "}}"] /\
  extract (loads_table []) str_detail (Return reply_truncated)
    = not_found (VStr (msg_parse_failed ++ str "Expecting value")).
Proof.
  assert (Hs : re_search BRACES (strip_fences reply_truncated)
               = Some (str "Sure! ", reply_truncated_span, []))
    by (vm_compute; reflexivity).
  assert (Hl : loads_table [] (repair reply_truncated_span)
               = Raise (JSONDecodeError (str "Expecting value")))
    by (vm_compute; reflexivity).
  pose proof (parse_failure_fallback (loads_table []) str_detail
                reply_truncated _ _ _ _ Hs Hl) as H.
  assert (Ha : re_search FOUND_ANCHOR (repair reply_truncated_span)
               = Some ([], reply_truncated_span, []))
    by (vm_compute; reflexivity).
  rewrite Ha in H. destruct H as (_ & Hcalls & Hfail & _).
  assert (Hl2 : loads_table [] (close_braces reply_truncated_span)
                = Raise (JSONDecodeError (str "Expecting value")))
    by (vm_compute; reflexivity).
  destruct (Hfail _ Hl2) as [_ He].
  split; [|exact He].
  rewrite Hcalls. vm_compute. reflexivity.
Defined.

(** C7 as stated fails: here the "found" key is in the span but not right
    after an opening brace, and the parser gives up after the first parse. *)
Lemma no_retry_without_anchor :
  _parse_response (loads_table []) str_detail reply_no_anchor
  = ([reply_no_anchor],
     Return (not_found (VStr (msg_parse_failed ++ str "Expecting value")))) /\
  contains (quoted "found") reply_no_anchor = true /\
  length (fst (_parse_response (loads_table []) str_detail reply_no_anchor))
    <> 2%nat.
Proof. vm_compute. repeat split; discriminate. Qed.

Example repair_trailing_comma :
  repair (str "{[1, 2, ], }") = str "{[1, 2]}".
Proof. reflexivity. Qed.

Example repair_comment :
  repair (str "{1 // one" ++ 10%N :: str "}// end") = str "{1 " ++ 10%N :: str "}".
Proof. reflexivity. Qed.

Example repair_comment_then_comma :
  repair (str "[1, // one" ++ 10%N :: str "]") = str "[1, " ++ 10%N :: str "]"
  /\ repair (str "[1, " ++ 10%N :: str "]") = str "[1]".
Proof. split; reflexivity. Qed.

Example repair_two_commas :
  repair (str "[1,,]") = str "[1,]" /\ repair (str "[1,]") = str "[1]".
Proof. split; reflexivity. Qed.

Example strip_json_fence :
  strip_fences (backticks ++ str "json" ++ 10%N :: str "{}" ++ 10%N :: backticks ++ [10%N])
  = str "{}" ++ [10%N].
Proof. reflexivity. Qed.

End ExtractorFacts.

(** ** Thread-node search *)

Module GraphFacts.
Import Regex Py Graph GraphPaths.

Lemma first_hit_total search vals :
  (forall v, exists r, search v = Some r) ->
  exists r, first_hit search vals = Some r.
Proof.
  intros Hs. induction vals as [|v vals IH]; simpl; [eauto|].
  destruct (Hs v) as ([[r|]|e] & ->); eauto.
Qed.

Lemma first_hit_mono (s1 s2 : loc -> option (outcome (option loc))) vals r :
  (forall v r', s1 v = Some r' -> s2 v = Some r') ->
  first_hit s1 vals = Some r -> first_hit s2 vals = Some r.
Proof.
  intros Hs. induction vals as [|v vals IH]; simpl; [done|].
  destruct (s1 v) as [[[x|]|e]|] eqn:E; try done;
    rewrite (Hs _ _ E); auto.
Qed.

Lemma first_hit_ext (s1 s2 : loc -> option (outcome (option loc))) vals :
  (forall v, s1 v = s2 v) -> first_hit s1 vals = first_hit s2 vals.
Proof.
  intros Hs. induction vals as [|v vals IH]; simpl; [done|].
  by rewrite Hs, IH.
Qed.

(** A search that ends without a hit has looked into every value. *)
Lemma first_hit_none search vals v :
  first_hit search vals = Some (Return None) -> v ∈ vals ->
  search v = Some (Return None).
Proof.
  induction vals as [|w vals IH]; simpl; intros H Hv.
  - by apply elem_of_nil in Hv.
  - destruct (search w) as [[[x|]|e]|] eqn:E; try done.
    apply elem_of_cons in Hv as [->|Hv]; auto.
Qed.

(** Enough fuel for a call at [depth]: one unit for the call itself and one
    for each level down to depth 21, where the guard answers. *)
Lemma find_total fuel : forall h obj depth,
  (1 <= fuel)%nat -> 22 - depth <= Z.of_nat fuel ->
  exists r, find fuel h obj depth = Some r.
Proof.
  induction fuel as [|fuel IH]; intros h obj depth H1 H2; [lia|]. simpl.
  destruct (Z.ltb_spec 20 depth) as [Hd|Hd]; [eauto|].
  assert (Hrec : forall v, exists r, find fuel h v (depth + 1) = Some r)
    by (intros v; apply IH; lia).
  destruct (deref h obj); eauto.
  - by apply first_hit_total.
  - destruct (is_thread_node h entries) as [[|]|e]; eauto.
    by apply first_hit_total.
Qed.

Lemma find_mono fuel : forall fuel' h obj depth r,
  (fuel <= fuel')%nat ->
  find fuel h obj depth = Some r -> find fuel' h obj depth = Some r.
Proof.
  induction fuel as [|fuel IH]; intros fuel' h obj depth r Hle; [done|].
  destruct fuel' as [|fuel']; [lia|]. simpl.
  destruct (20 <? depth); [done|].
  assert (Hrec : forall v r', find fuel h v (depth + 1) = Some r' ->
                              find fuel' h v (depth + 1) = Some r')
    by (intros v r'; apply IH; lia).
  destruct (deref h obj); try done.
  - by apply first_hit_mono.
  - destruct (is_thread_node h entries) as [[|]|e]; try done.
    by apply first_hit_mono.
Qed.

Lemma deref_truncate h l : deref (truncate <$> h) l = truncate (deref h l).
Proof. unfold deref. rewrite lookup_fmap. by destruct (h !! l). Qed.

Lemma is_thread_node_truncate h entries :
  is_thread_node (truncate <$> h) entries = is_thread_node h entries.
Proof.
  unfold is_thread_node.
  destruct (entry (str "thread_items") entries) as [items|]; [|done].
  rewrite deref_truncate.
  destruct (deref h items) as [| | | | |[|item0 rest]|]; try done. simpl.
  rewrite deref_truncate.
  destruct (deref h item0) as [| | | | | |fields]; try done. simpl.
  destruct (entry (str "post") fields) as [post|]; [|done].
  rewrite deref_truncate. by destruct (deref h post).
Qed.

(** What lies beyond the tenth element of a list plays no part. *)
Lemma find_truncate fuel : forall h obj depth,
  find fuel (truncate <$> h) obj depth = find fuel h obj depth.
Proof.
  induction fuel as [|fuel IH]; intros h obj depth; [done|]. simpl.
  destruct (20 <? depth); [done|].
  rewrite deref_truncate.
  destruct (deref h obj); simpl; try done.
  - rewrite take_take. apply first_hit_ext. intros v. apply IH.
  - rewrite is_thread_node_truncate.
    destruct (is_thread_node h entries) as [[|]|e]; try done.
    apply first_hit_ext. intros v. apply IH.
Qed.

(** The search over the values stops at the first value that yields a
    node, and yields that node. *)
Lemma first_hit_first search pre v post x :
  Forall (fun w => search w = Some (Return None)) pre ->
  search v = Some (Return (Some x)) ->
  first_hit search (pre ++ v :: post) = Some (Return (Some x)).
Proof.
  intros Hpre Hv. induction Hpre as [|w pre Hw _ IH]; simpl.
  - by rewrite Hv.
  - by rewrite Hw.
Qed.

Lemma first_hit_split search vals x :
  first_hit search vals = Some (Return (Some x)) ->
  exists pre v post,
    vals = pre ++ v :: post /\
    Forall (fun w => search w = Some (Return None)) pre /\
    search v = Some (Return (Some x)).
Proof.
  induction vals as [|w vals IH]; simpl; [done|].
  destruct (search w) as [[[y|]|e]|] eqn:E; try done.
  - intros [= ->]. exists [], w, vals. by repeat split.
  - intros H. destruct (IH H) as (pre & v & post & -> & Hpre & Hv).
    exists (w :: pre), v, post. split; [done|]. split; [by constructor|done].
Qed.

(** A search that yields nothing has met no thread node among the objects
    within its reach. *)
Lemma find_none_exhaustive fuel : forall h obj depth,
  find fuel h obj depth = Some (Return None) ->
  forall n node entries,
    reaches h n obj node -> depth + Z.of_nat n <= 20 ->
    deref h node = ODict entries -> is_thread_node h entries <> Return true.
Proof.
  induction fuel as [|fuel IH]; intros h obj depth Hf n node entries Hr Hn Ho;
    [done|].
  simpl in Hf. destruct (Z.ltb_spec 20 depth) as [Hd|Hd]; [lia|].
  destruct n as [|n]; simpl in Hr.
  - subst node. rewrite Ho in Hf. intros Ht. by rewrite Ht in Hf.
  - destruct Hr as (c & Hc & Hr). unfold children in Hc.
    assert (Hchild : find fuel h c (depth + 1) = Some (Return None)).
    { destruct (deref h obj) as [| | | | |items|es]; try by apply elem_of_nil in Hc.
      - by apply (first_hit_none _ _ _ Hf).
      - destruct (is_thread_node h es) as [[|]|e]; try done.
        by apply (first_hit_none _ _ _ Hf). }
    apply (IH _ _ _ Hchild n node entries Hr); [lia | done].
Qed.

(** C6. On every store, cyclic or not, the search started at depth 0
    returns, with calls nested at most 22 deep; a call deeper than 20 returns
    at once; a dict that is not itself the node and yields nothing has had
    every one of its values searched one level down, a list that yields
    nothing its first ten elements; and the elements of a list after the
    tenth have no influence on any result. A dict that passes the test is
    returned itself; a dict that does not yields a node exactly when one of
    its values does, searched one level down, and then the node of the first
    such value in order; a list yields a node exactly when one of its first
    ten elements does, and then the node of the first such element; and a
    search that yields nothing has met no dict that passes the test among
    the objects reached through dict values and the first ten elements of
    lists down to depth 20. *)
Theorem find_thread_node_terminates :
  (forall h obj, exists r,
     forall fuel, (22 <= fuel)%nat -> find fuel h obj 0 = Some r) /\
  (forall fuel h obj depth,
     20 < depth -> find (S fuel) h obj depth = Some (Return None)) /\
  (forall fuel h obj depth entries v,
     depth <= 20 -> deref h obj = ODict entries ->
     find (S fuel) h obj depth = Some (Return None) ->
     v ∈ map snd entries -> find fuel h v (depth + 1) = Some (Return None)) /\
  (forall fuel h obj depth items v,
     depth <= 20 -> deref h obj = OList items ->
     find (S fuel) h obj depth = Some (Return None) ->
     v ∈ take 10 items -> find fuel h v (depth + 1) = Some (Return None)) /\
  (forall fuel h obj depth,
     find fuel (truncate <$> h) obj depth = find fuel h obj depth) /\
  (forall fuel h obj depth entries,
     depth <= 20 -> deref h obj = ODict entries ->
     is_thread_node h entries = Return true ->
     find (S fuel) h obj depth = Some (Return (Some obj))) /\
  (forall fuel h obj depth entries node,
     depth <= 20 -> deref h obj = ODict entries ->
     is_thread_node h entries = Return false ->
     (find (S fuel) h obj depth = Some (Return (Some node)) <->
      exists pre v post,
        map snd entries = pre ++ v :: post /\
        Forall (fun w => find fuel h w (depth + 1) = Some (Return None)) pre /\
        find fuel h v (depth + 1) = Some (Return (Some node)))) /\
  (forall fuel h obj depth items node,
     depth <= 20 -> deref h obj = OList items ->
     (find (S fuel) h obj depth = Some (Return (Some node)) <->
      exists pre v post,
        take 10 items = pre ++ v :: post /\
        Forall (fun w => find fuel h w (depth + 1) = Some (Return None)) pre /\
        find fuel h v (depth + 1) = Some (Return (Some node)))) /\
  (forall fuel h obj depth,
     find fuel h obj depth = Some (Return None) ->
     forall n node entries,
       reaches h n obj node -> depth + Z.of_nat n <= 20 ->
       deref h node = ODict entries ->
       is_thread_node h entries <> Return true).
Proof.
  split; [|split; [|split; [|split; [|split; [|split; [|split; [|split]]]]]]].
  - intros h obj. destruct (find_total 22 h obj 0) as [r Hr]; [lia..|].
    exists r. intros fuel Hf. by apply (find_mono 22).
  - intros fuel h obj depth Hd. simpl.
    by rewrite (proj2 (Z.ltb_lt 20 depth) Hd).
  - intros fuel h obj depth entries v Hd Ho. simpl.
    rewrite (proj2 (Z.ltb_ge 20 depth) Hd), Ho.
    destruct (is_thread_node h entries) as [[|]|e]; try done.
    intros H Hv. by apply (first_hit_none _ _ _ H).
  - intros fuel h obj depth items v Hd Ho. simpl.
    rewrite (proj2 (Z.ltb_ge 20 depth) Hd), Ho.
    intros H Hv. by apply (first_hit_none _ _ _ H).
  - intros fuel h obj depth. apply find_truncate.
  - intros fuel h obj depth entries Hd Ho Ht. simpl.
    by rewrite (proj2 (Z.ltb_ge 20 depth) Hd), Ho, Ht.
  - intros fuel h obj depth entries node Hd Ho Ht. simpl.
    rewrite (proj2 (Z.ltb_ge 20 depth) Hd), Ho, Ht. split.
    + apply first_hit_split.
    + intros (pre & v & post & -> & Hpre & Hv). by apply first_hit_first.
  - intros fuel h obj depth items node Hd Ho. simpl.
    rewrite (proj2 (Z.ltb_ge 20 depth) Hd), Ho. split.
    + apply first_hit_split.
    + intros (pre & v & post & -> & Hpre & Hv). by apply first_hit_first.
  - intros fuel h obj depth. apply find_none_exhaustive.
Qed.

(** On the sample store the node is the second element of a list that is
    the value of the start dict, and the first element of that list leads
    back to the start. Two levels above the depth bound the search of the
    dict yields the node because the search of its value does, and that one
    because the first element yields nothing and the second is the node. *)
Lemma find_thread_node_terminates_witness :
  find 4 thread_store 0%nat 18 = Some (Return (Some 2%nat)) /\
  find 3 thread_store 1%nat 19 = Some (Return (Some 2%nat)) /\
  find 2 thread_store 2%nat 20 = Some (Return (Some 2%nat)).
Proof.
  destruct find_thread_node_terminates
    as (_ & _ & _ & _ & _ & Hself & Hdict & Hlist & _).
  assert (H2 : find 2 thread_store 2%nat 20 = Some (Return (Some 2%nat))).
  { apply (Hself 1%nat thread_store 2%nat 20 [(str "thread_items", 3%nat)]);
      [lia | reflexivity | reflexivity]. }
  assert (H1 : find 3 thread_store 1%nat 19 = Some (Return (Some 2%nat))).
  { apply (Hlist 2%nat thread_store 1%nat 19 [0%nat; 2%nat] 2%nat);
      [lia | reflexivity |].
    exists [0%nat], 2%nat, []. split; [reflexivity|]. split; [|exact H2].
    constructor; [|constructor]. vm_compute. reflexivity. }
  split; [|split; [exact H1 | exact H2]].
  apply (Hdict 3%nat thread_store 0%nat 18 [(str "next", 1%nat)] 2%nat);
    [lia | reflexivity | reflexivity |].
  exists [], 1%nat, []. split; [reflexivity|]. split; [constructor | exact H1].
Defined.

Example find_cyclic : find 22 cyclic_store 0%nat 0 = Some (Return None).
Proof. vm_compute. reflexivity. Qed.

Example find_cyclic_short : find 21 cyclic_store 0%nat 0 = None.
Proof. vm_compute. reflexivity. Qed.

Example find_thread : find 22 thread_store 0%nat 0 = Some (Return (Some 2%nat)).
Proof. vm_compute. reflexivity. Qed.

End GraphFacts.

(** ** Thread aggregation *)

Module ThreadsFacts.
Import Regex Py Threads PyFacts.

Lemma eq_str_refl (A : text) : eq (VStr A) (VStr A) = true.
Proof. simpl. unfold text_eqb. by apply bool_decide_eq_true. Qed.

Lemma eq_str_neq (A B : text) : A <> B -> eq (VStr B) (VStr A) = false.
Proof.
  intros H. simpl. unfold text_eqb. apply bool_decide_eq_false. congruence.
Qed.

(** The first loop keeps a sublist, and what it keeps it keeps again. *)
Lemma same_author_kept a items : forall kept,
  same_author a items = Return kept ->
  kept `sublist_of` items /\
  Forall (fun item => exists u, username_of item = Return u /\ eq u a = true) kept /\
  same_author a kept = Return kept.
Proof.
  induction items as [|item items IH]; intros kept; simpl.
  - intros [= <-]. repeat split; constructor.
  - intros H. apply bind_Return in H as (u & Hu & H).
    apply bind_Return in H as (kept' & Hk & [= <-]).
    destruct (IH _ Hk) as (Hs & Hf & Hi).
    destruct (eq u a) eqn:E.
    + split; [by constructor|]. split; [constructor; eauto|].
      simpl. rewrite Hu. simpl. rewrite Hi. simpl. by rewrite E.
    + split; [by constructor|]. done.
Qed.

Section ThreadsFormatting.
Variable format_value : value -> text.

Abbreviation extract_node := (_extract_from_thread_node format_value).

(** The extraction on a node with a non-empty list of items, once the
    username of the first item is known. *)
Lemma extract_node_items item0 items a rest :
  username_of item0 = Return a ->
  extract_node (VDict ((str "thread_items", VList (item0 :: items)) :: rest)) =
    (first_post ← get item0 (str "post") (VDict []);
     kept ← same_author a (item0 :: items);
     aggregate format_value first_post a kept).
Proof.
  unfold username_of, _extract_from_thread_node. intros H.
  change (get (VDict ((str "thread_items", VList (item0 :: items)) :: rest))
              (str "thread_items") (VList []))
    with (Return (A:=value) (VList (item0 :: items))).
  cbn [mbind outcome_bind bind truthy negb first iter].
  change (negb (bool_decide (length (item0 :: items) = 0%nat))) with true.
  cbn [negb].
  destruct (get item0 (str "post") (VDict [])) as [post|e]; [|done].
  cbn [mbind outcome_bind bind] in *.
  destruct (get post (str "user") (VDict [])) as [user|e]; [|done].
  cbn [mbind outcome_bind bind] in *.
  destruct (is_dict user); rewrite H; done.
Qed.

(** C5. Of four items by A, A, B and A, with B another name than A, the
    first, second and fourth are kept, in this order, and the result is
    computed from these three alone. In general the kept items are a
    sublist of the thread's items, each with the username of the first
    item, and the result is the one of the thread with only the kept items:
    what the other items hold has no part in it. *)
Theorem author_filtering :
  (forall (A B : text) i1 i2 i3 i4 rest,
     A <> B ->
     username_of i1 = Return (VStr A) -> username_of i2 = Return (VStr A) ->
     username_of i3 = Return (VStr B) -> username_of i4 = Return (VStr A) ->
     same_author (VStr A) [i1; i2; i3; i4] = Return [i1; i2; i4] /\
     exists first_post,
       get i1 (str "post") (VDict []) = Return first_post /\
       extract_node (VDict ((str "thread_items", VList [i1; i2; i3; i4]) :: rest))
       = aggregate format_value first_post (VStr A) [i1; i2; i4]) /\
  (forall item0 items a kept rest,
     username_of item0 = Return a -> eq a a = true ->
     same_author a (item0 :: items) = Return kept ->
     kept `sublist_of` item0 :: items /\
     Forall (fun item => exists u, username_of item = Return u /\ eq u a = true)
            kept /\
     extract_node (VDict ((str "thread_items", VList (item0 :: items)) :: rest))
     = extract_node (VDict ((str "thread_items", VList kept) :: rest))).
Proof.
  split.
  - intros A B i1 i2 i3 i4 rest Hne H1 H2 H3 H4.
    assert (Hk : same_author (VStr A) [i1; i2; i3; i4] = Return [i1; i2; i4]).
    { simpl. rewrite H1, H2, H3, H4. simpl.
      unfold text_eqb. rewrite bool_decide_eq_true_2 by done.
      rewrite bool_decide_eq_false_2 by congruence. done. }
    split; [done|].
    rewrite (extract_node_items _ _ _ _ H1), Hk.
    pose proof H1 as H. unfold username_of in H.
    apply bind_Return in H as (post & Hp & _).
    exists post. split; [done|]. by rewrite Hp.
  - intros item0 items a kept rest H0 Ha Hk.
    destruct (same_author_kept _ _ _ Hk) as (Hs & Hf & Hi).
    split; [done|]. split; [done|].
    rewrite (extract_node_items _ _ _ _ H0), Hk.
    assert (Hhead : exists kept', kept = item0 :: kept').
    { simpl in Hk. rewrite H0 in Hk. simpl in Hk.
      apply bind_Return in Hk as (kept' & _ & [= <-]).
      rewrite Ha. eauto. }
    destruct Hhead as (kept' & ->).
    by rewrite (extract_node_items _ _ _ _ H0), Hi.
Qed.

End ThreadsFormatting.

Lemma author_filtering_witness :
  same_author (VStr (str "ann"))
    [thread_item "ann" "one" "u1"; thread_item "ann" "two" "u2";
     thread_item "bob" "no" "u3"; thread_item "ann" "three" "u4"]
  = Return [thread_item "ann" "one" "u1"; thread_item "ann" "two" "u2";
            thread_item "ann" "three" "u4"] /\
  _extract_from_thread_node format_str
    (thread_of [thread_item "ann" "one" "u1"; thread_item "ann" "two" "u2";
                thread_item "bob" "no" "u3"; thread_item "ann" "three" "u4"])
  = _extract_from_thread_node format_str
      (thread_of [thread_item "ann" "one" "u1"; thread_item "ann" "two" "u2";
                  thread_item "ann" "three" "u4"]).
Proof.
  destruct (author_filtering format_str) as [H1 H2].
  split.
  - apply (H1 (str "ann") (str "bob") _ _ _ _ []); [by vm_compute|reflexivity..].
  - apply (H2 (thread_item "ann" "one" "u1") _ (VStr (str "ann")) _ []);
      [reflexivity | reflexivity | by vm_compute].
Defined.


Example four_items :
  _extract_from_thread_node format_str
    (thread_of [thread_item "ann" "one" "u1"; thread_item "ann" "two" "u2";
                thread_item "bob" "no" "u3"; thread_item "ann" "three" "u4"])
  = Return
      {| media_type := VInt 1;
         caption := VStr (str "[1/3] one" ++ separator ++ str "[2/3] two"
                          ++ separator ++ str "[3/3] three");
         description := VStr (str "[1/3] one" ++ separator ++ str "[2/3] two"
                              ++ separator ++ str "[3/3] three");
         author := VStr (str "ann");
         image_urls := [VStr (str "u1"); VStr (str "u2"); VStr (str "u4")];
         video_urls := []; carousel_items := []; thread_items_count := 3 |}.
Proof. vm_compute. reflexivity. Qed.

End ThreadsFacts.

(** ** Image download *)

Module DownloaderFacts.
Import Regex Py Downloader.

Lemma download_each_length client_get post_dir urls : forall idx,
  (length (download_each client_get post_dir idx urls) <= length urls)%nat.
Proof.
  induction urls as [|u urls IH]; intros idx; simpl; [lia|].
  destruct (client_get idx u); simpl; specialize (IH (S idx)); lia.
Qed.








Example thread_images_capped :
  _download_thread_images (fun _ _ => Return (str "image/png")) (str "t")
    (map (fun n => VInt (Z.of_nat n)) (seq 0 12))
  = map (fun n => str "t/image_" ++ dec2 n ++ str ".png") (seq 1 10).
Proof. vm_compute. reflexivity. Qed.

End DownloaderFacts.

(** ** Search fan-out and fan-in *)

Module SearchFacts.
Import Regex Py Search PyFacts.

Lemma collect_Some s rs : collect s = Some rs -> s = map Some rs.
Proof.
  revert rs. induction s as [|[r|] s IH]; intros rs; simpl; try done.
  - by intros [= <-].
  - destruct (collect s) as [rs'|]; [|done]. intros [= <-]. simpl.
    f_equal. by apply IH.
Qed.

Lemma collect_full s :
  (forall i, (i < length s)%nat -> exists r, s !! i = Some (Some r)) ->
  exists rs, collect s = Some rs.
Proof.
  induction s as [|o s IH]; intros H; simpl; [eauto|].
  destruct (H 0%nat) as [r Hr]; [simpl; lia|]. simpl in Hr.
  injection Hr as ->.
  destruct IH as [rs ->]; [|eauto].
  intros i Hi. apply (H (S i)). simpl. lia.
Qed.

Section FanIn.
Variable search_place : nat -> value -> outcome PlaceSearchResult.
Variable format_value : value -> text.
Variable candidates : list PlaceInfo.

Abbreviation task := (search_place_with_info search_place format_value).
Abbreviation run := (run_tasks search_place format_value candidates).

(** A task hands back the candidate it was started with. *)
Lemma task_pairs t p pr : task t p = Return pr -> fst pr = p.
Proof.
  unfold search_place_with_info. intros H.
  apply bind_Return in H as (q & _ & H).
  apply bind_Return in H as (r & _ & [= <-]). done.
Qed.

Lemma complete_Return t i s s' :
  complete search_place format_value candidates t i s = Return s' ->
  length s' = length s /\
  (forall j, j <> i -> s' !! j = s !! j) /\
  (forall p, candidates !! i = Some p -> (i < length s)%nat ->
     exists r, task t p = Return (p, r) /\ s' !! i = Some (Some (p, r))).
Proof.
  unfold complete. destruct (candidates !! i) as [p|] eqn:Hp.
  - intros H. apply bind_Return in H as ([p' r] & Hr & [= <-]).
    pose proof (task_pairs _ _ _ Hr) as Hfst. simpl in Hfst. subst p'.
    split; [by rewrite length_insert|]. split.
    + intros j Hj. by rewrite list_lookup_insert_ne.
    + intros q [= <-] Hi. exists r. split; [done|].
      by rewrite list_lookup_insert_eq.
  - intros [= <-]. repeat split; done.
Qed.

(** The slots after the tasks of [order] have completed, from time [t] on:
    a slot no task of [order] owns is as before, and the slot of a task of
    [order] holds the pair of its own candidate. *)
Lemma run_tasks_slots order : forall t s s',
  run t order s = Return s' ->
  length s' = length s /\
  (forall i, i ∉ order -> s' !! i = s !! i) /\
  (forall i p, i ∈ order -> candidates !! i = Some p -> (i < length s)%nat ->
     exists k r, order !! k = Some i /\ task (t + k) p = Return (p, r) /\
                 s' !! i = Some (Some (p, r))).
Proof.
  induction order as [|j order IH]; intros t s s'; simpl.
  - intros [= <-]. split; [done|]. split; [done|].
    intros i p Hi. by apply elem_of_nil in Hi.
  - intros H. apply bind_Return in H as (s1 & H1 & H).
    destruct (complete_Return _ _ _ _ H1) as (Hl1 & Hne1 & Hat1).
    destruct (IH _ _ _ H) as (Hl & Hout & Hin).
    split; [congruence|]. split.
    + intros i Hi. apply not_elem_of_cons in Hi as [Hij Hi].
      rewrite (Hout i Hi). by apply Hne1.
    + intros i p Hi Hp Hlt.
      destruct (decide (i ∈ order)) as [Hio|Hio].
      * destruct (Hin i p Hio Hp) as (k & r & Hk & Ht & Hs); [lia|].
        exists (S k), r. split; [done|]. split; [|done].
        by replace (t + S k)%nat with (S t + k)%nat by lia.
      * apply elem_of_cons in Hi as [->|Hi]; [|done].
        destruct (Hat1 p Hp Hlt) as (r & Ht & Hs).
        exists 0%nat, r. split; [done|]. split.
        -- by rewrite Nat.add_0_r.
        -- by rewrite (Hout j Hio).
Qed.

Lemma run_tasks_total order : forall t s,
  (forall t' p, p ∈ candidates -> exists r, task t' p = Return r) ->
  exists s', run t order s = Return s'.
Proof.
  intros t s Hall. revert t s.
  induction order as [|j order IH]; intros t s; simpl; [eauto|].
  unfold complete. destruct (candidates !! j) as [p|] eqn:Hp.
  - destruct (Hall t p) as [r ->]; [by apply list_elem_of_lookup_2 in Hp|].
    simpl. apply IH.
  - simpl. apply IH.
Qed.

(** C8. When the tasks complete in any order, each of them once, the wait
    never stays pending; what it returns has one pair per candidate, and its
    i-th pair is the i-th candidate with the answer to that candidate's own
    search, whenever that search was answered; and it does return when no
    search task raises. *)
Theorem fan_in_order (order : list nat) :
  order ≡ₚ seq 0 (length candidates) ->
  gather search_place format_value candidates order <> None /\
  (forall joined,
     gather search_place format_value candidates order = Some (Return joined) ->
     length joined = length candidates /\
     forall i p, candidates !! i = Some p ->
       exists t r, order !! t = Some i /\ task t p = Return (p, r) /\
                   joined !! i = Some (p, r)) /\
  ((forall t p, p ∈ candidates -> exists r, task t p = Return r) ->
   exists joined,
     gather search_place format_value candidates order = Some (Return joined)).
Proof.
  intros Hperm.
  assert (Hin : forall i, (i < length candidates)%nat -> i ∈ order).
  { intros i Hi. rewrite Hperm. apply elem_of_seq. lia. }
  assert (Hfull : forall s',
            run 0 order (replicate (length candidates) None) = Return s' ->
            exists rs, collect s' = Some rs).
  { intros s' Hr. destruct (run_tasks_slots _ _ _ _ Hr) as (Hl & _ & Hs).
    rewrite length_replicate in Hl.
    apply collect_full. intros i Hi. rewrite Hl in Hi.
    destruct (lookup_lt_is_Some_2 candidates i Hi) as [p Hp].
    destruct (Hs i p (Hin i Hi) Hp) as (k & r & _ & _ & E).
    - by rewrite length_replicate.
    - eauto. }
  unfold gather. split; [|split].
  - destruct (run 0 order _) as [s'|e] eqn:Hr; [|done].
    destruct (Hfull s' eq_refl) as [rs ->]. done.
  - intros joined.
    destruct (run 0 order _) as [s'|e] eqn:Hr; [|done].
    destruct (collect s') as [rs|] eqn:Hc; [|done]. intros [= ->].
    destruct (run_tasks_slots _ _ _ _ Hr) as (Hl & _ & Hs).
    rewrite length_replicate in Hl.
    apply collect_Some in Hc. subst s'. rewrite length_map in Hl.
    split; [done|]. intros i p Hp.
    assert (Hi : (i < length candidates)%nat) by (by apply lookup_lt_Some in Hp).
    destruct (Hs i p (Hin i Hi) Hp) as (k & r & Hk & Ht & E).
    + by rewrite length_replicate.
    + exists k, r. split; [done|]. split; [done|].
      rewrite list_lookup_fmap in E.
      destruct (joined !! i) as [pr|]; simpl in E; congruence.
  - intros Hall.
    destruct (run_tasks_total order 0 (replicate (length candidates) None) Hall)
      as [s' Hr].
    rewrite Hr. destruct (Hfull s' Hr) as [rs ->]. eauto.
Qed.

End FanIn.

Lemma fan_in_order_witness :
  exists joined,
    gather answer Threads.format_str
      [candidate "P1"; candidate "P2"; candidate "P3"] [2; 0; 1]%nat
    = Some (Return joined) /\
    joined.*1 = [candidate "P1"; candidate "P2"; candidate "P3"].
Proof.
  assert (Hp : [2; 0; 1]%nat ≡ₚ seq 0 (length [candidate "P1"; candidate "P2";
                                               candidate "P3"])).
  { apply (Permutation_cons_append [0; 1]%nat 2%nat). }
  destruct (fan_in_order answer Threads.format_str
              [candidate "P1"; candidate "P2"; candidate "P3"] [2; 0; 1]%nat Hp)
    as (_ & _ & Hret).
  destruct Hret as [joined Hj].
  - intros t p Hin.
    repeat (apply elem_of_cons in Hin as [->|Hin]; [vm_compute; eauto|]).
    by apply elem_of_nil in Hin.
  - exists joined. split; [done|]. vm_compute in Hj. by injection Hj as <-.
Defined.

End SearchFacts.

(** ** Dedup registry: interleavings *)

Module DedupTraceFacts.
Import Dedup DedupFacts.

Lemma step_keeps_in_flight (r : registry) (i : Z) (e : event) :
  i ∈ _processing_messages r -> e <> Released i ->
  i ∈ _processing_messages (step_with _MAX_PROCESSED_IDS r e).
Proof.
  intros Hi He. destruct e as [j|j]; simpl.
  - unfold admission_with. repeat case_decide; simpl; try done.
    by apply elem_of_union_l.
  - apply elem_of_difference. split; [done|].
    rewrite elem_of_singleton. intros ->. by apply He.
Qed.

Lemma run_keeps_in_flight (tr : list event) : forall (r : registry) (i : Z),
  i ∈ _processing_messages r -> Released i ∉ tr ->
  i ∈ _processing_messages (foldl (step_with _MAX_PROCESSED_IDS) r tr).
Proof.
  induction tr as [|e tr IH]; intros r i Hi Hn; simpl; [done|].
  apply not_elem_of_cons in Hn as [He Hn].
  apply IH; [|done]. apply step_keeps_in_flight; [done | congruence].
Qed.

(** Once a message id has been let through, whatever else is handled in
    between, admissions and releases of other ids and further admissions of
    the same id, it is not let through again before its own release: it
    stays in the in-flight set, also when the eviction drops it from the
    completed set. *)
Theorem in_flight_not_readmitted (r : registry) (i : Z) (tr : list event) :
  fst (admission i r) = Proceed ->
  Released i ∉ tr ->
  i ∈ _processing_messages
        (foldl (step_with _MAX_PROCESSED_IDS) (snd (admission i r)) tr) /\
  fst (admission i (foldl (step_with _MAX_PROCESSED_IDS)
                      (snd (admission i r)) tr)) <> Proceed.
Proof.
  intros Hp Hn.
  assert (Hin : i ∈ _processing_messages (snd (admission i r))).
  { revert Hp. unfold admission, admission_with.
    repeat case_decide; simpl; try done.
    intros _. apply elem_of_union_r. by apply elem_of_singleton. }
  pose proof (run_keeps_in_flight tr _ _ Hin Hn) as Hfl.
  split; [done|]. revert Hfl.
  generalize (foldl (step_with _MAX_PROCESSED_IDS) (snd (admission i r)) tr).
  intros r' Hfl. unfold admission, admission_with.
  repeat case_decide; simpl; done.
Qed.

Lemma in_flight_not_readmitted_witness :
  fst (admission 7 (foldl (step_with _MAX_PROCESSED_IDS)
                      (snd (admission 7 empty_registry))
                      [Admission 8; Admission 7; Released 8])) <> Proceed.
Proof.
  apply (in_flight_not_readmitted empty_registry 7
           [Admission 8; Admission 7; Released 8]).
  - vm_compute. reflexivity.
  - intros H. repeat (apply elem_of_cons in H as [H|H]; [discriminate H|]).
    by apply elem_of_nil in H.
Defined.

(** A message id above every id recorded so far, the usual case as the ids
    of a chat grow, survives the eviction step of its own admission: it is in
    the completed set afterwards, so a duplicate is turned away at the first
    check, before and after the release. *)
Theorem highest_id_retained (r : registry) (i : Z) :
  i ∉ _processing_messages r ->
  (forall x, x ∈ _processed_message_ids r -> x < i) ->
  let r1 := snd (admission i r) in
  fst (admission i r) = Proceed /\
  i ∈ _processed_message_ids r1 /\
  fst (admission i r1) = AlreadyProcessed /\
  fst (admission i (release i r1)) = AlreadyProcessed.
Proof.
  intros Hfl Hmax r1.
  assert (Hnp : i ∉ _processed_message_ids r).
  { intros Hi. specialize (Hmax _ Hi). lia. }
  subst r1. unfold admission.
  rewrite (admission_fresh _ _ _ Hnp Hfl). cbn [fst snd].
  set (s := _processed_message_ids r ∪ {[i]}).
  assert (His : i ∈ s) by (apply elem_of_union_r; by apply elem_of_singleton).
  assert (Hkept : i ∈ evict_with _MAX_PROCESSED_IDS s).
  { destruct (Nat.ltb_spec _MAX_PROCESSED_IDS (size s)) as [Hover|Hle];
      [|by rewrite evict_within].
    destruct (decide (i ∈ evict_with _MAX_PROCESSED_IDS s)) as [|Hout]; [done|].
    exfalso.
    assert (Hev : i ∈ s ∖ evict_with _MAX_PROCESSED_IDS s)
      by (by apply elem_of_difference).
    assert (Hpos : (0 < size (evict_with _MAX_PROCESSED_IDS s))%nat).
    { rewrite evict_size by done.
      assert (_MAX_PROCESSED_IDS / 2 <= _MAX_PROCESSED_IDS)%nat
        by (apply Nat.Div0.div_le_upper_bound; lia).
      lia. }
    apply size_pos_elem_of in Hpos as [y Hy].
    pose proof (evicted_below_kept _ _ Hover _ _ Hev Hy) as Hlt.
    apply (evict_subseteq _ _ Hover) in Hy.
    apply elem_of_union in Hy as [Hy|Hy].
    - specialize (Hmax _ Hy). lia.
    - apply elem_of_singleton in Hy. lia. }
  split; [done|]. split; [done|].
  split; by rewrite admission_processed.
Qed.

Lemma highest_id_retained_witness :
  fst (admission 1002 full_registry) = Proceed /\
  fst (admission 1002 (snd (admission 1002 full_registry))) = AlreadyProcessed.
Proof.
  assert (H1 : 1002 ∉ _processing_messages full_registry)
    by apply not_elem_of_empty.
  assert (H2 : forall x, x ∈ _processed_message_ids full_registry -> x < 1002).
  { intros x Hx. unfold full_registry in Hx.
    cbn [_processed_message_ids] in Hx.
    apply elem_of_list_to_set, list_elem_of_fmap in Hx as (n & -> & Hn).
    apply elem_of_seq in Hn. lia. }
  destruct (highest_id_retained full_registry 1002 H1 H2) as (Ha & _ & Hb & _).
  auto.
Defined.

End DedupTraceFacts.

(** ** Thread-node search: what is returned *)

Module GraphPathFacts.
Import Regex Py Graph GraphPaths GraphFacts.

Lemma first_hit_some search vals x :
  first_hit search vals = Some (Return (Some x)) ->
  exists v, v ∈ vals /\ search v = Some (Return (Some x)).
Proof.
  induction vals as [|w vals IH]; simpl; [done|].
  destruct (search w) as [[[y|]|e]|] eqn:E; try done.
  - intros [= ->]. exists w. split; [by left | done].
  - intros H. destruct (IH H) as (v & Hv & Hs).
    exists v. split; [by right | done].
Qed.

Lemma is_thread_node_true h entries :
  is_thread_node h entries = Return true ->
  exists items item0 rest fields post post_fields,
    entry (str "thread_items") entries = Some items /\
    deref h items = OList (item0 :: rest) /\
    deref h item0 = ODict fields /\
    entry (str "post") fields = Some post /\
    deref h post = ODict post_fields /\
    is_Some (entry (str "media_type") post_fields).
Proof.
  unfold is_thread_node.
  destruct (entry (str "thread_items") entries) as [items|]; [|done].
  destruct (deref h items) as [| | | | |[|item0 rest]|] eqn:Hi; try done.
  destruct (deref h item0) as [| | | | | |fields] eqn:H0; try done.
  destruct (entry (str "post") fields) as [post|] eqn:Hp; [|done].
  destruct (deref h post) as [| | | | | |post_fields] eqn:Hpo; try done.
  intros [= Hm]. apply bool_decide_eq_true in Hm.
  by exists items, item0, rest, fields, post, post_fields.
Qed.

(** What [_find_thread_node] returns is a thread node within reach: a dict
    found by stepping from the start object through dict values and the
    first ten elements of lists, at a depth of 20 at most, whose
    "thread_items" is a non-empty list, the first item of which is a dict
    with a dict under "post" that has a "media_type". *)
Theorem find_returns_thread_node fuel : forall h obj depth node,
  find fuel h obj depth = Some (Return (Some node)) ->
  exists n entries items item0 rest fields post post_fields,
    reaches h n obj node /\ depth + Z.of_nat n <= 20 /\
    deref h node = ODict entries /\
    entry (str "thread_items") entries = Some items /\
    deref h items = OList (item0 :: rest) /\
    deref h item0 = ODict fields /\
    entry (str "post") fields = Some post /\
    deref h post = ODict post_fields /\
    is_Some (entry (str "media_type") post_fields).
Proof.
  induction fuel as [|fuel IH]; intros h obj depth node; [done|]. simpl.
  destruct (Z.ltb_spec 20 depth) as [Hd|Hd]; [done|].
  assert (Hstep : forall vals,
            vals = children h obj ->
            first_hit (fun v => find fuel h v (depth + 1)) vals
              = Some (Return (Some node)) ->
            exists n entries items item0 rest fields post post_fields,
              reaches h n obj node /\ depth + Z.of_nat n <= 20 /\
              deref h node = ODict entries /\
              entry (str "thread_items") entries = Some items /\
              deref h items = OList (item0 :: rest) /\
              deref h item0 = ODict fields /\
              entry (str "post") fields = Some post /\
              deref h post = ODict post_fields /\
              is_Some (entry (str "media_type") post_fields)).
  { intros vals Hv Hf. apply first_hit_some in Hf as (v & Hin & Hf).
    destruct (IH _ _ _ _ Hf)
      as (n & entries & items & item0 & rest & fields & post & pf & Hr & Hn & H).
    exists (S n), entries, items, item0, rest, fields, post, pf.
    split; [|split; [lia | done]].
    simpl. exists v. split; [by rewrite <- Hv | done]. }
  unfold children in Hstep.
  destruct (deref h obj) as [| | | | |items|entries] eqn:Ho; try done.
  - by apply Hstep.
  - destruct (is_thread_node h entries) as [[|]|e] eqn:Ht; try done.
    + intros [= <-].
      destruct (is_thread_node_true _ _ Ht)
        as (items & item0 & rest & fields & post & pf & H).
      exists 0%nat, entries, items, item0, rest, fields, post, pf.
      split; [done|]. split; [lia|]. by split.
    + by apply Hstep.
Qed.

Lemma find_returns_thread_node_witness :
  exists n, reaches thread_store n 0%nat 2%nat /\ (Z.of_nat n <= 20).
Proof.
  destruct (find_returns_thread_node 22 thread_store 0%nat 0 2%nat)
    as (n & _ & _ & _ & _ & _ & _ & _ & Hr & Hn & _).
  - vm_compute. reflexivity.
  - exists n. split; [done | lia].
Defined.

End GraphPathFacts.

(** ** Thread aggregation: what the result holds *)

Module ThreadsResultFacts.
Import Regex Py Threads ThreadsResult PyFacts.

Lemma add_image_ok url m :
  truthy url = true -> media_ok m -> media_ok (add_image url m).
Proof.
  intros Hu [Hi Hv]. split; [|done]. simpl.
  apply Forall_app. split; [done|]. by constructor.
Qed.

Lemma add_video_ok url m :
  truthy url = true -> media_ok m -> media_ok (add_video url m).
Proof.
  intros Hu [Hi Hv]. split; [done|]. simpl.
  apply Forall_app. split; [done|]. by constructor.
Qed.

Lemma add_carousel_ok i m : media_ok m -> media_ok (add_carousel i m).
Proof. by intros [Hi Hv]. Qed.

Lemma foldM_invariant {A S} (P : S -> Prop) (f : S -> A -> outcome S) l :
  (forall s a s', f s a = Return s' -> P s -> P s') ->
  forall s s', foldM f l s = Return s' -> P s -> P s'.
Proof.
  intros Hf. induction l as [|a l IH]; intros s s'; simpl.
  - by intros [= <-].
  - destruct (f s a) as [s1|e] eqn:E; [|done]. simpl. eauto.
Qed.

Ltac open_bind H :=
  repeat match type of H with
  | (mbind _ _ = Return _) =>
      let x := fresh "x" in let E := fresh "E" in
      apply bind_Return in H as (x & E & H)
  end.

Lemma carousel_step_ok m item m' :
  carousel_step m item = Return m' -> media_ok m -> media_ok m'.
Proof.
  unfold carousel_step. intros H Hm. open_bind H.
  injection H as <-.
  destruct (truthy x2) eqn:Hv; destruct (truthy x0) eqn:Hu;
    auto using add_image_ok, add_video_ok, add_carousel_ok.
Qed.

Lemma carousel_media_ok post m m' :
  _extract_carousel_media post m = Return m' -> media_ok m -> media_ok m'.
Proof.
  unfold _extract_carousel_media. intros H. open_bind H. revert H.
  apply foldM_invariant. apply carousel_step_ok.
Qed.

Lemma image_media_ok post m m' :
  _extract_image_media post m = Return m' -> media_ok m -> media_ok m'.
Proof.
  unfold _extract_image_media. intros H Hm. open_bind H.
  destruct (truthy x); [|by injection H as <-].
  open_bind H. injection H as <-.
  destruct (truthy x0) eqn:Hu; simpl; [|done].
  destruct (negb _); [by apply add_image_ok | done].
Qed.

Lemma video_media_ok post m m' :
  _extract_video_media post m = Return m' -> media_ok m -> media_ok m'.
Proof.
  unfold _extract_video_media. intros H Hm. open_bind H.
  apply (image_media_ok _ _ _ H).
  destruct (truthy x); [|by injection E0 as <-].
  open_bind E0. injection E0 as <-.
  destruct (truthy x1) eqn:Hu; simpl; [|done].
  destruct (negb _); [by apply add_video_ok | done].
Qed.

Lemma text_post_media_ok post text_info m m' :
  _extract_text_post_media post text_info m = Return m' ->
  media_ok m -> media_ok m'.
Proof.
  unfold _extract_text_post_media. intros H Hm.
  destruct (negb (is_dict text_info)); [by injection H as <-|].
  open_bind H.
  destruct (negb (is_dict x) || negb (truthy x)); [by injection H as <-|].
  open_bind H.
  assert (Hm1 : media_ok x1).
  { destruct (truthy x0); [|by injection E1 as <-].
    open_bind E1. injection E1 as <-.
    destruct (truthy x3) eqn:Hu; [by apply add_video_ok | done]. }
  destruct (truthy x2); [|by injection H as <-].
  open_bind H. injection H as <-.
  destruct (truthy x3) eqn:Hu; [by apply add_image_ok | done].
Qed.

Lemma snoc_truthy l v :
  all_truthy l -> all_truthy (if truthy v then l ++ [v] else l).
Proof.
  intros Hl. destruct (truthy v) eqn:Hv; [|done].
  apply Forall_app. split; [done|]. by constructor.
Qed.

Lemma gather_item_ok g item g' :
  gather_item g item = Return g' -> gathered_ok g -> gathered_ok g'.
Proof.
  unfold gather_item. intros H (Hc & Hd & Hm). open_bind H. injection H as <-.
  split; [by apply snoc_truthy|]. split; [by apply snoc_truthy|]. simpl.
  repeat match type of E4 with
  | (if ?b then _ else _) = _ => destruct b
  end;
  eauto using carousel_media_ok, video_media_ok, image_media_ok,
    text_post_media_ok.
  open_bind E4. eauto using video_media_ok, image_media_ok.
Qed.

Section Results.
Variable format_value : value -> text.

Lemma merged_truthy total parts :
  all_truthy parts ->
  merged format_value total parts = VNone /\ parts = [] \/
  truthy (merged format_value total parts) = true.
Proof.
  intros Hp. unfold merged.
  destruct parts as [|p parts].
  { left. by rewrite andb_false_r. }
  right. destruct ((1 <? total)%nat && (1 <? length (p :: parts))%nat) eqn:Hc.
  - destruct parts as [|q parts]; [by rewrite andb_false_r in Hc|].
    reflexivity.
  - by inversion Hp.
Qed.

(** Whatever [_extract_from_thread_node] returns: no image or video address
    in it is null or empty; the caption and the description are each either
    None or non-empty; and a result with a caption has a description. *)
Theorem thread_data_well_formed node r :
  _extract_from_thread_node format_value node = Return r ->
  all_truthy (image_urls r) /\ all_truthy (video_urls r) /\
  (caption r = VNone \/ truthy (caption r) = true) /\
  (description r = VNone \/ truthy (description r) = true) /\
  (truthy (caption r) = true -> truthy (description r) = true).
Proof.
  unfold _extract_from_thread_node. intros H. open_bind H.
  destruct (negb (truthy x)).
  { injection H as <-. simpl. repeat split; auto; constructor. }
  open_bind H. unfold aggregate in H.
  apply bind_Return in H as (mt & _ & H).
  apply bind_Return in H as (g & Hfold & H). injection H as <-. simpl.
  assert (Hg : gathered_ok g).
  { apply (foldM_invariant gathered_ok _ _ gather_item_ok _ _ Hfold).
    repeat split; constructor. }
  destruct Hg as (Hc & Hd & Hi & Hv).
  split; [done|]. split; [done|].
  pose proof (merged_truthy (length x5) _ Hc) as Mc.
  pose proof (merged_truthy (length x5) _ Hd) as Md.
  split; [tauto|].
  destruct (truthy (merged _ _ (description_parts g))) eqn:Ed; simpl.
  - split; [by right|done].
  - destruct (truthy (merged _ _ (caption_parts g))) eqn:Ec.
    + split; [by right|done].
    + split; [|done]. destruct Md as [[Md _]|Md]; [by left|congruence].
Qed.

End Results.

Lemma thread_data_well_formed_witness :
  exists r,
    _extract_from_thread_node format_str
      (thread_of [thread_item "ann" "one" "u1"; thread_item "ann" "two" "u2"])
    = Return r /\
    all_truthy (image_urls r) /\ all_truthy (video_urls r) /\
    (caption r = VNone \/ truthy (caption r) = true) /\
    (description r = VNone \/ truthy (description r) = true) /\
    (truthy (caption r) = true -> truthy (description r) = true).
Proof.
  eexists. split; [vm_compute; reflexivity|].
  apply (thread_data_well_formed format_str
    (thread_of [thread_item "ann" "one" "u1"; thread_item "ann" "two" "u2"])).
  vm_compute. reflexivity.
Defined.

End ThreadsResultFacts.

(** ** The brace span, and the texts handed to json.loads *)

Module ExtractorSpanFacts.
Import Regex Py Extractor RegexFacts ExtractorFacts.

Lemma matched_app (m rest : text) : matched (m ++ rest) rest = m.
Proof.
  unfold matched. rewrite length_app.
  replace (length m + length rest - length rest)%nat with (length m) by lia.
  by rewrite take_app_length.
Qed.

Lemma pair_sublist (x y : N) (t : text) :
  [x; y] `sublist_of` t <-> exists b mid a, t = b ++ x :: mid ++ y :: a.
Proof.
  rewrite sublist_cons_l. split.
  - intros (b & k & -> & Hy). apply singleton_sublist_l in Hy.
    apply list_elem_of_split in Hy as (mid & a & ->). by exists b, mid, a.
  - intros (b & mid & a & ->). exists b, (mid ++ y :: a). split; [done|].
    apply singleton_sublist_l, elem_of_app. right. apply elem_of_cons. by left.
Qed.

(** Greedy [[\s\S]*] followed by a closing brace stops at the last one. *)
Lemma last_closing s :
  ((125%N ∉ s) /\
   star_greedy any_char (fun s1 => exec (Char 125) s1 Some) s = None) \/
  (exists mid a, s = mid ++ 125%N :: a /\ (125%N ∉ a) /\
     star_greedy any_char (fun s1 => exec (Char 125) s1 Some) s = Some a).
Proof.
  induction s as [|c s IH].
  - left. split; [apply not_elem_of_nil | done].
  - cbn [star_greedy any_char].
    destruct IH as [[Hn Hs]|(mid & a & -> & Ha & Hs)]; rewrite Hs.
    + cbn [orelse exec]. destruct (c =? 125)%N eqn:Hc.
      * apply N.eqb_eq in Hc as ->. right. by exists [], s.
      * left. split; [|done]. apply N.eqb_neq in Hc.
        apply not_elem_of_cons. split; [congruence | done].
    + right. by exists (c :: mid), a.
Qed.

Lemma braces_match c t :
  re_match BRACES (c :: t) =
  if (c =? 123)%N
  then star_greedy any_char (fun s1 => exec (Char 125) s1 Some) t
  else None.
Proof. reflexivity. Qed.

Lemma braces_search t :
  (re_search BRACES t = None /\ ~ ([123%N; 125%N] `sublist_of` t)) \/
  (exists b mid a,
     t = b ++ 123%N :: mid ++ 125%N :: a /\ (123%N ∉ b) /\ (125%N ∉ a) /\
     re_search BRACES t = Some (b, 123%N :: mid ++ [125%N], a)).
Proof.
  induction t as [|c t IH].
  - left. split; [done|]. by intros H%sublist_nil_r.
  - cbn [re_search]. rewrite braces_match.
    destruct (c =? 123)%N eqn:Hc.
    + apply N.eqb_eq in Hc as ->.
      destruct (last_closing t) as [[Hn Hs]|(mid & a & -> & Ha & Hs)];
        rewrite Hs.
      * destruct IH as [[Hr Hp]|(b & mid & a & -> & _)].
        -- rewrite Hr. left. split; [done|].
           intros [H|(l' & [= <-] & H)]%sublist_cons_r; [done|].
           by apply singleton_sublist_l in H.
        -- exfalso. apply Hn. apply elem_of_app. right. apply elem_of_cons. right.
           apply elem_of_app. right. apply elem_of_cons. by left.
      * right. exists [], mid, a. split; [done|].
        split; [apply not_elem_of_nil|]. split; [done|].
        change (123%N :: mid ++ 125%N :: a)
          with ([123%N] ++ mid ++ [125%N] ++ a).
        rewrite !app_assoc, matched_app. by rewrite <- !app_assoc.
    + apply N.eqb_neq in Hc.
      destruct IH as [[Hr Hp]|(b & mid & a & -> & Hb & Ha & Hr)]; rewrite Hr.
      * left. split; [done|].
        intros [H|(l' & [= Hc' _] & _)]%sublist_cons_r; [done|congruence].
      * right. exists (c :: b), mid, a. split; [done|].
        split; [|done]. apply not_elem_of_cons. split; [congruence | done].
Qed.

(** [re.search(r'\{[\s\S]*\}', text)] finds something exactly when an opening
    brace is followed, anywhere later, by a closing one, and what it finds
    is the text from the first opening brace to the last closing brace. *)
Theorem brace_span (t : text) :
  (re_search BRACES t = None <-> ~ ([123%N; 125%N] `sublist_of` t)) /\
  (forall b m a,
     re_search BRACES t = Some (b, m, a) <->
     t = b ++ m ++ a /\ (123%N ∉ b) /\ (125%N ∉ a) /\
     exists mid, m = 123%N :: mid ++ [125%N]).
Proof.
  destruct (braces_search t) as [[Hr Hp]|(b & mid & a & Ht & Hb & Ha & Hr)].
  - split; [by rewrite Hr|]. intros b m a. rewrite Hr. split; [done|].
    intros (-> & _ & _ & mid & ->). exfalso. apply Hp, pair_sublist.
    exists b, mid, a. simpl. by rewrite <- app_assoc.
  - split.
    + rewrite Hr. split; [done|]. intros Hp. exfalso. apply Hp, pair_sublist.
      by exists b, mid, a.
    + intros b' m' a'. rewrite Hr. split.
      * intros [= <- <- <-]. split; [|eauto].
        rewrite Ht. simpl. by rewrite <- app_assoc.
      * intros (Ht' & Hb' & Ha' & mid' & ->).
        rewrite Ht in Ht'. simpl in Ht'.
        apply not_elem_of_app_cons_inv_l in Ht' as (<- & _ & Ht'); [|done..].
        rewrite <- app_assoc in Ht'. simpl in Ht'.
        apply not_elem_of_app_cons_inv_r in Ht' as (<- & _ & <-); done.
Qed.

(** The fence markers hold no brace, so removing them keeps every brace. *)
Lemma take_length_take {A} (j : nat) (s : list A) :
  take j s = take (length (take j s)) s.
Proof.
  rewrite length_take. destruct (le_lt_dec j (length s)).
  - by rewrite Nat.min_l.
  - rewrite Nat.min_r by lia. rewrite !take_ge by lia. done.
Qed.

Lemma sub_from_keeps (P : N -> Prop) `{!forall c, Decision (P c)} r :
  (forall s rest, re_match r s = Some rest ->
                  Forall (fun c => ~ P c) (matched s rest)) ->
  forall s k, Forall (fun c => ~ P c) (take k s) ->
  filter P (sub_from r nothing k s) = filter P s.
Proof.
  intros Hr. induction s as [|c s IH]; intros k Hk; [done|].
  change text with (list N) in *.
  destruct k as [|k]; cbn [sub_from].
  - destruct (re_match r (c :: s)) as [rest|] eqn:Hm.
    + destruct (length (matched (c :: s) rest)) as [|n] eqn:Hl.
      * rewrite !filter_cons, IH; [done|]. rewrite take_0. constructor.
      * pose proof (Hr _ _ Hm) as HF. unfold matched in HF, Hl.
        rewrite take_length_take, Hl in HF. cbn [take] in HF.
        inversion HF; subst. unfold nothing. cbn [app].
        rewrite filter_cons_False by done. by apply IH.
    + rewrite !filter_cons, IH; [done|]. rewrite take_0. constructor.
  - cbn [take] in Hk. inversion Hk; subst.
    rewrite filter_cons_False by done. by apply IH.
Qed.

Lemma re_sub_keeps (P : N -> Prop) `{!forall c, Decision (P c)} r s :
  (forall s rest, re_match r s = Some rest ->
                  Forall (fun c => ~ P c) (matched s rest)) ->
  filter P (re_sub r nothing s) = filter P s.
Proof.
  intros Hr. apply sub_from_keeps; [done|]. rewrite take_0. constructor.
Qed.

Lemma space_not_brace c : is_space c = true -> ~ (c = 123%N \/ c = 125%N).
Proof. intros Hs [-> | ->]; discriminate Hs. Qed.

Lemma fence_no_brace (word : text) (tail : regex) s rest :
  Forall (fun c => ~ (c = 123%N \/ c = 125%N)) word ->
  (forall m r, lang tail m r -> Forall (fun c => is_space c = true) m) ->
  re_match (Seq (Lit word) tail) s = Some rest ->
  Forall (fun c => ~ (c = 123%N \/ c = 125%N)) (matched s rest).
Proof.
  intros Hw Ht Hm. apply re_match_sound in Hm as (m & -> & Hl).
  rewrite matched_app. destruct Hl as (m1 & m2 & -> & H1 & H2).
  apply lang_Lit in H1 as ->. apply Forall_app. split; [done|].
  eapply Forall_impl; [by eapply Ht|]. apply space_not_brace.
Qed.

Lemma strip_fences_braces t :
  filter (fun c => c = 123%N \/ c = 125%N) (strip_fences t) =
  filter (fun c => c = 123%N \/ c = 125%N) t.
Proof.
  assert (Hb : Forall (fun c => ~ (c = 123%N \/ c = 125%N)) backticks).
  { repeat constructor; intros [?|?]; done. }
  assert (Hj : Forall (fun c => ~ (c = 123%N \/ c = 125%N))
                 (backticks ++ str "json")).
  { repeat constructor; intros [?|?]; done. }
  unfold strip_fences.
  destruct (contains (backticks ++ str "json") t).
  - rewrite re_sub_keeps, re_sub_keeps; [done| |].
    + intros s rest. apply fence_no_brace; [done|]. by intros m r H.
    + intros s rest. apply fence_no_brace; [done|].
      intros m r (m1 & m2 & -> & H1 & -> & _). by rewrite app_nil_r.
  - destruct (contains backticks t); [|done].
    rewrite re_sub_keeps; [done|].
    intros s rest. apply fence_no_brace; [done|]. by intros m r H.
Qed.

Lemma filter_sublist_mono {A} (P : A -> Prop) `{!forall c, Decision (P c)}
  (l t : list A) :
  l `sublist_of` t -> filter P l `sublist_of` filter P t.
Proof.
  induction 1 as [|x l t _ IH|x l t _ IH]; [done| |];
    rewrite ?filter_cons; destruct (decide (P x)); try done.
  - by constructor.
  - by constructor.
Qed.

Lemma strip_fences_pair t :
  [123%N; 125%N] `sublist_of` strip_fences t <->
  [123%N; 125%N] `sublist_of` t.
Proof.
  assert (Hf : filter (fun c => c = 123%N \/ c = 125%N) [123%N; 125%N]
               = [123%N; 125%N]) by reflexivity.
  split; intros H;
    apply (filter_sublist_mono (fun c => c = 123%N \/ c = 125%N)) in H;
    rewrite Hf in H; pose proof (strip_fences_braces t) as E;
    change text with (list N) in *.
  - rewrite E in H. etransitivity; [exact H | apply sublist_filter].
  - rewrite <- E in H. etransitivity; [exact H | apply sublist_filter].
Qed.

Lemma re_search_match r s b m a :
  re_search r s = Some (b, m, a) -> re_match r (m ++ a) = Some a.
Proof.
  revert b. induction s as [|c s IH]; intros b; cbn [re_search].
  - destruct (re_match r []) as [rest|] eqn:Hm; [|done].
    intros [= <- <- <-]. by rewrite <- (re_match_matched r [] rest Hm).
  - destruct (re_match r (c :: s)) as [rest|] eqn:Hm.
    + intros [= <- <- <-]. by rewrite <- (re_match_matched r _ rest Hm).
    + destruct (re_search r s) as [[[b' m'] a']|]; [|done].
      intros [= <- <- <-]. by apply (IH b').
Qed.

Lemma count_char_app c s t :
  count_char c (s ++ t) = (count_char c s + count_char c t)%nat.
Proof.
  unfold count_char. change text with (list N).
  by rewrite filter_app, length_app.
Qed.

Lemma count_char_replicate c x n :
  count_char c (replicate n x) = if decide (x = c) then n else 0%nat.
Proof.
  unfold count_char. change text with (list N).
  induction n as [|n IH]; simpl.
  - by destruct (decide (x = c)).
  - rewrite filter_cons. destruct (decide (x = c)); simpl; by rewrite IH.
Qed.

Lemma close_braces_counts (s : text) :
  count_char 123 (close_braces s) = count_char 123 s /\
  count_char 125 (close_braces s)
    = Nat.max (count_char 123 s) (count_char 125 s).
Proof.
  unfold close_braces.
  destruct (count_char 125 s <? count_char 123 s)%nat eqn:Hc.
  - apply Nat.ltb_lt in Hc.
    rewrite !count_char_app, !count_char_replicate. simpl. lia.
  - apply Nat.ltb_ge in Hc. lia.
Qed.

Lemma close_braces_prefix (s : text) : s `prefix_of` close_braces s.
Proof.
  unfold close_braces. destruct (_ <? _)%nat; [by eexists | done].
Qed.

Lemma close_braces_padded (s : text) :
  (count_char 123 (close_braces s) <= count_char 125 (close_braces s))%nat.
Proof. destruct (close_braces_counts s). lia. Qed.

(** After the padding at least as many braces close as open: the text is
    kept as a prefix, no opening brace is added, the closing braces become
    the larger of the two counts, and a second padding adds nothing. *)
Theorem close_braces_balanced (s : text) :
  (count_char 123 (close_braces s) <= count_char 125 (close_braces s))%nat /\
  s `prefix_of` close_braces s /\
  count_char 123 (close_braces s) = count_char 123 s /\
  count_char 125 (close_braces s)
    = Nat.max (count_char 123 s) (count_char 125 s) /\
  close_braces (close_braces s) = close_braces s.
Proof.
  destruct (close_braces_counts s) as [H1 H2].
  split; [apply close_braces_padded|]. split; [apply close_braces_prefix|].
  split; [done|]. split; [done|].
  unfold close_braces at 1.
  replace (_ <? _)%nat with false; [done|].
  symmetry. apply Nat.ltb_ge. lia.
Qed.

Section Calls.
Variable json_loads : text -> outcome value.
Variable str_exn : exn -> text.

Lemma repair_head s : head (repair (123%N :: s)) = Some 123%N.
Proof.
  unfold repair. rewrite (re_sub_miss TRAILING_COMMA); [|reflexivity].
  rewrite (re_sub_miss LINE_COMMENT); [done|reflexivity].
Qed.

Lemma anchor_head s b m a :
  re_search FOUND_ANCHOR s = Some (b, m, a) ->
  exists m', m = 123%N :: m'.
Proof.
  intros H. pose proof (found_anchor_to_end _ _ _ _ H) as [_ ->].
  apply re_search_match in H. rewrite app_nil_r in H.
  destruct m as [|x m']; [discriminate H|].
  destruct (x =? 123)%N eqn:Hx.
  - apply N.eqb_eq in Hx as ->. by exists m'.
  - unfold re_match, FOUND_ANCHOR in H. cbn [exec] in H.
    by rewrite Hx in H.
Qed.

(** A reply without an opening brace followed later by a closing one is
    answered without any call of [json.loads]; every other reply leads to
    one or two calls, each on a text that starts with an opening brace, and
    the text of the second call has at least as many closing as opening
    braces. *)
Theorem json_loads_calls (response_text : text) :
  (~ ([123%N; 125%N] `sublist_of` response_text) ->
   _parse_response json_loads str_exn response_text
   = ([], Return (not_found (VStr msg_no_json)))) /\
  ([123%N; 125%N] `sublist_of` response_text ->
   exists first more,
     fst (_parse_response json_loads str_exn response_text) = first :: more /\
     head first = Some 123%N /\ (length more <= 1)%nat /\
     forall c, c ∈ more ->
       head c = Some 123%N /\ (count_char 123 c <= count_char 125 c)%nat).
Proof.
  unfold _parse_response.
  destruct (braces_search (strip_fences response_text))
    as [[Hr Hp]|(b & mid & a & Ht & Hb & Ha & Hr)]; rewrite Hr.
  - split; [done|]. intros H. by apply strip_fences_pair in H.
  - split.
    { intros H. exfalso. apply H, strip_fences_pair, pair_sublist.
      rewrite Ht. by exists b, mid, a. }
    intros _. pose proof (repair_head (mid ++ [125%N])) as Hh.
    destruct (json_loads _) as [data|e].
    + exists (repair (123%N :: mid ++ [125%N])), []. simpl.
      split; [done|]. split; [done|]. split; [lia|].
      intros c Hc. by apply elem_of_nil in Hc.
    + destruct e;
        try (exists (repair (123%N :: mid ++ [125%N])), []; simpl;
             split; [done|]; split; [done|]; split; [lia|];
             intros c Hc; by apply elem_of_nil in Hc).
      unfold second_attempt.
      destruct (re_search FOUND_ANCHOR _) as [[[b' m'] a']|] eqn:Hs.
      * exists (repair (123%N :: mid ++ [125%N])), [close_braces m']. simpl.
        split; [done|]. split; [done|]. split; [lia|].
        intros c ->%list_elem_of_singleton.
        split; [|apply close_braces_padded].
        apply anchor_head in Hs as (m'' & ->).
        destruct (close_braces_prefix (123%N :: m'')) as [k ->]. done.
      * exists (repair (123%N :: mid ++ [125%N])), []. simpl.
        split; [done|]. split; [done|]. split; [lia|].
        intros c Hc. by apply elem_of_nil in Hc.
Qed.

End Calls.

End ExtractorSpanFacts.

(** ** The matcher finds every match, and what the handler extracts *)

Module UrlExtractFacts.
Import Regex UrlType UrlExtract RegexFacts UrlTypeFacts ExtractorSpanFacts.

Lemma orelse_is_Some {A} (x y : option A) :
  is_Some (orelse x y) <-> is_Some x \/ is_Some y.
Proof.
  destruct x as [a|]; simpl.
  - split; [by left | by intros _; eexists].
  - split; [by right|]. by intros [[? [=]]|?].
Qed.

Lemma star_greedy_complete p k m : forall rest,
  Forall (fun c => p c = true) m -> is_Some (k rest) ->
  is_Some (star_greedy p k (m ++ rest)).
Proof.
  induction m as [|c m IH]; intros rest Hm Hk.
  - destruct rest as [|c s]; [done|]. cbn [app star_greedy].
    destruct (p c); [|done]. apply orelse_is_Some. by right.
  - inversion Hm; subst. cbn [app star_greedy]. replace (p c) with true by done.
    apply orelse_is_Some. left. by apply IH.
Qed.

Lemma star_lazy_complete p k m : forall rest,
  Forall (fun c => p c = true) m -> is_Some (k rest) ->
  is_Some (star_lazy p k (m ++ rest)).
Proof.
  induction m as [|c m IH]; intros rest Hm Hk.
  - destruct rest as [|c s]; cbn [app star_lazy]; apply orelse_is_Some;
      by left.
  - inversion Hm; subst. cbn [app star_lazy]. replace (p c) with true by done.
    apply orelse_is_Some. right. by apply IH.
Qed.

(** Whatever the pattern can match and the rest of the pattern accepts,
    the backtracking matcher finds a match. *)
Lemma exec_complete r : forall m rest k,
  lang r m rest -> is_Some (k rest) -> is_Some (exec r (m ++ rest) k).
Proof.
  induction r as [|c|p|r1 IH1 r2 IH2|r1 IH1 r2 IH2|p|p| |r IH];
    intros m rest k Hl Hk; cbn [lang] in Hl; cbn [exec].
  - by subst m.
  - subst m. cbn [app]. by rewrite N.eqb_refl.
  - destruct Hl as (c & -> & Hp). cbn [app]. by rewrite Hp.
  - destruct Hl as (m1 & m2 & -> & H1 & H2). rewrite <- app_assoc.
    apply IH1; [done|]. by apply IH2.
  - apply orelse_is_Some. destruct Hl as [Hl|Hl]; [left|right]; eauto.
  - by apply star_greedy_complete.
  - by apply star_lazy_complete.
  - destruct Hl as (-> & [-> | ->]); done.
  - destruct Hl as (-> & m' & rest' & -> & Hl). cbn [app].
    destruct (IH m' rest' (fun _ => Some []) Hl) as [x ->]; [by eexists|done].
Qed.

Lemma exec_iff r s k :
  is_Some (exec r s k) <->
  exists m rest, s = m ++ rest /\ lang r m rest /\ is_Some (k rest).
Proof.
  split.
  - intros [x (m & rest & -> & Hl & Hk)%exec_sound]. exists m, rest. eauto.
  - intros (m & rest & -> & Hl & Hk). by apply exec_complete.
Qed.

Lemma matches_iff r s :
  matches r s = true <-> exists m rest, s = m ++ rest /\ lang r m rest.
Proof.
  unfold matches, re_match.
  pose proof (exec_iff r s Some) as H.
  destruct (exec r s Some) as [x|].
  - split; [|done]. intros _.
    destruct H as [(m & rest & H1 & H2 & _) _]; [by eexists|]. eauto.
  - split; [done|]. intros (m & rest & H1 & H2).
    destruct H as [_ [x H]]; [|done]. exists m, rest. eauto.
Qed.

Lemma lang_local r : forall m rest rest',
  local r = true -> lang r m rest -> lang r m rest'.
Proof.
  induction r as [|c|p|r1 IH1 r2 IH2|r1 IH1 r2 IH2|p|p| |r IH];
    intros m rest rest' Hloc Hl; cbn [lang local] in *; try done.
  - apply andb_true_iff in Hloc as [L1 L2].
    destruct Hl as (m1 & m2 & -> & H1 & H2). exists m1, m2. eauto.
  - apply andb_true_iff in Hloc as [L1 L2]. destruct Hl; eauto.
Qed.

Lemma re_search_none r s :
  re_search r s = None -> forall b s', s = b ++ s' -> re_match r s' = None.
Proof.
  induction s as [|c s IH]; cbn [re_search].
  - destruct (re_match r []) eqn:Hm; [done|]. intros _ b s' E.
    symmetry in E. apply app_eq_nil in E as [_ ->]. done.
  - destruct (re_match r (c :: s)) eqn:Hm; [done|].
    destruct (re_search r s) as [[[b' m'] a']|] eqn:Hs; [done|]. intros _.
    intros [|x b] s' E; simpl in E; [by subst s'|].
    injection E as -> ->. by apply (IH eq_refl b).
Qed.

(** What [re.search] finds is a match of the pattern in its place. *)
Lemma re_search_lang r s b m a :
  re_search r s = Some (b, m, a) -> s = b ++ m ++ a /\ lang r m a.
Proof.
  intros H. split; [by apply re_search_split in H|].
  apply re_search_match, re_match_sound in H as (m0 & E & Hl).
  by apply app_inv_tail in E as ->.
Qed.

Lemma url_reel_or_post m rest :
  lang INSTAGRAM_URL_PATTERN m rest ->
  lang INSTAGRAM_REEL_PATTERN m rest \/ lang INSTAGRAM_POST_PATTERN m rest.
Proof.
  intros (m1 & m2 & -> & Hh & m3 & m4 & -> & Ha & Ht).
  destruct Ha as [Ha|[Ha|[Ha|Ha]]].
  - left. exists m1, (m3 ++ m4). repeat split; [done|].
    exists m3, m4. repeat split; [|done]. by left.
  - left. exists m1, (m3 ++ m4). repeat split; [done|].
    exists m3, m4. repeat split; [|done]. right. by left.
  - right. exists m1, (m3 ++ m4). repeat split; [done|].
    exists m3, m4. by repeat split.
  - left. exists m1, (m3 ++ m4). repeat split; [done|].
    exists m3, m4. repeat split; [|done]. right. by right.
Qed.

Lemma reel_or_post_url m rest :
  lang INSTAGRAM_REEL_PATTERN m rest \/ lang INSTAGRAM_POST_PATTERN m rest ->
  lang INSTAGRAM_URL_PATTERN m rest.
Proof.
  intros [(m1 & m2 & -> & Hh & m3 & m4 & -> & Ha & Ht)
         |(m1 & m2 & -> & Hh & m3 & m4 & -> & Ha & Ht)];
    exists m1, (m3 ++ m4); (split; [done|]); (split; [done|]);
    exists m3, m4; (split; [done|]); (split; [|done]).
  - destruct Ha as [Ha|[Ha|Ha]]; [by left | right; by left |].
    right. right. by right.
  - right. right. by left.
Qed.

Lemma url_type_of_standard m :
  lang INSTAGRAM_URL_PATTERN m [] ->
  _get_url_type m = "reel"%string \/ _get_url_type m = "post"%string.
Proof.
  intros H. unfold _get_url_type.
  destruct (matches INSTAGRAM_REEL_PATTERN m) eqn:Hr; [by left|].
  destruct (matches INSTAGRAM_POST_PATTERN m) eqn:Hp; [by right|].
  exfalso. apply url_reel_or_post in H as [H|H].
  - assert (matches INSTAGRAM_REEL_PATTERN m = true); [|congruence].
    apply matches_iff. exists m, []. by rewrite app_nil_r.
  - assert (matches INSTAGRAM_POST_PATTERN m = true); [|congruence].
    apply matches_iff. exists m, []. by rewrite app_nil_r.
Qed.

(** The link the handler extracts from a message is a piece of the message
    and never of unknown type: a link found by the standard pattern is a
    reel or a post, and a link is of type share exactly when the standard
    pattern finds nothing in the message. A message with no link has no
    suffix that the classifier would accept. *)
Theorem extracted_url_type (message : text) :
  (forall url, _extract_ig_url message = Some url ->
     (exists b a, message = b ++ url ++ a) /\ url <> [] /\
     (_get_url_type url = "reel"%string \/ _get_url_type url = "post"%string \/
      _get_url_type url = "share"%string) /\
     (_get_url_type url = "share"%string <->
      re_search INSTAGRAM_URL_PATTERN message = None)) /\
  (_extract_ig_url message = None ->
   forall b s, message = b ++ s -> _get_url_type s = "unknown"%string).
Proof.
  unfold _extract_ig_url, group0. split.
  - intros url.
    destruct (re_search INSTAGRAM_URL_PATTERN message) as [[[b m] a]|] eqn:Hu.
    + intros [= <-]. apply re_search_lang in Hu as [E Hl].
      apply (lang_local _ _ _ []) in Hl; [|done].
      apply url_type_of_standard in Hl.
      split; [by exists b, a|]. split; [by intros ->; destruct Hl|].
      split; [tauto|]. split; [|done]. intros Hs. destruct Hl; congruence.
    + destruct (re_search INSTAGRAM_SHARE_PATTERN message) as [[[b m] a]|] eqn:Hs;
        [|done].
      intros [= <-]. apply re_search_lang in Hs as [E Hl].
      apply (lang_local _ _ _ []) in Hl; [|done].
      assert (Hty : _get_url_type m = "share"%string).
      { unfold _get_url_type.
        assert (Hno : forall r, (lang r = lang INSTAGRAM_REEL_PATTERN \/
                                 lang r = lang INSTAGRAM_POST_PATTERN) ->
                                local r = true -> matches r m = false).
        { intros r Hr Hloc. destruct (matches r m) eqn:Hm; [|done]. exfalso.
          apply matches_iff in Hm as (m' & r' & -> & Hm).
          apply (lang_local _ _ _ (r' ++ a)) in Hm; [|done].
          assert (Hurl : lang INSTAGRAM_URL_PATTERN m' (r' ++ a)).
          { apply reel_or_post_url. destruct Hr as [<- | <-]; auto. }
          pose proof (re_search_none _ _ Hu b (m' ++ r' ++ a)) as Hnone.
          rewrite <- app_assoc in E. specialize (Hnone E).
          destruct (exec_complete _ _ _ Some Hurl) as [x Hx]; [by eexists|].
          unfold re_match in Hnone. congruence. }
        rewrite (Hno INSTAGRAM_REEL_PATTERN), (Hno INSTAGRAM_POST_PATTERN);
          auto.
        replace (matches INSTAGRAM_SHARE_PATTERN m) with true; [done|].
        symmetry. apply matches_iff. exists m, []. by rewrite app_nil_r. }
      split; [by exists b, a|]. split; [by intros ->|].
      split; [tauto|done].
  - destruct (re_search INSTAGRAM_URL_PATTERN message) as [[[b m] a]|] eqn:Hu;
      [done|].
    destruct (re_search INSTAGRAM_SHARE_PATTERN message) as [[[b m] a]|] eqn:Hs;
      [done|].
    intros _ b s E. unfold _get_url_type.
    assert (Hurl : re_match INSTAGRAM_URL_PATTERN s = None)
      by (by eapply re_search_none).
    assert (Hsh : re_match INSTAGRAM_SHARE_PATTERN s = None)
      by (by eapply re_search_none).
    assert (Hno : forall r, (forall m rest, lang r m rest ->
                               lang INSTAGRAM_URL_PATTERN m rest) ->
                            matches r s = false).
    { intros r Hr. destruct (matches r s) eqn:Hm; [|done]. exfalso.
      apply matches_iff in Hm as (m' & r' & -> & Hm). apply Hr in Hm.
      destruct (exec_complete _ _ _ Some Hm) as [x Hx]; [by eexists|].
      unfold re_match in Hurl. congruence. }
    rewrite (Hno INSTAGRAM_REEL_PATTERN), (Hno INSTAGRAM_POST_PATTERN).
    + unfold matches. by rewrite Hsh.
    + intros. apply reel_or_post_url. by right.
    + intros. apply reel_or_post_url. by left.
Qed.

End UrlExtractFacts.

(** ** Link validation, the post id, and the links that cannot be fetched *)

Module LinksFacts.
Import Regex UrlType UrlExtract Py Extractor Downloader Links Acquire.
Import RegexFacts UrlTypeFacts ExtractorSpanFacts UrlExtractFacts.

Lemma star_greedy_total p k s :
  (forall t, is_Some (k t)) -> star_greedy p k s = k (skip_while p s).
Proof.
  intros Hk. induction s as [|c s IH]; [done|]. cbn [star_greedy skip_while].
  destruct (p c); [|done]. rewrite IH. by destruct (Hk (skip_while p s)) as [x ->].
Qed.

Lemma skip_while_head p s c :
  head (skip_while p s) = Some c -> p c = false.
Proof.
  induction s as [|x s IH]; [done|]. cbn [skip_while].
  destruct (p x) eqn:Hx; [done|]. by intros [= <-].
Qed.

(** The group of a match: the longest run of id characters after what
    precedes it. *)
Lemma link_group_shape before url id :
  link_group before url = Some id ->
  exists b a, url = b ++ id ++ a /\ lang before b (id ++ a) /\ id <> [] /\
    Forall (fun c => is_id_char c = true) id /\
    (forall c, head a = Some c -> is_id_char c = false).
Proof.
  unfold link_group. intros (b & rest & -> & Hb & Hid)%exec_sound.
  destruct rest as [|x s]; [done|]. unfold ID, Plus in Hid. cbn [exec] in Hid.
  destruct (is_id_char x) eqn:Hx; [|done].
  rewrite star_greedy_total in Hid by (by eexists). injection Hid as <-.
  destruct (skip_while_split is_id_char s) as (ws & E & Hws).
  assert (Em : matched (x :: s) (skip_while is_id_char s) = x :: ws).
  { rewrite E at 1. apply (matched_app (x :: ws)). }
  rewrite Em. exists b, (skip_while is_id_char s).
  cbn [app]. rewrite <- E.
  split; [done|]. split; [done|].
  split; [done|]. split; [by constructor|]. apply skip_while_head.
Qed.

Lemma link_matches_group before url :
  link_matches before url = true <-> is_Some (link_group before url).
Proof.
  unfold link_matches, link_group. rewrite matches_iff, exec_iff. split.
  - intros (m & rest & -> & m1 & m2 & -> & H1 & H2).
    exists m1, (m2 ++ rest). split; [by rewrite app_assoc|]. split; [done|].
    apply exec_iff. exists m2, rest. split; [done|]. split; [done|]. by eexists.
  - intros (m1 & rest & -> & H1 & (m2 & r & -> & H2 & _)%exec_iff).
    exists (m1 ++ m2), r. split; [by rewrite app_assoc|].
    exists m1, m2. by repeat split.
Qed.

Lemma first_group_Some patterns url :
  is_Some (first_group patterns url) <->
  existsb (fun pattern => link_matches pattern url) patterns = true.
Proof.
  induction patterns as [|p ps IH]; cbn [first_group existsb].
  - split; [by intros [? [=]] | done].
  - destruct (link_matches p url) eqn:Hm; [|done].
    split; [done|]. intros _. by apply link_matches_group.
Qed.

Lemma first_group_from patterns url id :
  first_group patterns url = Some id ->
  exists pattern, pattern ∈ patterns /\ link_group pattern url = Some id.
Proof.
  induction patterns as [|p ps IH]; cbn [first_group]; [done|].
  destruct (link_matches p url).
  - intros H. exists p. split; [apply elem_of_cons; by left | done].
  - intros (q & Hq & H)%IH. exists q. split; [apply elem_of_cons; by right|done].
Qed.

Section WordFacts.
Variable is_word : N -> bool.

Lemma validate_iff_id (url : text) :
  validate_url is_word url = true <-> is_Some (extract_post_id is_word url).
Proof.
  unfold extract_post_id, validate_url.
  by rewrite first_group_Some, existsb_app.
Qed.

Lemma post_id_shape (url id : text) :
  extract_post_id is_word url = Some id ->
  id <> [] /\ Forall (fun c => is_id_char c = true) id /\
  exists b a, url = b ++ id ++ a /\
    forall c, head a = Some c -> is_id_char c = false.
Proof.
  intros (p & _ & (b & a & E & _ & H1 & H2 & H3)%link_group_shape)
    %first_group_from.
  split; [done|]. split; [done|]. by exists b, a.
Qed.

(** A link passes [validate_url] exactly when [extract_post_id] finds an
    id in it; the id is a non-empty run of id characters of the link, cut
    at the first character that is not one. Reel links are valid and what
    the handler calls a reel; Threads links are valid. *)
Theorem valid_link_has_id (url : text) :
  (validate_url is_word url = true <-> is_Some (extract_post_id is_word url)) /\
  (forall id, extract_post_id is_word url = Some id ->
     id <> [] /\ Forall (fun c => is_id_char c = true) id /\
     exists b a, url = b ++ id ++ a /\
       forall c, head a = Some c -> is_id_char c = false) /\
  (is_reel_url url = true ->
   validate_url is_word url = true /\ _get_url_type url = "reel"%string) /\
  (is_threads_url is_word url = true -> validate_url is_word url = true).
Proof.
  split; [|split; [|split]].
  - apply validate_iff_id.
  - intros id. apply post_id_shape.
  - unfold is_reel_url, validate_url, REEL_PATTERNS, INSTAGRAM_URL_PATTERNS.
    cbn [existsb]. rewrite !orb_false_r. intros H. split.
    { apply orb_true_iff. left.
      apply orb_true_iff in H as [H|H]; rewrite H; by rewrite ?orb_true_r. }
    unfold _get_url_type.
    replace (matches INSTAGRAM_REEL_PATTERN url) with true; [done|].
    symmetry. apply matches_iff.
    apply orb_true_iff in H as [H|H];
      apply matches_iff in H
        as (m & rest & -> & m1 & m2 & -> & (h & w & -> & Hh & Hw) & Hid);
      exists ((h ++ w) ++ m2), rest; (split; [done|]);
      destruct Hw as (w1 & sl & -> & Hw1 & Hsl); cbn [lang] in Hsl; subst sl;
      exists h, (w1 ++ [47%N] ++ m2);
      (split; [by rewrite <- !app_assoc|]);
      (split; [by rewrite <- !app_assoc in Hh |-*|]);
      exists w1, ([47%N] ++ m2); (split; [done|]).
    + split; [by left|]. exists [47%N], m2. by repeat split.
    + split; [right; by left|]. exists [47%N], m2. by repeat split.
  - unfold is_threads_url, validate_url. intros ->. apply orb_true_r.
Qed.

Section Entry.
Variable str_exn : exn -> text.
Variable _download_sync : text -> outcome Video.DownloadResult.
Variable _download_post_sync : text -> outcome PostDownloadResult.

Abbreviation download_video :=
  (download is_word str_exn _download_sync).
Abbreviation download_pictures :=
  (download_post is_word str_exn _download_post_sync).

(** [download_post] has two outcomes only: a link that fails the validation
    is refused, and a valid link always yields a non-empty id, on which
    [_download_post_sync] is run; the refusal for a missing id is never
    given. *)
Theorem download_post_dispatch (url : text) :
  (validate_url is_word url = false /\
   download_pictures url = failure (str "post") msg_invalid_post_link) \/
  (exists shortcode,
     validate_url is_word url = true /\
     extract_post_id is_word url = Some shortcode /\ shortcode <> [] /\
     download_pictures url =
       match _download_post_sync shortcode with
       | Return result => result
       | Raise e => failure (str "post") (msg_failed ++ str_exn e)
       end).
Proof.
  unfold download_post.
  destruct (validate_url is_word url) eqn:Hv; [right | by left].
  apply validate_iff_id in Hv as [id Hx].
  destruct (post_id_shape url id Hx) as (Hne & _).
  exists id. rewrite Hx. destruct id as [|c id]; [done|]. by repeat split.
Qed.

Lemma share_shape url :
  matches INSTAGRAM_SHARE_PATTERN url = true ->
  exists h t,
    url = h ++ str "share/" ++ t /\ lang instagram_head h (str "share/" ++ t).
Proof.
  unfold matches. destruct (re_match _ url) as [rest|] eqn:H; [intros _|done].
  apply re_match_sound in H as (m & -> & h & m2 & -> & Hh & w & m3 & -> & Hw & Ht).
  destruct Ht as (sl & ids & -> & Hsl & _). simpl in Hsl. subst sl.
  apply lang_Lit in Hw. subst w.
  exists h, (ids ++ rest). split.
  - by rewrite <- !app_assoc.
  - revert Hh. by rewrite <- !app_assoc.
Qed.

Lemma tv_shape url :
  matches (Seq instagram_head (Seq (Lit (str "tv")) id_tail)) url = true ->
  exists h t,
    url = h ++ str "tv/" ++ t /\ lang instagram_head h (str "tv/" ++ t).
Proof.
  unfold matches. destruct (re_match _ url) as [rest|] eqn:H; [intros _|done].
  apply re_match_sound in H as (m & -> & h & m2 & -> & Hh & w & m3 & -> & Hw & Ht).
  destruct Ht as (sl & ids & -> & Hsl & _). simpl in Hsl. subst sl.
  apply lang_Lit in Hw. subst w.
  exists h, (ids ++ rest). split.
  - by rewrite <- !app_assoc.
  - revert Hh. by rewrite <- !app_assoc.
Qed.

(** Share links and IGTV links, both of which the handler extracts and
    classifies, fail the downloader's validation: the handler takes the
    video branch, both downloads are refused without any attempt, and the
    handling ends with the refusal of the video download as its reply. *)
Theorem unsupported_links_abort (url : text) :
  matches INSTAGRAM_SHARE_PATTERN url = true \/
  matches (Seq instagram_head (Seq (Lit (str "tv")) id_tail)) url = true ->
  is_Some (_extract_ig_url url) /\
  _get_url_type url <> "post"%string /\
  _get_url_type url <> "unknown"%string /\
  validate_url is_word url = false /\
  acquire download_video download_pictures (_get_url_type url) url
  = Abort (msg_download_failed ++ msg_invalid_link).
Proof.
  intros H.
  assert (Hshape : exists h w t, url = h ++ w ++ t /\
            (w = str "share/" \/ w = str "tv/") /\
            lang instagram_head h (w ++ t)).
  { destruct H as [(h & t & -> & Hh)%share_shape|(h & t & -> & Hh)%tv_shape];
      eauto 7. }
  assert (Hv : validate_url is_word url = false).
  { destruct Hshape as (h & w & t & -> & Hw & Hh%lang_head).
    destruct Hh as [-> | [-> | [-> | ->]]], Hw as [-> | ->];
      vm_compute; reflexivity. }
  assert (Hp : matches INSTAGRAM_POST_PATTERN url = false).
  { destruct Hshape as (h & w & t & -> & Hw & Hh%lang_head).
    destruct Hh as [-> | [-> | [-> | ->]]], Hw as [-> | ->];
      vm_compute; reflexivity. }
  assert (Hty : _get_url_type url = "reel"%string \/
                _get_url_type url = "share"%string).
  { unfold _get_url_type. rewrite Hp.
    destruct (matches INSTAGRAM_REEL_PATTERN url) eqn:Hr; [by left|].
    destruct H as [-> | H]; [by right|]. exfalso.
    assert (matches INSTAGRAM_REEL_PATTERN url = true); [|congruence].
    apply matches_iff.
    apply matches_iff
      in H as (m & rest & -> & m1 & m2 & -> & Hh & m3 & m4 & -> & Hw & Ht).
    exists (m1 ++ m3 ++ m4), rest. split; [done|].
    exists m1, (m3 ++ m4). split; [done|]. split; [done|].
    exists m3, m4. split; [done|]. split; [|done]. right. by right. }
  split.
  { unfold _extract_ig_url, group0.
    destruct (re_search INSTAGRAM_URL_PATTERN url) as [[[b m] a]|] eqn:Hu;
      [by eexists|].
    destruct (re_search INSTAGRAM_SHARE_PATTERN url) as [[[b m] a]|] eqn:Hs;
      [by eexists|]. exfalso.
    pose proof (re_search_none _ _ Hu [] url eq_refl) as Hu0.
    pose proof (re_search_none _ _ Hs [] url eq_refl) as Hs0.
    destruct H as [H|H].
    - unfold matches in H. by rewrite Hs0 in H.
    - apply matches_iff
        in H as (m & rest & -> & m1 & m2 & -> & Hh & m3 & m4 & -> & Hw & Ht).
      assert (Hl : lang INSTAGRAM_URL_PATTERN (m1 ++ m3 ++ m4) rest).
      { exists m1, (m3 ++ m4). split; [done|]. split; [done|].
        exists m3, m4. split; [done|]. split; [|done]. right. right. by right. }
      destruct (exec_complete _ _ _ Some Hl) as [x Hx]; [by eexists|].
      unfold re_match in Hu0. congruence. }
  split; [by destruct Hty as [-> | ->]|].
  split; [by destruct Hty as [-> | ->]|].
  split; [done|].
  assert (Hd : download_video url = Video.failure msg_invalid_link).
  { unfold download. by rewrite Hv. }
  assert (Hq : download_pictures url
               = failure (str "post") msg_invalid_post_link).
  { unfold download_post. by rewrite Hv. }
  unfold acquire. rewrite Hd, Hq.
  by destruct Hty as [-> | ->].
Qed.

End Entry.
End WordFacts.

Lemma valid_link_has_id_example :
  validate_url (fun _ => false) (str "https://www.instagram.com/p/Cx9-_a/?x=1")
  = true /\
  extract_post_id (fun _ => false)
    (str "https://www.instagram.com/p/Cx9-_a/?x=1") = Some (str "Cx9-_a").
Proof. split; vm_compute; reflexivity. Qed.

Lemma unsupported_links_abort_witness :
  acquire
    (download ascii_word str_detail (fun _ => Raise KeyError))
    (download_post ascii_word str_detail (fun _ => Raise KeyError))
    (_get_url_type (str "https://www.instagram.com/share/abcDEF"))
    (str "https://www.instagram.com/share/abcDEF")
  = Abort (msg_download_failed ++ msg_invalid_link).
Proof.
  destruct (unsupported_links_abort ascii_word str_detail
              (fun _ => Raise KeyError) (fun _ => Raise KeyError)
              (str "https://www.instagram.com/share/abcDEF"))
    as (_ & _ & _ & _ & H); [left; vm_compute; reflexivity | exact H].
Defined.

End LinksFacts.

(** ** What a post download returns *)

Module PostResultFacts.
Import Regex Py Downloader PostResult.

Lemma text_eqb_true a b : text_eqb a b = true <-> a = b.
Proof. unfold text_eqb. apply bool_decide_eq_true. Qed.

Lemma failure_shape ct msg :
  let r := failure ct msg in
  success r = false /\ image_paths r = [] /\ error_message r = Some msg /\
  caption r = None /\ title r = None /\ video_path r = None /\
  content_type r = ct.
Proof. by repeat split. Qed.

Section PostSync.
Variable from_shortcode : text -> fetched Post.
Variable get_and_write_raw : text -> text -> fetched unit.
Variable post_dir : text.

Abbreviation post_sync :=
  (_download_post_sync from_shortcode get_and_write_raw post_dir).

Lemma failure_well_formed ct msg :
  ct = str "post" \/ ct = str "reel" -> well_formed (failure ct msg).
Proof.
  intros Hct. unfold well_formed, failure. cbn.
  split; [done|]. split; [done|]. split; [done|]. by split.
Qed.

Lemma on_exception_well_formed e :
  well_formed (on_exception e) /\ content_type (on_exception e) = str "post".
Proof.
  destruct e; (split; [apply failure_well_formed; by left | done]).
Qed.

Lemma downloaded_well_formed post ct paths :
  ct = str "post_carousel" \/ ct = str "post_image" ->
  well_formed (downloaded post ct paths) /\
  content_type (downloaded post ct paths) <> str "reel".
Proof.
  intros Hct. destruct paths as [|p paths]; cbn [downloaded].
  - split; [apply failure_well_formed; by left | done].
  - split.
    + unfold well_formed. cbn. split; [done|]. split; [done|].
      split; [|by split]. intros _. split; [done|]. split; [by eexists|].
      destruct (post_title post) as [[|c t]|]; by eauto.
    + cbn. by destruct Hct as [-> | ->].
Qed.

Lemma post_sync_shape (shortcode : text) :
  well_formed (post_sync shortcode) /\
  (content_type (post_sync shortcode) = str "reel" <->
   exists post, from_shortcode shortcode = Fetched post /\
                typename post = str "GraphVideo").
Proof.
  unfold _download_post_sync.
  destruct (from_shortcode shortcode) as [post|e].
  2:{ destruct (on_exception_well_formed e) as [Hw Hc]. split; [done|].
      rewrite Hc. split; [done|]. by intros (post & [=] & _). }
  destruct (text_eqb (typename post) (str "GraphSidecar")) eqn:E1.
  { apply text_eqb_true in E1.
    assert (Hno : ~ exists p, Fetched post = Fetched p /\
                              typename p = str "GraphVideo").
    { intros (p & [= <-] & Hp). by rewrite E1 in Hp. }
    destruct (download_sidecar _ _ _ _) as [paths|e].
    - destruct (downloaded_well_formed post (str "post_carousel") paths)
        as [Hw Hc]; [by left|]. split; [done|]. by split.
    - destruct (on_exception_well_formed e) as [Hw Hc]. split; [done|].
      rewrite Hc. by split. }
  destruct (text_eqb (typename post) (str "GraphImage")) eqn:E2.
  { apply text_eqb_true in E2.
    assert (Hno : ~ exists p, Fetched post = Fetched p /\
                              typename p = str "GraphVideo").
    { intros (p & [= <-] & Hp). by rewrite E2 in Hp. }
    destruct (get_and_write_raw _ _) as [[]|e].
    - destruct (downloaded_well_formed post (str "post_image")
                  [in_dir post_dir (str "image_01.jpg")])
        as [Hw Hc]; [by right|]. split; [done|]. by split.
    - destruct (on_exception_well_formed e) as [Hw Hc]. split; [done|].
      rewrite Hc. by split. }
  destruct (text_eqb (typename post) (str "GraphVideo")) eqn:E3.
  { apply text_eqb_true in E3. split.
    - apply failure_well_formed. by right.
    - split; [|done]. intros _. by exists post. }
  split; [apply failure_well_formed; by left|].
  split; [done|]. intros (p & [= <-] & Hp).
  apply text_eqb_true in Hp. congruence.
Qed.

(** Whatever [_download_post_sync] returns: it reports success exactly when
    it holds a picture, and exactly when it carries no error message; a
    success is a carousel or a picture with a caption and a non-empty
    title, a failure has neither; it never holds a video or audio path;
    and its content type is reel, which is what sends the handler to the
    video download, exactly when the post was fetched and is a video. *)
Theorem post_sync_result (shortcode : text) :
  let r := post_sync shortcode in
  (success r = true <-> image_paths r <> []) /\
  (success r = true <-> error_message r = None) /\
  (success r = true ->
   (content_type r = str "post_carousel" \/ content_type r = str "post_image")
   /\ is_Some (caption r) /\ (exists c t, title r = Some (c :: t))) /\
  (success r = false ->
   caption r = None /\ title r = None /\
   (content_type r = str "post" \/ content_type r = str "reel")) /\
  (video_path r = None /\ audio_path r = None) /\
  (content_type r = str "reel" <->
   exists post, from_shortcode shortcode = Fetched post /\
                typename post = str "GraphVideo").
Proof.
  cbn zeta. destruct (post_sync_shape shortcode) as [Hw H6].
  destruct Hw as (H1 & H2 & H3 & H4 & H5).
  split; [exact H1|]. split; [exact H2|]. split; [exact H3|].
  split; [exact H4|]. split; [exact H5 | exact H6].
Qed.

End PostSync.

End PostResultFacts.

(** ** Markdown escaping is one pass *)

Module MarkdownFacts.
Import Regex Markdown.

Lemma replace_char_flat_map old new s :
  replace_char old new s
  = flat_map (fun x => if (x =? old)%N then new else [x]) s.
Proof.
  induction s as [|x s IH]; [done|]. cbn [replace_char flat_map].
  rewrite IH. by destruct (x =? old)%N.
Qed.

Lemma flat_map_flat_map {A B C} (f : A -> list B) (g : B -> list C) l :
  flat_map g (flat_map f l) = flat_map (fun x => flat_map g (f x)) l.
Proof.
  induction l as [|x l IH]; [done|]. cbn [flat_map].
  by rewrite flat_map_app, IH.
Qed.

Lemma escape_all_flat_map chars : forall s,
  NoDup chars -> 92%N ∉ chars ->
  escape_all chars s = flat_map (escaped chars) s.
Proof.
  induction chars as [|c chars IH]; intros s Hnd Hb.
  - cbn. induction s as [|x s IHs]; [done|]. cbn. by rewrite <- IHs.
  - apply NoDup_cons in Hnd as [Hc Hnd].
    apply not_elem_of_cons in Hb as [Hbc Hb].
    unfold escape_all in *. cbn [foldl]. rewrite IH by done.
    rewrite replace_char_flat_map, flat_map_flat_map.
    apply flat_map_ext. intros x. unfold escaped.
    destruct (x =? c)%N eqn:Hx.
    + apply N.eqb_eq in Hx as ->. cbn [flat_map].
      rewrite (bool_decide_eq_false_2 (92%N ∈ chars)) by done.
      rewrite (bool_decide_eq_false_2 (c ∈ chars)) by done.
      rewrite bool_decide_eq_true_2; [done|]. apply elem_of_cons. by left.
    + apply N.eqb_neq in Hx. cbn [flat_map]. rewrite app_nil_r.
      apply (f_equal (fun b : bool => if b then [92%N; x] else [x])).
      apply bool_decide_ext. rewrite elem_of_cons.
      split; [auto | intros [?|?]; [congruence | done]].
Qed.

Lemma special_chars_distinct : NoDup special_chars /\ 92%N ∉ special_chars.
Proof.
  split; compute_done.
Qed.

Lemma escaped_preceded chars : forall s pre c post,
  92%N ∉ chars ->
  flat_map (escaped chars) s = pre ++ c :: post -> c ∈ chars ->
  exists pre', pre = pre' ++ [92%N].
Proof.
  intros s pre c post Hb. revert pre.
  induction s as [|x s IH]; intros pre E Hc; cbn [flat_map] in E.
  - by destruct pre.
  - unfold escaped in E at 1. destruct (bool_decide (x ∈ chars)) eqn:Hx.
    + destruct pre as [|p0 [|p1 pre]]; cbn in E.
      * injection E as <- _. done.
      * injection E as <- _ _. by exists [].
      * injection E as <- <- E. destruct (IH pre E Hc) as [pre' ->].
        by exists (92%N :: x :: pre').
    + apply bool_decide_eq_false in Hx.
      destruct pre as [|p0 pre]; cbn in E.
      * injection E as <- _. done.
      * injection E as <- E. destruct (IH pre E Hc) as [pre' ->].
        by exists (x :: pre').
Qed.

(** The eighteen replacements of [escape_markdown] amount to one pass that
    puts a backslash before every special character and changes nothing
    else: the method [_escape_markdown] computes the same text, escaping
    works piece by piece, the text grows by one character per special
    character, and every special character of the result has a backslash
    right before it. *)
Theorem escape_markdown_single_pass (s t : text) :
  escape_markdown s = flat_map (escaped special_chars) s /\
  _escape_markdown s = escape_markdown s /\
  escape_markdown (s ++ t) = escape_markdown s ++ escape_markdown t /\
  length (escape_markdown s)
    = (length s + length (filter (fun x => x ∈ special_chars) s))%nat /\
  (forall pre c post,
     escape_markdown s = pre ++ c :: post -> c ∈ special_chars ->
     exists pre', pre = pre' ++ [92%N]).
Proof.
  destruct special_chars_distinct as [Hnd Hb].
  assert (He : forall u, escape_markdown u = flat_map (escaped special_chars) u).
  { intros [|x u]; [done|]. unfold escape_markdown.
    by apply escape_all_flat_map. }
  split; [apply He|]. split.
  { rewrite He. unfold _escape_markdown. by apply escape_all_flat_map. }
  split; [by rewrite !He, flat_map_app|]. split.
  - rewrite He. change text with (list N) in *.
    induction s as [|x s IH]; [done|].
    cbn [flat_map]. rewrite length_app, IH, filter_cons. unfold escaped.
    destruct (decide (x ∈ special_chars)) as [Hx|Hx].
    + rewrite bool_decide_eq_true_2, decide_True by done. cbn. lia.
    + rewrite bool_decide_eq_false_2, decide_False by done. cbn. lia.
  - intros pre c post E Hc. rewrite He in E. by eapply escaped_preceded.
Qed.

Example escape_markdown_sample :
  escape_markdown (str "a_b (c).") = str "a\_b \(c\)\.".
Proof. vm_compute. reflexivity. Qed.

End MarkdownFacts.

(** ** Threads posts: the content type and the download result *)

Module ThreadsDownloadFacts.
Import Regex Py ThreadsDownload DownloaderFacts.

Lemma nonempty_true {A} (l : list A) : nonempty l = true <-> l <> [].
Proof. by destruct l. Qed.

Lemma nonempty_false {A} (l : list A) : nonempty l = false <-> l = [].
Proof. by destruct l. Qed.

Lemma threads_classification_video (d : Threads.thread_data) :
  eq (Threads.media_type d) (VInt 2) = true -> Threads.video_urls d = [] ->
  classify d = VIDEO.
Proof.
  intros E2 Hv. unfold classify. rewrite E2, Hv. cbn [nonempty].
  by rewrite !andb_false_r.
Qed.

(** What each answer of the chain of tests says about the post data. *)
Theorem threads_classification (d : Threads.thread_data) :
  let images := Threads.image_urls d in
  let videos := Threads.video_urls d in
  let media_type := Threads.media_type d in
  (classify d = MIXED <->
   (1 < Threads.thread_items_count d)%nat /\ images <> [] /\ videos <> []) /\
  (classify d = VIDEO -> eq media_type (VInt 2) = true \/ videos <> []) /\
  (classify d = CAROUSEL ->
   eq media_type (VInt 8) = true /\ eq media_type (VInt 2) = false) /\
  (classify d = IMAGE -> eq media_type (VInt 1) = true \/ images <> []) /\
  (classify d = TEXT_ONLY ->
   images = [] /\ videos = [] /\
   (eq media_type (VInt 19) = true \/ truthy (Threads.description d) = true)) /\
  (classify d = UNKNOWN ->
   images = [] /\ videos = [] /\ truthy (Threads.description d) = false /\
   eq media_type (VInt 19) = false) /\
  (images = [] -> videos <> [] -> classify d = VIDEO) /\
  (eq media_type (VInt 2) = true -> videos = [] -> classify d = VIDEO).
Proof.
  cbn zeta. unfold classify.
  destruct (1 <? Threads.thread_items_count d)%nat eqn:Hc;
    [apply Nat.ltb_lt in Hc | apply Nat.ltb_ge in Hc];
    destruct (Threads.image_urls d) as [|i li],
             (Threads.video_urls d) as [|v lv];
    destruct (eq (Threads.media_type d) (VInt 2)) eqn:E2;
    destruct (eq (Threads.media_type d) (VInt 8)) eqn:E8;
    destruct (eq (Threads.media_type d) (VInt 1)) eqn:E1;
    destruct (eq (Threads.media_type d) (VInt 19)) eqn:E19;
    destruct (truthy (Threads.description d)) eqn:Ed;
    cbn [nonempty andb orb negb];
    repeat match goal with
           | |- _ /\ _ => split
           | |- _ <-> _ => split
           | |- _ -> _ => intro
           | H : _ /\ _ |- _ => destruct H
           end;
    try done; try lia; try (by left); by right.
Qed.

Lemma threads_failure_well_formed ct msg :
  ct = str "post" \/ ct = str "reel" -> well_formed (failure ct msg).
Proof.
  intros Hct. unfold well_formed, failure. cbn.
  split; [done|]. split; [done|]. split; [lia|]. split; [done|]. done.
Qed.

Lemma thread_images_bound client_get post_dir image_urls :
  (length (Downloader._download_thread_images client_get post_dir image_urls)
   <= 10)%nat.
Proof.
  unfold Downloader._download_thread_images.
  etransitivity; [apply download_each_length|].
  rewrite length_take. lia.
Qed.

Section DownloadFacts.
Variable is_word : N -> bool.
Variable str_exn : exn -> text.
Variable _extract_threads_post_data : text -> outcome (option Threads.thread_data).
Variable client_get : nat -> value -> outcome text.
Variable fetch_video : value -> outcome unit.
Variable image_dir video_dir : text.

Abbreviation fetch_post :=
  (download_threads_post is_word str_exn _extract_threads_post_data
     client_get fetch_video image_dir video_dir).

Lemma video_well_formed m description author :
  well_formed (_download_threads_video str_exn fetch_video video_dir
                 m description author).
Proof.
  unfold _download_threads_video.
  destruct (Metadata.video_urls m) as [|u us];
    [apply threads_failure_well_formed; by right|].
  destruct (fetch_video u) as [[]|e]; [|apply threads_failure_well_formed; by right].
  unfold well_formed. cbn. split; [done|]. split; [done|]. split; [lia|].
  split; [done|]. intros _. left. split; [done|]. split; [done|]. by eexists.
Qed.

Lemma images_well_formed m ct description author :
  well_formed (_download_threads_images client_get image_dir
                 m ct description author).
Proof.
  unfold _download_threads_images.
  destruct (Metadata.image_urls m) as [|u us];
    [apply threads_failure_well_formed; by left|].
  pose proof (thread_images_bound client_get image_dir (u :: us)) as Hb.
  destruct (Downloader._download_thread_images _ _ _) as [|p [|q ps]];
    [apply threads_failure_well_formed; by left| |];
    unfold well_formed; cbn -[str] in *;
    (split; [done|]); (split; [done|]); (split; [lia|]); (split; [done|]);
    intros _; right.
  - left. split; [done|]. by split.
  - right. left. split; [done|]. split; [lia|done].
Qed.

Lemma mixed_well_formed m description author :
  well_formed (_download_threads_mixed client_get fetch_video image_dir
                 video_dir m description author).
Proof.
  unfold _download_threads_mixed.
  set (paths := if nonempty (Metadata.image_urls m)
                then Downloader._download_thread_images client_get image_dir
                       (Metadata.image_urls m)
                else []).
  assert (Hb : (length paths <= 10)%nat).
  { unfold paths. destruct (nonempty _); [apply thread_images_bound|cbn; lia]. }
  set (video := match Metadata.video_urls m with
                | [] => None
                | url0 :: _ => match fetch_video url0 with
                               | Return _ => Some (video_file video_dir)
                               | Raise _ => None
                               end
                end).
  destruct (negb (nonempty paths) && negb (bool_decide (is_Some video)))
    eqn:Hf; [apply threads_failure_well_formed; by left|].
  unfold well_formed. cbn -[str].
  split; [done|]. split; [done|]. split; [done|]. split; [done|].
  intros _. right. right. right. left. split; [done|].
  apply andb_false_iff in Hf as [Hf|Hf].
  - left. apply negb_false_iff in Hf. by apply nonempty_true.
  - right. apply negb_false_iff in Hf. by apply bool_decide_eq_true in Hf.
Qed.

(** Whatever [download_threads_post] returns: success and error message
    exclude each other, the audio path is the video path, at most ten
    pictures are held, a failure holds nothing, and a success is a video, one
    picture, a carousel of two to ten pictures, a mixed thread with a
    picture or a video, or a text with a non-empty caption. A link that is
    not a Threads link is refused; a post whose data cannot be read is not
    recognised; and a post of media type 2 without a video address fails as
    a video, whatever pictures it has. *)
Theorem threads_download_result (url : text) :
  well_formed (fetch_post url) /\
  (Links.is_threads_url is_word url = false ->
   fetch_post url = failure (str "post") msg_not_threads) /\
  (Links.is_threads_url is_word url = true ->
   (forall d, _extract_threads_post_data url <> Return (Some d)) ->
   fetch_post url = failure (str "post") msg_unrecognised) /\
  (forall d,
     Links.is_threads_url is_word url = true ->
     _extract_threads_post_data url = Return (Some d) ->
     eq (Threads.media_type d) (VInt 2) = true -> Threads.video_urls d = [] ->
     fetch_post url = failure (str "reel") msg_no_video_url).
Proof.
  unfold download_threads_post, detect_threads_content_type.
  split; [|split; [|split]].
  - destruct (Links.is_threads_url is_word url);
      [|apply threads_failure_well_formed; by left]. cbn [negb].
    destruct (_extract_threads_post_data url) as [[d|]|e];
      try (apply threads_failure_well_formed; by left).
    destruct (classify d);
      auto using video_well_formed, images_well_formed, mixed_well_formed.
    + cbn [metadata_of Metadata.description].
      destruct (truthy (Threads.description d)) eqn:Hd;
        [|apply threads_failure_well_formed; by left].
      unfold well_formed. cbn -[str].
      split; [done|]. split; [done|]. split; [lia|]. split; [done|].
      intros _. do 4 right. by repeat split.
    + apply threads_failure_well_formed. by left.
  - by intros ->.
  - intros -> Hno. cbn [negb].
    destruct (_extract_threads_post_data url) as [[d|]|e]; try done.
    by destruct (Hno d).
  - intros d -> -> E2 Hv. cbn [negb].
    rewrite (threads_classification_video d E2 Hv).
    unfold _download_threads_video. cbn [metadata_of Metadata.video_urls].
    by rewrite Hv.
Qed.

End DownloadFacts.

End ThreadsDownloadFacts.

(** ** Who is authorised *)

Module AuthFacts.
Import Regex Py Auth RegexFacts LinksFacts.

Lemma skip_while_nil p s :
  skip_while p s = [] <-> Forall (fun c => p c = true) s.
Proof.
  induction s as [|c s IH]; cbn [skip_while]; [by split|].
  destruct (p c) eqn:Hc.
  - rewrite IH. split; [by constructor | by inversion 1].
  - split; [done|]. inversion 1; congruence.
Qed.

Lemma skip_while_stop p c s : p c = false -> skip_while p (c :: s) = c :: s.
Proof. intros H. cbn. by rewrite H. Qed.

Lemma skip_while_app p l s :
  Forall (fun c => p c = true) l -> skip_while p (l ++ s) = skip_while p s.
Proof.
  induction 1 as [|c l Hc _ IH]; [done|]. cbn [app skip_while]. by rewrite Hc.
Qed.

(** A text is blanks, its stripped middle, and blanks. *)
Lemma strip_split s :
  exists l r, s = l ++ strip s ++ r /\
    Forall (fun c => is_space c = true) l /\
    Forall (fun c => is_space c = true) r /\
    (forall c, head (strip s) = Some c -> is_space c = false) /\
    (forall c, last (strip s) = Some c -> is_space c = false).
Proof.
  unfold strip.
  destruct (skip_while_split is_space s) as (l & Es & Hl).
  destruct (skip_while_split is_space (reverse (skip_while is_space s)))
    as (w & Er & Hw).
  set (t := skip_while is_space s) in *.
  set (u := skip_while is_space (reverse t)) in *.
  assert (Et : t = reverse u ++ reverse w).
  { rewrite <- (reverse_involutive t), Er. by rewrite reverse_app. }
  exists l, (reverse w). split; [by rewrite <- Et|]. split; [done|].
  split; [by apply Forall_reverse|]. split.
  - intros c Hc. apply (skip_while_head is_space s). fold t. rewrite Et.
    destruct (reverse u); [done|]. exact Hc.
  - intros c Hc. apply (skip_while_head is_space (reverse t)). fold u.
    rewrite last_reverse in Hc. exact Hc.
Qed.

Lemma strip_middle l m r :
  Forall (fun c => is_space c = true) l ->
  Forall (fun c => is_space c = true) r ->
  (forall c, head m = Some c -> is_space c = false) ->
  (forall c, last m = Some c -> is_space c = false) ->
  m <> [] -> strip (l ++ m ++ r) = m.
Proof.
  intros Hl Hr Hh Hla Hm. unfold strip. rewrite skip_while_app by done.
  destruct m as [|c m]; [done|]. cbn [app].
  rewrite skip_while_stop by (by apply Hh).
  change (c :: m ++ r) with ((c :: m) ++ r).
  rewrite reverse_app, skip_while_app by (by apply Forall_reverse).
  destruct (reverse (c :: m)) as [|x y] eqn:E.
  { apply (f_equal (@length N)) in E. rewrite length_reverse in E. done. }
  rewrite skip_while_stop.
  - by rewrite <- E, reverse_involutive.
  - apply Hla. rewrite <- (reverse_involutive (c :: m)), E, last_reverse. done.
Qed.

Lemma strip_nil s : strip s = [] <-> Forall (fun c => is_space c = true) s.
Proof.
  split.
  - intros E. destruct (strip_split s) as (l & r & Es & Hl & Hr & _).
    rewrite E in Es. rewrite Es. by apply Forall_app.
  - intros H. unfold strip. by rewrite (proj2 (skip_while_nil _ s) H).
Qed.

Lemma split_on_items sep s :
  split_on sep s <> [] /\
  Forall (fun item => sep ∉ item) (split_on sep s) /\
  forall Q : N -> Prop,
    Forall (Forall Q) (split_on sep s) <-> Forall (fun c => c = sep \/ Q c) s.
Proof.
  induction s as [|c s (Hne & Hsep & IH)]; cbn [split_on].
  - split; [done|]. split; [repeat constructor; apply not_elem_of_nil|].
    intros Q. split; [done|]. by repeat constructor.
  - destruct (c =? sep)%N eqn:Hc.
    + apply N.eqb_eq in Hc as ->. split; [done|].
      split; [constructor; [apply not_elem_of_nil | done]|].
      intros Q. rewrite !Forall_cons, IH. split; [by intros [_ ?]; auto|].
      by intros [_ ?].
    + apply N.eqb_neq in Hc.
      destruct (split_on sep s) as [|item items]; [done|].
      split; [done|]. apply Forall_cons in Hsep as [Hi His].
      split.
      { constructor; [|done]. apply not_elem_of_cons. by split. }
      intros Q. specialize (IH Q). rewrite !Forall_cons in *.
      rewrite <- IH. split.
      * intros [[Hq Hit] Hits]. auto.
      * intros [[?|Hq] [Hit Hits]]; [done|auto].
Qed.

Lemma split_on_join items :
  items <> [] -> Forall (fun item => 44%N ∉ item) items ->
  split_on 44 (join [44%N] items) = items.
Proof.
  assert (Hone : forall item, 44%N ∉ item -> split_on 44 item = [item]).
  { induction item as [|c item IH]; [done|]. intros [Hc Hi]%not_elem_of_cons.
    cbn [split_on]. rewrite (proj2 (N.eqb_neq c 44)) by done.
    by rewrite IH. }
  assert (Happ : forall item s, 44%N ∉ item ->
            split_on 44 (item ++ 44%N :: s) = item :: split_on 44 s).
  { induction item as [|c item IH]; intros s; [done|].
    intros [Hc Hi]%not_elem_of_cons. cbn [app split_on].
    rewrite (proj2 (N.eqb_neq c 44)) by done. by rewrite IH. }
  induction items as [|item items IH]; [done|]. intros _ Hall.
  apply Forall_cons in Hall as [Hi His].
  destruct items as [|item' items]; [by apply Hone|].
  change (join [44%N] (item :: item' :: items))
    with (item ++ 44%N :: join [44%N] (item' :: items)).
  rewrite Happ by done. by rewrite IH.
Qed.

(** The decimal digits and the sign are all a chat id is written with. *)
Lemma pretty_N_go_digits x : forall s,
  exists p, list_ascii_of_string (pretty_N_go x s)
            = p ++ list_ascii_of_string s /\
    Forall (fun a => in_range 48 57 (N_of_ascii a) = true) p /\
    ((0 < x)%N -> p <> []).
Proof.
  induction (N.lt_wf_0 x) as [x _ IH]. intros s.
  assert (x = 0 \/ 0 < x)%N as [-> | Hx] by lia.
  - exists []. rewrite pretty_N_go_0. split; [done|]. split; [done|]. lia.
  - rewrite pretty_N_go_step by done.
    destruct (IH (x `div` 10)%N (N.div_lt x 10 Hx eq_refl)
                (String (pretty_N_char (x `mod` 10)) s)) as (p & E & Hp & _).
    exists (p ++ [pretty_N_char (x `mod` 10)]).
    split; [by rewrite E, <- app_assoc|]. split.
    + apply Forall_app. split; [done|]. constructor; [|done].
      unfold pretty_N_char. by repeat case_match.
    + intros _. by destruct p.
Qed.

Lemma str_int_shape z :
  exists c t, str_int z = c :: t /\
    Forall (fun x => is_space x = false /\ x <> 44%N) (c :: t).
Proof.
  assert (Hd : forall a, in_range 48 57 (N_of_ascii a) = true ->
                         is_space (N_of_ascii a) = false /\
                         N_of_ascii a <> 44%N).
  { intros a. generalize (N_of_ascii a). intros n Hn. unfold in_range in Hn.
    apply andb_true_iff in Hn as [H1%N.leb_le H2%N.leb_le].
    split; [|lia]. unfold is_space, in_range.
    repeat (apply orb_false_iff; split);
      try (apply andb_false_iff; (left; apply N.leb_gt; lia)
                                 || (right; apply N.leb_gt; lia));
      apply N.eqb_neq; lia. }
  assert (Hpos : forall p : positive,
            exists c t, str (pretty p) = c :: t /\
              Forall (fun x => is_space x = false /\ x <> 44%N) (c :: t)).
  { intros p. unfold pretty, pretty_positive, pretty, pretty_N.
    rewrite decide_False by done.
    destruct (pretty_N_go_digits (N.pos p) "") as (l & E & Hl & Hne).
    unfold str. rewrite E, app_nil_r.
    destruct l as [|a l]; [by destruct Hne|]. cbn [map].
    exists (N_of_ascii a), (map N_of_ascii l). split; [done|].
    change (Forall (fun x => is_space x = false /\ x <> 44%N)
              (map N_of_ascii (a :: l))).
    apply Forall_fmap. eapply Forall_impl; [exact Hl|]. apply Hd. }
  unfold str_int. destruct z as [|p|p].
  - exists 48%N, []. split; [done|]. by repeat constructor.
  - apply Hpos.
  - destruct (Hpos p) as (c & t & E & H).
    exists 45%N, (c :: t). split.
    + change (pretty (Z.neg p)) with ("-" +:+ pretty p)%string.
      unfold str in *. cbn. by rewrite <- E.
    + constructor; [by split|done].
Qed.

Lemma str_int_inj z1 z2 : str_int z1 = str_int z2 -> z1 = z2.
Proof.
  assert (Hinj : forall l1 l2 : list ascii,
            map N_of_ascii l1 = map N_of_ascii l2 -> l1 = l2).
  { induction l1 as [|a l1 IH]; intros [|b l2] [=]; [done|].
    f_equal; [|by apply IH].
    rewrite <- (ascii_N_embedding a), <- (ascii_N_embedding b). congruence. }
  unfold str_int, str. intros E%Hinj.
  apply (f_equal string_of_list_ascii) in E.
  rewrite !string_of_list_ascii_of_string in E. by apply (inj pretty).
Qed.

Lemma padded_strip item z : padded item z -> strip item = str_int z.
Proof.
  intros (l & r & -> & Hl & Hr).
  destruct (str_int_shape z) as (c & t & E & H). rewrite E in *.
  apply strip_middle; [done..| | |done].
  - intros x [= <-]. by inversion H as [|? ? [? ?] ?].
  - intros x Hx. apply last_Some_elem_of in Hx.
    rewrite Forall_forall in H. by apply H.
Qed.

Lemma padded_no_comma item z : padded item z -> 44%N ∉ item.
Proof.
  intros (l & r & -> & Hl & Hr).
  destruct (str_int_shape z) as (c & t & E & H). rewrite E.
  rewrite !not_elem_of_app. rewrite Forall_forall in Hl, Hr, H.
  repeat split.
  - intros Hx. by apply Hl in Hx.
  - intros Hx. by apply H in Hx as [_ ?].
  - intros Hx. by apply Hr in Hx.
Qed.

(** The ids read from the setting are non-empty, hold no comma and have no
    blank at either end; there is none exactly when the setting consists of
    blanks and commas, and then every chat is authorised. *)
Theorem allowed_chat_ids_shape (setting : text) :
  Forall (fun id => id <> [] /\ (44%N ∉ id) /\
                    (forall c, head id = Some c -> is_space c = false) /\
                    (forall c, last id = Some c -> is_space c = false))
    (allowed_chat_ids setting) /\
  (allowed_chat_ids setting = [] <->
   Forall (fun c => c = 44%N \/ is_space c = true) setting) /\
  (Forall (fun c => c = 44%N \/ is_space c = true) setting ->
   forall chat_id, _is_authorized setting chat_id = true).
Proof.
  assert (Hshape : forall items,
    Forall (fun item => 44%N ∉ item) items ->
    Forall (fun id => id <> [] /\ (44%N ∉ id) /\
                      (forall c, head id = Some c -> is_space c = false) /\
                      (forall c, last id = Some c -> is_space c = false))
      (List.filter nonblank (map strip items))).
  { induction 1 as [|item items Hi _ IH]; [done|]. cbn [map List.filter].
    destruct (strip item) as [|c t] eqn:E; [done|]. cbn [nonblank].
    constructor; [|done].
    destruct (strip_split item) as (l & r & Es & _ & _ & Hh & Hl).
    rewrite E in *. split; [done|]. split; [|by split].
    intros Hc. apply Hi. rewrite Es, !elem_of_app. tauto. }
  assert (Hnone : forall items,
    List.filter nonblank (map strip items) = [] <->
    Forall (Forall (fun c => is_space c = true)) items).
  { induction items as [|item items IH]; [done|]. cbn [map List.filter].
    rewrite Forall_cons, <- IH, <- strip_nil.
    destruct (strip item); cbn [nonblank]; [tauto|]. split; [done|].
    by intros [? _]. }
  assert (Hiff : allowed_chat_ids setting = [] <->
                 Forall (fun c => c = 44%N \/ is_space c = true) setting).
  { unfold allowed_chat_ids. destruct setting as [|c s]; [done|].
    rewrite Hnone.
    apply (proj2 (proj2 (split_on_items 44 (c :: s)))). }
  split; [|split; [done|]].
  - unfold allowed_chat_ids. destruct setting as [|c s]; [done|].
    apply Hshape. apply split_on_items.
  - intros H chat_id. unfold _is_authorized. by rewrite (proj2 Hiff H).
Qed.

(** A setting written as chat ids separated by commas, with blanks allowed
    around each id, authorises exactly the chats it lists. *)
Theorem authorized_iff_listed (items : list text) (ids : list Z) (chat_id : Z) :
  Forall2 padded items ids -> ids <> [] ->
  allowed_chat_ids (join [44%N] items) = map str_int ids /\
  (_is_authorized (join [44%N] items) chat_id = true <-> chat_id ∈ ids).
Proof.
  intros Hpad Hne.
  assert (Hcomma : Forall (fun item => 44%N ∉ item) items).
  { clear Hne. induction Hpad as [|item z items ids Hp _ IH]; constructor;
      [by eapply padded_no_comma | done]. }
  assert (Hitems : items <> []) by (by destruct Hpad).
  assert (Hjoin : join [44%N] items <> []).
  { intros E. pose proof (split_on_join items Hitems Hcomma) as Hs.
    rewrite E in Hs. cbn in Hs. destruct Hpad as [|item z ? ? Hp Hrest];
      [done|]. injection Hs as <- <-.
    apply padded_strip in Hp. destruct (str_int_shape z) as (? & ? & E' & _).
    rewrite E' in Hp. done. }
  assert (Hall : allowed_chat_ids (join [44%N] items) = map str_int ids).
  { unfold allowed_chat_ids.
    destruct (join [44%N] items) as [|c0 s0] eqn:E; [done|].
    rewrite <- E, split_on_join by done. clear E Hjoin Hitems Hcomma Hne.
    induction Hpad as [|item z items ids Hp _ IH]; [done|].
    cbn [map List.filter]. rewrite (padded_strip _ _ Hp).
    destruct (str_int_shape z) as (c & tl & -> & _). cbn [nonblank].
    by rewrite IH. }
  split; [done|]. unfold _is_authorized. rewrite Hall.
  destruct ids as [|z ids]; [done|]. cbn [map].
  rewrite bool_decide_eq_true.
  change (str_int z :: map str_int ids) with (map str_int (z :: ids)).
  rewrite list_elem_of_fmap. split.
  - intros (y & E & Hy). by apply str_int_inj in E as ->.
  - intros H. by exists chat_id.
Qed.

Lemma authorized_iff_listed_witness :
  _is_authorized (str "123, -1004,7") (-1004) = true.
Proof.
  apply (authorized_iff_listed [str "123"; str " -1004"; str "7"]
           [123; -1004; 7] (-1004)).
  - repeat constructor.
    + exists [], []. by repeat split.
    + exists [32%N], []. split; [vm_compute; reflexivity|].
      split; [by repeat constructor | done].
    + exists [], []. by repeat split.
  - done.
  - apply elem_of_cons. right. apply elem_of_cons. by left.
Defined.

End AuthFacts.

(** ** The retry loop *)

Module EditFacts.
Import Edit.

Section RetryFacts.
Variable edit_text : nat -> edit_outcome.
Variable max_retries : Z.

Lemma attempts_spec remaining : forall attempt,
  Z.of_nat attempt + Z.of_nat remaining = max_retries + 1 ->
  let '(ok, actions) := attempts edit_text max_retries remaining attempt in
  exists n,
    edits actions = seq attempt n /\ (n <= remaining)%nat /\
    (0 < remaining -> 0 < n)%nat /\ sleeps actions = (n - 1)%nat /\
    (forall j, (attempt <= j < attempt + n - 1)%nat ->
               edit_text j = Transient) /\
    (ok = true <-> (0 < n)%nat /\ edit_text (attempt + n - 1)%nat = Edited) /\
    (ok = false -> (0 < n)%nat ->
     edit_text (attempt + n - 1)%nat = Failed \/
     edit_text (attempt + n - 1)%nat = Transient /\ n = remaining).
Proof.
  induction remaining as [|remaining IH]; intros attempt Hsum; cbn [attempts].
  - exists 0%nat. cbn. repeat split; try done; lia.
  - destruct (edit_text attempt) eqn:He.
    + exists 1%nat. cbn. replace (attempt + 1 - 1)%nat with attempt by lia.
      repeat split; try done; try lia.
    + destruct (Z.of_nat attempt <? max_retries) eqn:Hlt.
      * apply Z.ltb_lt in Hlt. specialize (IH (S attempt) ltac:(lia)).
        destruct (attempts edit_text max_retries remaining (S attempt))
          as [ok actions].
        destruct IH as (n & E & Hn & Hpos & Hs & Htr & Hok & Hfail).
        assert (0 < remaining)%nat by lia. specialize (Hpos ltac:(lia)).
        exists (S n). cbn [edits omap]. cbn. fold (edits actions).
        rewrite E. unfold sleeps in *. cbn. rewrite Hs.
        replace (attempt + S n - 1)%nat with (S attempt + n - 1)%nat by lia.
        split; [done|]. split; [lia|]. split; [lia|]. split; [lia|].
        split.
        { intros j Hj. destruct (decide (j = attempt)) as [-> | Hne];
            [done|]. apply Htr. lia. }
        split; [rewrite Hok; split; intros [? ?]; (split; [lia|done])|].
        intros Hf _. destruct (Hfail Hf Hpos) as [?|[? ->]]; [by left|].
        right. by split.
      * apply Z.ltb_ge in Hlt. exists 1%nat. cbn.
        replace (attempt + 1 - 1)%nat with attempt by lia.
        split; [done|]. split; [lia|]. split; [lia|]. split; [done|].
        split; [intros; lia|]. split; [split; [done|]; intros [_ ?]; congruence|].
        intros _ _. right. split; [done|]. lia.
    + exists 1%nat. cbn. replace (attempt + 1 - 1)%nat with attempt by lia.
      split; [done|]. split; [lia|]. split; [lia|]. split; [done|].
      split; [intros; lia|]. split; [split; [done|]; intros [_ ?]; congruence|].
      intros _ _. by left.
Qed.

(** [safe_edit_message] calls [edit_text] for the attempts 0, 1, ... in
    turn, at most [max_retries + 1] times and at least once unless
    [max_retries] is negative, sleeping once between two calls; every call
    but the last timed out; it returns True exactly when the last call went
    through, and False when the last call failed otherwise or when the
    retries are used up. *)
Theorem safe_edit_message_attempts :
  let '(ok, actions) := safe_edit_message edit_text max_retries in
  exists n,
    edits actions = seq 0 n /\ (Z.of_nat n <= Z.max 0 (max_retries + 1)) /\
    (0 <= max_retries -> (0 < n)%nat) /\ sleeps actions = (n - 1)%nat /\
    (forall j, (j < n - 1)%nat -> edit_text j = Transient) /\
    (ok = true <-> (0 < n)%nat /\ edit_text (n - 1)%nat = Edited) /\
    (ok = false -> (0 < n)%nat ->
     edit_text (n - 1)%nat = Failed \/
     edit_text (n - 1)%nat = Transient /\ Z.of_nat n = max_retries + 1).
Proof.
  unfold safe_edit_message.
  destruct (Z.le_gt_cases 0 (max_retries + 1)) as [Hm|Hm].
  - pose proof (attempts_spec (Z.to_nat (max_retries + 1)) 0 ltac:(lia)) as H.
    destruct (attempts _ _ _ _) as [ok actions].
    destruct H as (n & E & Hn & Hpos & Hs & Htr & Hok & Hfail).
    exists n. cbn [Nat.add] in *.
    split; [done|]. split; [lia|]. split; [intros; apply Hpos; lia|].
    split; [done|]. split; [intros; apply Htr; lia|]. split; [done|].
    intros Hf Hp. destruct (Hfail Hf Hp) as [?|[? ->]]; [by left|].
    right. split; [done|lia].
  - replace (Z.to_nat (max_retries + 1)) with 0%nat by lia. cbn.
    exists 0%nat. cbn. split; [done|]. split; [lia|]. split; [lia|].
    split; [done|]. split; [intros; lia|]. split; [|intros; lia].
    split; [done|]. intros [? _]. lia.
Qed.

End RetryFacts.

Example two_timeouts_then_edited :
  safe_edit_message
    (fun attempt => if (attempt <? 2)%nat then Transient else Edited) 2
  = (true, [EditText 0; Sleep; EditText 1; Sleep; EditText 2]).
Proof. reflexivity. Qed.

Example three_timeouts :
  safe_edit_message (fun _ => Transient) 2
  = (false, [EditText 0; Sleep; EditText 1; Sleep; EditText 2]).
Proof. reflexivity. Qed.

End EditFacts.

(** ** List names are clean, and the list setting is never blank *)

Module ListNamesFacts.
Import Regex Py Auth ListNames Runtime AuthFacts PostResultFacts.


Lemma strip_idempotent s : strip (strip s) = strip s.
Proof.
  destruct (strip_split s) as (l & r & _ & _ & _ & Hh & Hl).
  destruct (strip s) as [|c t] eqn:E; [done|].
  rewrite <- (app_nil_r (c :: t)) at 1.
  by apply (strip_middle [] (c :: t) []).
Qed.







Section LowerFacts.
Variable lower : text -> text.




End LowerFacts.

Lemma nonblank_true s : nonblank s = true <-> s <> [].
Proof. by destruct s. Qed.

(** [set_google_maps_list] succeeds exactly when the name is not blank, and
    then stores the stripped name and changes nothing otherwise; whatever
    names are set and reset, starting without a stored name, the stored name
    is never blank and has no blank at either end, so that the list in use
    is the last name set successfully since the last reset, or the default
    list. *)
Theorem list_setting_never_blank (default_list : text) :
  (forall list_name self,
     fst (set_google_maps_list list_name self) = true <->
     ~ Forall (fun c => is_space c = true) list_name) /\
  (forall list_name self,
     fst (set_google_maps_list list_name self) = true ->
     google_maps_list default_list (snd (set_google_maps_list list_name self))
     = strip list_name) /\
  (forall list_name self,
     fst (set_google_maps_list list_name self) = false ->
     snd (set_google_maps_list list_name self) = self) /\
  (forall self,
     google_maps_list default_list (reset_google_maps_list self)
     = default_list) /\
  (forall commands list_name,
     _google_maps_list
       (foldl run_command {| _google_maps_list := None |} commands)
     = Some list_name ->
     list_name <> [] /\ strip list_name = list_name).
Proof.
  assert (Hset : forall list_name self,
            fst (set_google_maps_list list_name self) = true <->
            strip list_name <> []).
  { intros list_name self. unfold set_google_maps_list.
    destruct list_name as [|c s]; [done|]. cbn [nonblank negb orb].
    destruct (strip (c :: s)); cbn; [by split|by split]. }
  split; [|split; [|split; [|split]]].
  - intros list_name self. by rewrite Hset, strip_nil.
  - intros list_name self H. unfold set_google_maps_list in *.
    by destruct (negb (nonblank list_name) || negb (nonblank (strip list_name))).
  - intros list_name self. unfold set_google_maps_list.
    by destruct (negb (nonblank list_name) || negb (nonblank (strip list_name))).
  - done.
  - intros commands.
    assert (H : forall self,
      (forall n, _google_maps_list self = Some n -> n <> [] /\ strip n = n) ->
      forall n, _google_maps_list (foldl run_command self commands) = Some n ->
                n <> [] /\ strip n = n).
    { induction commands as [|c commands IH]; intros self Hinv; [done|].
      cbn [foldl]. apply IH. destruct c as [list_name|]; cbn; [|done].
      unfold set_google_maps_list.
      destruct (negb (nonblank list_name) || negb (nonblank (strip list_name)))
        eqn:Hb; [done|]. cbn. intros n [= <-].
      apply orb_false_iff in Hb as [_ Hb]. apply negb_false_iff in Hb.
      split; [by apply nonblank_true | apply strip_idempotent]. }
    apply H. done.
Qed.

End ListNamesFacts.

(** ** What a place search returns *)

Module PlaceSearchFacts.
Import Regex Py Places PlaceSearch PyFacts ThreadsResultFacts.

Lemma post_init_set types : post_init types <> VNone.
Proof. by destruct types. Qed.

Section ServiceFacts.
Variable quote : text -> outcome text.
Variable format_value : value -> text.
Variable str_exn : exn -> text.
Variable api_key : text.
Variable post : value -> outcome response.

Abbreviation search := (search_place quote format_value str_exn api_key post).
Abbreviation search_url encoded := (maps_search ++ str "&query=" ++ encoded).

Lemma generate_search_url_str q :
  generate_search_url quote [VStr q]
  = (encoded ← quote q; Return (search_url encoded)).
Proof. reflexivity. Qed.

Lemma generate_search_url_quoted q encoded :
  quote q = Return encoded ->
  generate_search_url quote [VStr q] = Return (search_url encoded).
Proof. intros H. by rewrite generate_search_url_str, H. Qed.

Lemma generate_search_url_unquoted q e :
  quote q = Raise e -> generate_search_url quote [VStr q] = Raise e.
Proof. intros H. by rewrite generate_search_url_str, H. Qed.

Lemma generate_search_url_other v :
  (forall s, v <> VStr s) -> generate_search_url quote [v] = Raise TypeError.
Proof. intros H. destruct v; try done. by destruct (H s). Qed.

Lemma maps_url_shape place_id lat lng :
  exists u,
    _generate_maps_url quote format_value place_id VNone lat lng = Return u /\
    (u = [] \/ maps_search `prefix_of` u) /\
    (u = [] -> truthy place_id = false /\
               (truthy lat = false \/ truthy lng = false)).
Proof.
  unfold _generate_maps_url.
  destruct (truthy place_id) eqn:Hp, (truthy lat) eqn:Hlat,
    (truthy lng) eqn:Hlng; cbn [andb truthy];
    eexists; (split; [reflexivity|]);
    try (split; [by left | intros _; split; [done|]; by auto]);
    (split; [right; by eexists|]);
    intros E; apply (f_equal head) in E; vm_compute in E; discriminate E.
Qed.

(** The results the body of the [try] can return. *)
Lemma request_result query r :
  request quote format_value post query = Return r ->
  (found r = true /\ error_message r = VNone /\ types r <> VNone /\
   (exists id, place_id r = VStr id) /\
   exists u, google_maps_url r = VStr u /\
     (u = [] \/ maps_search `prefix_of` u) /\
     (u = [] -> place_id r = VStr [] /\
                (truthy (latitude r) = false \/
                 truthy (longitude r) = false))) \/
  (exists msg url,
     generate_search_url quote [query] = Return url /\
     r = not_found (VStr msg) url).
Proof.
  unfold request. intros H. open_bind H.
  destruct (negb (status x =? 200)).
  { open_bind H. injection H as <-. right. eauto. }
  open_bind H. destruct (negb (truthy x1)).
  { open_bind H. injection H as <-. right. eauto. }
  open_bind H. injection H as <-. left.
  cbn [found error_message types place_id google_maps_url latitude
       longitude].
  split; [done|]. split; [done|]. split; [apply post_init_set|].
  split; [by eexists|].
  match goal with
  | E : _generate_maps_url _ _ ?p _ ?la ?ln = Return ?y |- _ =>
      destruct (maps_url_shape p la ln) as (u & Hu & Hshape & Hnil);
      rewrite E in Hu; injection Hu as <-; exists y
  end.
  split; [done|]. split; [done|]. intros Hnu.
  destruct (Hnil Hnu) as [Hp Hl]. split; [|done].
  cbn [truthy] in Hp. apply negb_false_iff, bool_decide_eq_true in Hp.
  f_equal. exact Hp.
Qed.

Lemma search_place_quoted (q encoded : text) :
  quote q = Return encoded ->
  exists r,
    search (VStr q) = Return r /\
    (found r = true <-> error_message r = VNone) /\
    types r <> VNone /\
    (found r = false ->
     google_maps_url r = VStr (search_url encoded) /\ place_id r = VNone /\
     name r = VNone /\ latitude r = VNone /\ longitude r = VNone) /\
    (api_key = [] ->
     found r = true /\ name r = VStr q /\ place_id r = VNone /\
     google_maps_url r = VStr (search_url encoded)) /\
    exists u, google_maps_url r = VStr u /\
      (u = [] \/ maps_search `prefix_of` u) /\
      (u = [] -> found r = true /\ api_key <> [] /\ place_id r = VStr [] /\
                 (truthy (latitude r) = false \/
                  truthy (longitude r) = false)).
Proof.
  intros Hq. unfold search_place. destruct api_key as [|k key] eqn:Hk.
  - rewrite (generate_search_url_quoted _ _ Hq).
    eexists. split; [reflexivity|]. cbn.
    split; [done|]. split; [done|]. split; [done|]. split; [done|].
    eexists. split; [reflexivity|]. split; [right; by eexists|]. done.
  - destruct (request _ _ _ _) as [r|e] eqn:Hr.
    + exists r. split; [done|].
      destruct (request_result _ _ Hr)
        as [(Hf & He & Ht & Hid & u & Hu & Hs & Hn)
           |(msg & url & Hg & ->)].
      * split; [by rewrite Hf, He|]. split; [done|].
        split; [by rewrite Hf|]. split; [done|].
        exists u. split; [done|]. split; [done|]. intros Hnu.
        destruct (Hn Hnu). by repeat split.
      * rewrite (generate_search_url_quoted _ _ Hq) in Hg.
        injection Hg as <-. cbn.
        split; [done|]. split; [done|]. split; [done|]. split; [done|].
        eexists. split; [reflexivity|]. split; [right; by eexists|]. done.
    + rewrite (generate_search_url_quoted _ _ Hq).
      eexists. split; [reflexivity|].
      cbn. split; [done|]. split; [done|]. split; [done|]. split; [done|].
      eexists. split; [reflexivity|]. split; [right; by eexists|]. done.
Qed.

(** When a link cannot be made for the query, the call raises unless the
    request finds a place. *)
Lemma search_place_no_link (v : value) (e : exn) :
  generate_search_url quote [v] = Raise e ->
  (api_key = [] -> search v = Raise e) /\
  (search v = Raise e \/
   exists r, search v = Return r /\ found r = true /\ api_key <> []).
Proof.
  intros Hg. unfold search_place. destruct api_key as [|k key] eqn:Hk.
  - rewrite Hg. split; [done|]. by left.
  - split; [done|].
    destruct (request _ _ _ _) as [r|e'] eqn:Hr.
    + destruct (request_result _ _ Hr)
        as [(Hf & _)|(msg & url & Hg' & _)].
      * right. exists r. by repeat split.
      * rewrite Hg in Hg'. done.
    + left. by rewrite Hg.
Qed.

(** [search_place] on a str query that [quote] can encode never raises,
    whatever the request does. Its result is found exactly when it carries
    no error message, its types are never None, a result that is not found
    carries the search link of the query and nothing else, and without a key
    the result is the query itself with its search link. The link of a
    result is a Maps search link, or empty, which only happens for a found
    place without an id and without one of its coordinates. On a str query
    that [quote] refuses, the call raises what [quote] raises, always so
    without a key, unless the request finds a place; and on a query that
    is no str it raises TypeError in the same way. *)
Theorem search_place_result (q : text) :
  (forall encoded, quote q = Return encoded ->
   exists r,
     search (VStr q) = Return r /\
     (found r = true <-> error_message r = VNone) /\
     types r <> VNone /\
     (found r = false ->
      google_maps_url r = VStr (search_url encoded) /\ place_id r = VNone /\
      name r = VNone /\ latitude r = VNone /\ longitude r = VNone) /\
     (api_key = [] ->
      found r = true /\ name r = VStr q /\ place_id r = VNone /\
      google_maps_url r = VStr (search_url encoded)) /\
     exists u, google_maps_url r = VStr u /\
       (u = [] \/ maps_search `prefix_of` u) /\
       (u = [] -> found r = true /\ api_key <> [] /\ place_id r = VStr [] /\
                  (truthy (latitude r) = false \/
                   truthy (longitude r) = false))) /\
  (forall e, quote q = Raise e ->
     (api_key = [] -> search (VStr q) = Raise e) /\
     (search (VStr q) = Raise e \/
      exists r, search (VStr q) = Return r /\ found r = true /\
                api_key <> [])) /\
  (forall v, (forall s, v <> VStr s) ->
     (api_key = [] -> search v = Raise TypeError) /\
     (search v = Raise TypeError \/
      exists r, search v = Return r /\ found r = true /\ api_key <> [])).
Proof.
  split; [|split].
  - apply search_place_quoted.
  - intros e He. apply search_place_no_link.
    by apply generate_search_url_unquoted.
  - intros v Hv. apply search_place_no_link.
    by apply generate_search_url_other.
Qed.

End ServiceFacts.

Example search_without_key :
  exists r,
    search_place sample_quote Threads.format_str Extractor.str_detail []
      (fun _ => Raise KeyError) (VStr (str "Cafe X Taipei"))
    = Return r /\
    found r = true /\
    google_maps_url r = VStr (maps_search ++ str "&query=Cafe X Taipei").
Proof. eexists. split; [reflexivity|]. split; reflexivity. Qed.

Example search_lone_surrogate :
  search_place sample_quote Threads.format_str Extractor.str_detail []
    (fun _ => Raise KeyError) (VStr [67; 55357]%N)
  = Raise (OtherError (str "UnicodeEncodeError")).
Proof. reflexivity. Qed.

End PlaceSearchFacts.

(** ** Which cookies are read *)

Module CookiesFacts.
Import Regex Auth Cookies RegexFacts AuthFacts.

Lemma split_on_snoc sep s c :
  exists init li,
    split_on sep s = init ++ [li] /\
    split_on sep (s ++ [c])
    = if (c =? sep)%N then init ++ [li; []] else init ++ [li ++ [c]].
Proof.
  induction s as [|a s (init & li & E & E')].
  - exists [], []. split; [done|]. cbn. by destruct (c =? sep)%N.
  - cbn [app split_on]. rewrite E, E'. destruct (a =? sep)%N.
    + exists ([] :: init), li. split; [done|]. by destruct (c =? sep)%N.
    + destruct init as [|i0 init].
      * exists [], (a :: li). split; [done|]. by destruct (c =? sep)%N.
      * exists ((a :: i0) :: init), li. split; [done|].
        by destruct (c =? sep)%N.
Qed.

Lemma split_on_last sep s item :
  last (split_on sep s) = Some item ->
  (item = [] -> s = [] \/ last s = Some sep) /\
  (item <> [] -> last item = last s).
Proof.
  destruct s as [|c s _] using rev_ind.
  - intros [= <-]. split; [by left|done].
  - destruct (split_on_snoc sep s c) as (init & li & _ & ->).
    destruct (c =? sep)%N eqn:Hc.
    + apply N.eqb_eq in Hc as ->.
      change (init ++ [li; []]) with (init ++ [li] ++ [[]]).
      rewrite app_assoc, last_snoc. intros [= <-].
      split; [|done]. intros _. right. by rewrite last_snoc.
    + rewrite last_snoc. intros [= <-]. split.
      * intros H. by destruct li.
      * intros _. by rewrite !last_snoc.
Qed.

(** A line that starts, after blanks, with the comment sign gives no
    cookie, and neither does a line with fewer than seven fields; a cookie
    that is read has a name and a value without a tab; and on a line of
    exactly seven fields its value is not empty and does not end with a
    blank, so that a cookie written with an empty value is not read. *)
Theorem cookie_lines (line : text) :
  (head_is 35 (skip_while is_space line) = true ->
   cookie_of_line line = None) /\
  (forall name value, cookie_of_line line = Some (name, value) ->
     (7 <= length (split_on 9 (strip line)))%nat /\
     (9%N ∉ name) /\ (9%N ∉ value) /\
     contains (str "instagram.com") (nth 0 (split_on 9 (strip line)) [])
     = true /\
     (length (split_on 9 (strip line)) = 7%nat ->
      value <> [] /\ forall c, last value = Some c -> is_space c = false)).
Proof.
  split.
  - intros H. unfold cookie_of_line.
    replace (head_is 35 (strip line)) with true; [done|].
    destruct (skip_while is_space line) as [|c t] eqn:E; [done|].
    cbn in H. apply N.eqb_eq in H as ->.
    destruct (strip_split line) as (l & r & Es & Hl & Hr & Hh & _).
    assert (Hsk : skip_while is_space line = strip line ++ r).
    { rewrite Es at 1. rewrite skip_while_app by done.
      destruct (strip line) as [|x m].
      - cbn [app]. cbn [app] in Es.
        assert (Hall : Forall (fun c => is_space c = true) line)
          by (rewrite Es; by apply Forall_app).
        apply skip_while_nil in Hall. by rewrite Hall in E.
      - cbn [app]. apply skip_while_stop. by apply Hh. }
    rewrite E in Hsk. destruct (strip line) as [|x m].
    + cbn [app] in Hsk. subst r. inversion Hr; subst. done.
    + injection Hsk as <- _. symmetry. apply N.eqb_refl.
  - intros name value. unfold cookie_of_line.
    destruct (head_is 35 (strip line) || negb (nonblank (strip line)))
      eqn:Hc; [done|].
    destruct (7 <=? length (split_on 9 (strip line)))%nat eqn:Hlen; [|done].
    apply Nat.leb_le in Hlen.
    destruct (contains _ _) eqn:Hd; [|done]. intros [= <- <-].
    destruct (split_on_items 9 (strip line)) as (_ & Hno & _).
    rewrite Forall_forall in Hno.
    assert (Hnth : forall i, (i < length (split_on 9 (strip line)))%nat ->
              9%N ∉ nth i (split_on 9 (strip line)) []).
    { intros i Hi. apply Hno. apply list_elem_of_In, nth_In. done. }
    split; [done|]. split; [apply Hnth; lia|]. split; [apply Hnth; lia|].
    split; [done|]. intros H7.
    assert (Hlast : last (split_on 9 (strip line))
                    = Some (nth 6 (split_on 9 (strip line)) [])).
    { rewrite last_lookup, H7. cbn [pred].
      destruct (lookup_lt_is_Some_2 (split_on 9 (strip line)) 6 ltac:(lia))
        as [x Hx].
      rewrite Hx. f_equal. symmetry. exact (nth_lookup_Some _ _ [] _ Hx). }
    destruct (split_on_last _ _ _ Hlast) as (Hnil & Hcons).
    destruct (strip_split line) as (_ & _ & _ & _ & _ & _ & Hsp).
    apply orb_false_iff in Hc as [_ Hnb]. apply negb_false_iff in Hnb.
    assert (Hv : nth 6 (split_on 9 (strip line)) [] <> []).
    { intros Hv. destruct (Hnil Hv) as [Hs | Hs].
      - rewrite Hs in Hnb. done.
      - apply Hsp in Hs. done. }
    split; [done|]. intros c Hc. rewrite (Hcons Hv) in Hc. by apply Hsp.
Qed.

Lemma load_snoc lines line :
  _load_cookies_from_netscape (lines ++ [line])
  = match cookie_of_line line with
    | Some (n, v) => <[n := v]> (_load_cookies_from_netscape lines)
    | None => _load_cookies_from_netscape lines
    end.
Proof. unfold _load_cookies_from_netscape. by rewrite foldl_app. Qed.

(** The value of a cookie is the one of the last line that gives it one,
    and a cookie no line gives is not there; lines that give no cookie can
    be left out. *)
Theorem last_line_wins (lines : list text) (name : text) :
  _load_cookies_from_netscape lines !! name
  = last (omap (value_for name) lines) /\
  _load_cookies_from_netscape
    (List.filter (fun line => bool_decide (is_Some (cookie_of_line line)))
       lines)
  = _load_cookies_from_netscape lines.
Proof.
  split.
  - induction lines as [|line lines IH] using rev_ind; [done|].
    rewrite load_snoc, omap_app.
    set (prev := omap (value_for name) lines) in *.
    change (omap (value_for name) [line])
      with (match value_for name line with Some v => [v] | None => [] end).
    unfold value_for.
    destruct (cookie_of_line line) as [[n v]|].
    + destruct (decide (n = name)) as [-> | Hne].
      * rewrite bool_decide_eq_true_2 by done.
        rewrite lookup_insert_eq. by rewrite last_snoc.
      * rewrite bool_decide_eq_false_2 by done.
        rewrite lookup_insert_ne by done. by rewrite app_nil_r.
    + by rewrite app_nil_r.
  - induction lines as [|line lines IH] using rev_ind; [done|].
    rewrite List.filter_app, load_snoc. cbn [List.filter].
    destruct (cookie_of_line line) as [[n v]|] eqn:E.
    + rewrite bool_decide_eq_true_2 by (by eexists).
      by rewrite load_snoc, E, IH.
    + rewrite bool_decide_eq_false_2 by (by intros [? [=]]).
      by rewrite app_nil_r.
Qed.

Example http_only_cookie_skipped :
  cookie_of_line
    (str "#HttpOnly_.instagram.com" ++ 9%N :: str "TRUE" ++ 9%N :: str "/"
     ++ 9%N :: str "TRUE" ++ 9%N :: str "1790000000" ++ 9%N :: str "sessionid"
     ++ 9%N :: str "abc" ++ [10%N])
  = None.
Proof. vm_compute. reflexivity. Qed.

Example plain_cookie_read :
  cookie_of_line
    (str ".instagram.com" ++ 9%N :: str "TRUE" ++ 9%N :: str "/"
     ++ 9%N :: str "TRUE" ++ 9%N :: str "1790000000" ++ 9%N :: str "csrftoken"
     ++ 9%N :: str "abc" ++ [10%N])
  = Some (str "csrftoken", str "abc").
Proof. vm_compute. reflexivity. Qed.

End CookiesFacts.

(** ** The query of a place search, and the places that cannot be searched *)

Module SearchQueryFacts.
Import Regex Py Places PlaceSearch Search PyFacts PlaceSearchFacts.

Section QueryFacts.
Variable quote : text -> outcome text.
Variable format_value : value -> text.
Variable str_exn : exn -> text.
Variable api_key : text.
(** The request made at a given time. *)
Variable post : nat -> value -> outcome response.

Abbreviation service :=
  (fun t => search_place quote format_value str_exn api_key (post t)).
Abbreviation task := (search_place_with_info service format_value).

Lemma run_tasks_raises candidates order : forall t s i p,
  i ∈ order -> candidates !! i = Some p ->
  (forall t', exists e, task t' p = Raise e) ->
  exists e, run_tasks service format_value candidates t order s = Raise e.
Proof.
  induction order as [|j order IH]; intros t s i p Hi Hp Hraise.
  { by apply elem_of_nil in Hi. }
  cbn [run_tasks]. unfold complete at 1.
  destruct (decide (j = i)) as [-> | Hne].
  - rewrite Hp. destruct (Hraise t) as [e ->]. by exists e.
  - apply elem_of_cons in Hi as [-> | Hi]; [done|].
    destruct (candidates !! j) as [q|].
    + destruct (task t q) as [r|e]; [|by exists e]. cbn. by eapply IH.
    + cbn. by eapply IH.
Qed.

Lemma first_keyword kw :
  is_list kw || is_str kw || negb (truthy kw) = true ->
  exists q, (if truthy kw then first kw else Return VNone) = Return q.
Proof.
  destruct kw as [| [|] | z | f | [|c s] | [|x l] | d]; cbn; try done;
    try (by eexists).
  - destruct (z =? 0); cbn; [by eexists | done].
  - destruct f; cbn; try done; by eexists.
  - destruct d; cbn; [by eexists | done].
Qed.

Lemma keyword_read p :
  is_list (Extractor.search_keywords p) || is_str (Extractor.search_keywords p)
  || negb (truthy (Extractor.search_keywords p)) = true ->
  exists q,
    (if truthy (Extractor.search_keywords p)
     then first (Extractor.search_keywords p)
     else Return (Extractor.name p)) = Return q.
Proof.
  intros Hkw. destruct (first_keyword _ Hkw) as [q Hq].
  destruct (truthy (Extractor.search_keywords p)); by eexists.
Qed.

(** A place with a city and a name, whose keywords are a list, a str or
    nothing, is searched under its name and city joined by a blank. When
    [quote] encodes that query the search returns, whatever the request
    does, and a result that is not found carries the search link of the
    query. When [quote] refuses the query (a name or city holding a lone
    surrogate) the task raises what [quote] raises, always so without a
    key, unless the request finds a place. A place whose name is no str,
    without keywords and without both a city and a name, cannot be searched
    without a key: its task raises TypeError, and then the join of the search
    tasks raises, whatever the other places are and in whatever order the
    tasks complete. *)
Theorem unsearchable_place (p : PlaceInfo) :
  (truthy (Extractor.city p) = true -> truthy (Extractor.name p) = true ->
   is_list (Extractor.search_keywords p) || is_str (Extractor.search_keywords p)
   || negb (truthy (Extractor.search_keywords p)) = true ->
   forall t,
     (forall encoded,
        quote (format_value (Extractor.name p) ++ str " "
               ++ format_value (Extractor.city p)) = Return encoded ->
        exists r,
          task t p = Return (p, r) /\
          (found r = false ->
           google_maps_url r
           = VStr (maps_search ++ str "&query=" ++ encoded))) /\
     (forall e,
        quote (format_value (Extractor.name p) ++ str " "
               ++ format_value (Extractor.city p)) = Raise e ->
        (api_key = [] -> task t p = Raise e) /\
        (task t p = Raise e \/
         exists r, task t p = Return (p, r) /\ found r = true /\
                   api_key <> []))) /\
  (api_key = [] -> (forall s, Extractor.name p <> VStr s) ->
   truthy (Extractor.search_keywords p) = false ->
   truthy (Extractor.city p) && truthy (Extractor.name p) = false ->
   (forall t, task t p = Raise TypeError) /\
   forall candidates order i,
     candidates !! i = Some p -> i ∈ order ->
     exists e,
       gather service format_value candidates order = Some (Raise e)).
Proof.
  split.
  - intros Hc Hn Hkw t. unfold search_place_with_info. rewrite Hc, Hn.
    cbn [andb]. destruct (keyword_read _ Hkw) as [q ->].
    unfold mbind, outcome_bind, bind. cbv beta iota. split.
    + intros encoded Hq.
      destruct (search_place_quoted quote format_value str_exn api_key (post t)
                  _ _ Hq) as (r & Hr & _ & _ & Hnf & _).
      exists r. split; [by rewrite Hr|].
      intros Hf. by destruct (Hnf Hf) as [-> _].
    + intros e Hq.
      destruct (search_place_no_link quote format_value str_exn api_key
                  (post t) _ _ (generate_search_url_unquoted quote _ _ Hq))
        as [Hnokey Hany].
      split.
      * intros Hk. by rewrite (Hnokey Hk).
      * destruct Hany as [-> | (r & -> & Hf & Hk)]; [by left|].
        right. by exists r.
  - intros Hk Hname Hkw Hcn.
    assert (Htask : forall t, task t p = Raise TypeError).
    { intros t. unfold search_place_with_info. rewrite Hkw, Hcn.
      unfold mbind, outcome_bind, bind. cbv beta iota.
      unfold search_place. rewrite Hk.
      by rewrite (generate_search_url_other quote _ Hname). }
    split; [done|]. intros candidates order i Hi Hin. unfold gather.
    destruct (run_tasks_raises candidates order 0
                (replicate (length candidates) None) i p Hin Hi) as [e ->].
    { intros t'. exists TypeError. apply Htask. }
    by exists e.
Qed.

End QueryFacts.

(** A reply that announces a place and gives an empty object for it is
    read as one found place, and the search for it raises. *)
Example blank_place_unsearchable :
  exists r,
    Extractor.read_places
      (VDict [(str "found", VBool true); (str "places", VList [VDict []])])
    = Return r /\
    Extractor.found r = true /\
    gather (fun t => search_place sample_quote Threads.format_str
                       Extractor.str_detail [] (fun _ => Raise KeyError))
      Threads.format_str (Extractor.places r) [0%nat]
    = Some (Raise TypeError).
Proof. eexists. split; [reflexivity|]. split; reflexivity. Qed.

(** A place whose name holds a lone surrogate and that has a city is read
    as it stands, and without a key its search raises what [quote] raises. *)
Example surrogate_place_unsearchable :
  gather (fun t => search_place sample_quote Threads.format_str
                     Extractor.str_detail [] (fun _ => Raise KeyError))
    Threads.format_str
    [{| Extractor.confidence := VStr (str "low");
        Extractor.name := VStr [67; 55357]%N; Extractor.name_en := VNone;
        Extractor.city := VStr (str "Taipei"); Extractor.country := VNone;
        Extractor.address := VNone; Extractor.place_type := VList [];
        Extractor.highlights := VList []; Extractor.price_range := VNone;
        Extractor.recommendation := VNone; Extractor.tags := VList [];
        Extractor.search_keywords := VList [] |}] [0%nat]
  = Some (Raise (OtherError (str "UnicodeEncodeError"))).
Proof. reflexivity. Qed.

End SearchQueryFacts.

(** ** Which download decides the outcome of the download stage *)

Module AcquireFacts.
Import Regex UrlType Py Downloader Acquire PostResultFacts.

Section AcquireOutcomes.
Variable download : text -> Video.DownloadResult.
Variable download_post : text -> PostDownloadResult.

Lemma acquire_post_independent (ig_url : text) download' :
  success (download_post ig_url) = true \/
  content_type (download_post ig_url) <> str "reel" ->
  acquire download' download_post "post" ig_url
  = acquire download download_post "post" ig_url.
Proof.
  intros Hor. unfold acquire.
  change (String.eqb "post" "post") with true. cbv iota.
  destruct (success (download_post ig_url)); [done|].
  destruct Hor as [Hor|Hor]; [done|].
  destruct (text_eqb (content_type (download_post ig_url)) (str "reel"))
    eqn:Hc; [|done]. by apply text_eqb_true in Hc.
Qed.

(** The download stage hands on the pictures of a successful post download
    or a successful video download, and nothing else. For a post link the
    video download only counts when the post download failed with content
    type reel, and a failure is reported with the error of the download
    that was tried last; for any other link the post download only counts
    when the video download failed, and a failure of both is reported with
    the error of the video download. *)
Theorem acquire_outcomes (url_type : string) (ig_url : text) :
  match acquire download download_post url_type ig_url with
  | AsImages post_result =>
      post_result = download_post ig_url /\ success post_result = true /\
      (url_type <> "post"%string ->
       Video.success (download ig_url) = false)
  | AsVideo download_result =>
      download_result = download ig_url /\
      Video.success download_result = true /\
      (url_type = "post"%string ->
       success (download_post ig_url) = false /\
       content_type (download_post ig_url) = str "reel")
  | Abort reply =>
      success (download_post ig_url) = false /\
      if String.eqb url_type "post"
         && negb (text_eqb (content_type (download_post ig_url)) (str "reel"))
      then reply = msg_download_failed
                   ++ render (error_message (download_post ig_url))
      else reply = msg_download_failed
                   ++ render (Video.error_message (download ig_url)) /\
           Video.success (download ig_url) = false
  end /\
  (url_type = "post"%string ->
   success (download_post ig_url) = true \/
   content_type (download_post ig_url) <> str "reel" ->
   forall download',
     acquire download' download_post url_type ig_url
     = acquire download download_post url_type ig_url) /\
  (url_type <> "post"%string -> Video.success (download ig_url) = true ->
   forall download_post',
     acquire download download_post' url_type ig_url
     = acquire download download_post url_type ig_url).
Proof.
  split; [|split]; [unfold acquire| |unfold acquire].
  - destruct (String.eqb url_type "post") eqn:Ht.
    + apply String.eqb_eq in Ht.
      destruct (success (download_post ig_url)) eqn:Hs.
      { split; [done|]. split; [done|]. intros Hne. by destruct Hne. }
      destruct (text_eqb (content_type (download_post ig_url)) (str "reel"))
        eqn:Hc.
      * apply text_eqb_true in Hc.
        destruct (Video.success (download ig_url)) eqn:Hd; cbn [negb andb].
        -- split; [done|]. split; [done|]. by intros _.
        -- by split.
      * cbn [negb andb]. by split.
    + apply String.eqb_neq in Ht.
      destruct (Video.success (download ig_url)) eqn:Hd; cbn [negb andb].
      * split; [done|]. split; [done|]. intros Hp. by destruct Ht.
      * destruct (success (download_post ig_url)) eqn:Hs.
        -- split; [done|]. split; [done|]. by intros _.
        -- by split.
  - intros -> Hor download'. by apply acquire_post_independent.
  - intros Ht Hd download_post'. apply String.eqb_neq in Ht. rewrite Ht.
    by rewrite Hd.
Qed.

End AcquireOutcomes.

Section PostLinks.
Variable is_word : N -> bool.
Variable str_exn : exn -> text.
Variable from_shortcode : text -> fetched Post.
Variable get_and_write_raw : text -> text -> fetched unit.
Variable post_dir : text.

(** [download_post] with [_download_post_sync] run in the executor. *)
Abbreviation fetch_post :=
  (Links.download_post is_word str_exn
     (fun shortcode =>
        Return (_download_post_sync from_shortcode get_and_write_raw post_dir
                  shortcode))).

Lemma fetch_post_reel url :
  content_type (fetch_post url) = str "reel" <->
  Links.validate_url is_word url = true /\
  exists shortcode post,
    Links.extract_post_id is_word url = Some shortcode /\
    from_shortcode shortcode = Fetched post /\
    typename post = str "GraphVideo".
Proof.
  unfold Links.download_post.
  destruct (Links.validate_url is_word url) eqn:Hv; cbn [negb].
  2:{ split; [done|]. by intros [? _]. }
  destruct (proj1 (LinksFacts.validate_iff_id is_word url) Hv) as [id Hx].
  destruct (LinksFacts.post_id_shape is_word url id Hx) as (Hne & _).
  rewrite Hx. destruct id as [|c id]; [done|].
  destruct (post_sync_shape from_shortcode get_and_write_raw post_dir (c :: id))
    as [_ Hreel].
  rewrite Hreel. split.
  - intros (post & Hp & Ht). split; [done|]. by exists (c :: id), post.
  - intros (_ & sc & post & [= <-] & Hp & Ht). by exists post.
Qed.

(** For a post link the video download decides anything only when the link
    is valid and the post behind its id was fetched and is a video; and for
    such a post the download stage is the video download: its result when
    it succeeds, and otherwise its error as the reply. *)
Theorem video_fallback_only_for_videos (url : text) :
  (forall download1 download2,
     acquire download1 fetch_post "post" url
     <> acquire download2 fetch_post "post" url ->
     exists shortcode post,
       Links.extract_post_id is_word url = Some shortcode /\
       from_shortcode shortcode = Fetched post /\
       typename post = str "GraphVideo") /\
  (forall shortcode post download,
     Links.validate_url is_word url = true ->
     Links.extract_post_id is_word url = Some shortcode ->
     from_shortcode shortcode = Fetched post ->
     typename post = str "GraphVideo" ->
     acquire download fetch_post "post" url
     = if Video.success (download url) then AsVideo (download url)
       else Abort (msg_download_failed
                   ++ render (Video.error_message (download url)))).
Proof.
  split.
  - intros download1 download2 Hne.
    destruct (decide (content_type (fetch_post url) = str "reel")) as [Hc|Hc].
    + apply fetch_post_reel in Hc as (_ & sc & post & H). by exists sc, post.
    + destruct Hne.
      apply (acquire_post_independent download2 fetch_post url download1).
      by right.
  - intros shortcode post download Hv Hx Hp Ht.
    assert (Hc : content_type (fetch_post url) = str "reel").
    { apply fetch_post_reel. split; [done|]. by exists shortcode, post. }
    assert (Hs : success (fetch_post url) = false).
    { unfold Links.download_post. rewrite Hv, Hx. cbn [negb].
      destruct (LinksFacts.post_id_shape is_word url shortcode Hx) as (Hne & _).
      destruct shortcode as [|c sc]; [done|].
      unfold _download_post_sync. rewrite Hp, Ht. done. }
    unfold acquire. change (String.eqb "post" "post") with true. cbv iota.
    rewrite Hs, Hc. unfold text_eqb. rewrite bool_decide_eq_true_2 by done.
    by destruct (Video.success (download url)).
Qed.

End PostLinks.

Example video_post_goes_to_video_download :
  acquire (fun _ => Video.failure (str "no video"))
    (Links.download_post Links.ascii_word Extractor.str_detail
       (fun shortcode =>
          Return (_download_post_sync
                    (fun _ => Fetched
                       {| typename := str "GraphVideo"; post_caption := None;
                          post_title := None; owner_username := str "ann";
                          url := str "https://cdn/0"; sidecar_nodes := [] |})
                    always_written (str "tmp/post_1") shortcode)))
    "post" (str "https://www.instagram.com/p/Cx9/")
  = Abort (msg_download_failed ++ str "no video").
Proof. vm_compute. reflexivity. Qed.

End AcquireFacts.

(** ** Sample runs *)

Module Samples.
Import Regex UrlType UrlExtract Py.

Example share_link_extracted :
  _extract_ig_url (str "look: https://instagram.com/share/abcDEF now")
  = Some (str "https://instagram.com/share/abcDEF") /\
  _get_url_type (str "https://instagram.com/share/abcDEF") = "share"%string /\
  Links.validate_url Links.ascii_word (str "https://instagram.com/share/abcDEF")
  = false.
Proof. repeat split; vm_compute; reflexivity. Qed.

Example reply_without_braces :
  Extractor._parse_response (Extractor.loads_table []) Extractor.str_detail
    (str "I could not find a place.")
  = ([], Return (Extractor.not_found (VStr Extractor.msg_no_json))).
Proof. vm_compute. reflexivity. Qed.

Example threads_video_without_address :
  ThreadsDownload.download_threads_post Links.ascii_word Extractor.str_detail
    (fun _ => Return (Some
       {| Threads.media_type := VInt 2; Threads.caption := VNone;
          Threads.description := VStr (str "text"); Threads.author := VNone;
          Threads.image_urls := [VStr (str "https://cdn/1.jpg")];
          Threads.video_urls := []; Threads.carousel_items := [];
          Threads.thread_items_count := 1 |}))
    (fun _ _ => Return (str "image/jpeg")) (fun _ => Return tt)
    (str "tmp/threads_1") (str "tmp/threads_2")
    (str "https://www.threads.net/@ann.b/post/Cx9")
  = ThreadsDownload.failure (str "reel") ThreadsDownload.msg_no_video_url.
Proof. vm_compute. reflexivity. Qed.

Example blank_setting_authorises_all :
  Auth.allowed_chat_ids (str " , ,") = [] /\
  Auth._is_authorized (str " , ,") 42 = true /\
  Auth._is_authorized (str "41") 42 = false.
Proof. repeat split; vm_compute; reflexivity. Qed.

Example list_names_read :
  ListNames.read_items (fun s => s)
    [Return (57344%N :: str " Want to go" ++ 10%N :: str "12 places");
     Raise KeyError;
     Return (str "New list");
     Return (str "Want to go" ++ 10%N :: str "Favourites")]
  = [str "Want to go"; str "Favourites"].
Proof. vm_compute. reflexivity. Qed.

End Samples.
